(** * ka9q-radio: the linear demodulator and the status TLV codec

    A shallow embedding of [src/linear.c] (the per-block body of
    [demod_linear]), of the encoders and decoders of [src/status.c] and
    of the part of [src/main.c] that prepares a demodulator's
    parameters, with the properties the specification states about
    them and further properties of the code.

    Conventions.
    - C [int] is a [Z] with its 32-bit two's-complement wrap written out
      ([int32]); [uint8_t], [uint32_t] and [uint64_t] are [Z] reduced
      modulo 2^8, 2^32 and 2^64.
    - C [float] and [double] are idealised: [cfloat] keeps the IEEE 754
      special values the code tests for (NaN, the two infinities) and
      takes every finite result exactly, as a real number.  Rounding,
      overflow to infinity, underflow and the sign of zero are therefore
      outside the model.  The integer code computes ([vm_compute]); what
      is defined over the reals is evaluated by rewriting.
    - The oscillator and PLL primitives ([osc.c]) and the libm argument
      function are an interface ([Osc]); the upstream filter and the
      output transport appear as the per-block input they produce. *)

From Stdlib Require Import ZArith List Bool Lia Reals Lra Psatz.
From Stdlib Require String Ascii.
Import ListNotations.

(** ** Idealised C floating point *)

Module CFloat.
Local Open Scope R_scope.

Inductive cfloat : Type :=
| FNaN : cfloat
| FInf (neg : bool) : cfloat
| FFin (r : R) : cfloat.

Definition fzero : cfloat := FFin 0.
Definition fone : cfloat := FFin 1.
Definition ftwo : cfloat := FFin 2.

Definition isnan (x : cfloat) : bool :=
  match x with FNaN => true | _ => false end.

Definition Rneg (r : R) : bool := if Rlt_dec r 0 then true else false.

(** IEEE comparison: [None] is "unordered" (an operand is NaN). *)
Definition fcompare (x y : cfloat) : option comparison :=
  match x, y with
  | FNaN, _ | _, FNaN => None
  | FInf s, FInf t =>
      Some (if s then (if t then Eq else Lt) else (if t then Gt else Eq))
  | FInf s, FFin _ => Some (if s then Lt else Gt)
  | FFin _, FInf t => Some (if t then Gt else Lt)
  | FFin a, FFin b =>
      Some (if Rlt_dec a b then Lt else if Rlt_dec b a then Gt else Eq)
  end.

(** [x < y], [x > y], [x == y], [x != y] as C evaluates them: every
    ordered comparison with a NaN is false, and [!=] is the negation of
    [==]. *)
Definition flt (x y : cfloat) : bool :=
  match fcompare x y with Some Lt => true | _ => false end.
Definition fgt (x y : cfloat) : bool := flt y x.
Definition feq (x y : cfloat) : bool :=
  match fcompare x y with Some Eq => true | _ => false end.
Definition fne (x y : cfloat) : bool := negb (feq x y).
Definition fle (x y : cfloat) : bool :=
  match fcompare x y with Some Lt | Some Eq => true | _ => false end.

Definition fneg (x : cfloat) : cfloat :=
  match x with
  | FNaN => FNaN
  | FInf s => FInf (negb s)
  | FFin r => FFin (- r)
  end.

Definition fabsf (x : cfloat) : cfloat :=
  match x with
  | FNaN => FNaN
  | FInf _ => FInf false
  | FFin r => FFin (Rabs r)
  end.

Definition fadd (x y : cfloat) : cfloat :=
  match x, y with
  | FNaN, _ | _, FNaN => FNaN
  | FInf s, FInf t => if Bool.eqb s t then FInf s else FNaN
  | FInf s, FFin _ => FInf s
  | FFin _, FInf t => FInf t
  | FFin a, FFin b => FFin (a + b)
  end.

Definition fsub (x y : cfloat) : cfloat := fadd x (fneg y).

Definition fmul (x y : cfloat) : cfloat :=
  match x, y with
  | FNaN, _ | _, FNaN => FNaN
  | FInf s, FInf t => FInf (xorb s t)
  | FInf s, FFin r | FFin r, FInf s =>
      if Req_dec_T r 0 then FNaN else FInf (xorb s (Rneg r))
  | FFin a, FFin b => FFin (a * b)
  end.

(** Division; a zero divisor counts as +0. *)
Definition fdiv (x y : cfloat) : cfloat :=
  match x, y with
  | FNaN, _ | _, FNaN => FNaN
  | FInf _, FInf _ => FNaN
  | FInf s, FFin r => FInf (xorb s (Rneg r))
  | FFin _, FInf _ => FFin 0
  | FFin a, FFin b =>
      if Req_dec_T b 0
      then (if Req_dec_T a 0 then FNaN else FInf (Rneg a))
      else FFin (a / b)
  end.

Definition sqrtf (x : cfloat) : cfloat :=
  match x with
  | FNaN => FNaN
  | FInf s => if s then FNaN else FInf false
  | FFin r => if Rlt_dec r 0 then FNaN else FFin (sqrt r)
  end.

Definition is_integer (r : R) : bool :=
  if Req_dec_T (IZR (Int_part r)) r then true else false.
Definition is_odd_integer (r : R) : bool :=
  is_integer r && Z.odd (Int_part r).

(** [powf], by the cases of C99 Annex F.10.4.4 (with an unsigned zero). *)
Definition powf (x y : cfloat) : cfloat :=
  if feq y fzero then fone
  else if feq x fone then fone
  else
    match x, y with
    | FNaN, _ | _, FNaN => FNaN
    | FFin a, FFin b =>
        if Rlt_dec 0 a then FFin (Rpower a b)
        else if Req_dec_T a 0 then (if Rlt_dec 0 b then FFin 0 else FInf false)
        else if is_integer b
             then FFin ((if Z.odd (Int_part b) then -1 else 1) * Rpower (- a) b)
             else FNaN
    | FFin a, FInf neg =>
        if Req_dec_T a (-1) then fone
        else if Rlt_dec (Rabs a) 1
             then (if neg then FInf false else FFin 0)
             else (if neg then FFin 0 else FInf false)
    | FInf false, FFin b => if Rlt_dec b 0 then FFin 0 else FInf false
    | FInf true, FFin b =>
        if Rlt_dec b 0 then FFin 0
        else if is_odd_integer b then FInf true else FInf false
    | FInf _, FInf neg => if neg then FFin 0 else FInf false
    end.

(** C [int]: 32 bits, two's complement. *)
Definition INT_MIN : Z := (- 2 ^ 31)%Z.
Definition INT_MAX : Z := (2 ^ 31 - 1)%Z.
Definition int32 (z : Z) : Z := ((z + 2 ^ 31) mod 2 ^ 32 - 2 ^ 31)%Z.

(** Conversions between [int] and [float]: exact one way, truncation
    toward zero the other.  A value out of [int]'s range (or a NaN) is
    undefined in C; the model gives the x86 result, [INT_MIN]. *)
Definition of_int (z : Z) : cfloat := FFin (IZR z).
Definition Rtrunc (r : R) : Z :=
  if Rle_dec 0 r then Int_part r else (- Int_part (- r))%Z.
Definition float_to_int (x : cfloat) : Z :=
  match x with
  | FFin r =>
      let t := Rtrunc r in
      if ((INT_MIN <=? t) && (t <=? INT_MAX))%Z then t else INT_MIN
  | _ => INT_MIN
  end.

(** [complex float]: the C accessors are the projections. *)
Record complexf : Type := Cplx { crealf : cfloat; cimagf : cfloat }.

Definition conjf (z : complexf) : complexf :=
  Cplx (crealf z) (fneg (cimagf z)).
Definition cmul (z w : complexf) : complexf :=
  Cplx (fsub (fmul (crealf z) (crealf w)) (fmul (cimagf z) (cimagf w)))
       (fadd (fmul (crealf z) (cimagf w)) (fmul (cimagf z) (crealf w))).
(** complex times real *)
Definition cscale (z : complexf) (g : cfloat) : complexf :=
  Cplx (fmul (crealf z) g) (fmul (cimagf z) g).
Definition cabsf (z : complexf) : cfloat :=
  sqrtf (fadd (fmul (crealf z) (crealf z)) (fmul (cimagf z) (cimagf z))).

End CFloat.
Export CFloat.

(** ** status.c: the TLV encoders and the integer decoder *)

Module Status.
Local Open Scope Z_scope.

Definition uint8 (z : Z) : Z := z mod 2 ^ 8.
Definition uint32 (z : Z) : Z := z mod 2 ^ 32.
Definition uint64 (z : Z) : Z := z mod 2 ^ 64.

(** Byte-addressed memory; a pointer is an address. *)
Definition memory : Type := Z -> Z.
Definition load (m : memory) (p : Z) : Z := uint8 (m p).
Definition store (m : memory) (p v : Z) : memory :=
  fun a => if a =? p then uint8 v else m a.

(** What an encoder leaves behind: its return value, the memory, and the
    caller's pointer [*buf]. *)
Record encoded : Type := Encoded { ret : Z; mem : memory; buf : Z }.

(** [while(len > 0 && (x & 0xff00000000000000LL) == 0){ x <<= 8; len--; }] *)
Fixpoint skip_leading (len : nat) (x : Z) : nat * Z :=
  match len with
  | O => (O, x)
  | S l =>
      if Z.land x 0xff00000000000000 =? 0
      then skip_leading l (uint64 (Z.shiftl x 8))
      else (len, x)
  end.

(** [for(int i=0; i<len; i++){ *cp++ = x >> 56; x <<= 8; }] *)
Fixpoint put_bytes (len : nat) (x : Z) (m : memory) (cp : Z) : memory * Z :=
  match len with
  | O => (m, cp)
  | S l =>
      put_bytes l (uint64 (Z.shiftl x 8)) (store m cp (Z.shiftr x 56)) (cp + 1)
  end.

(** [int encode_int64(uint8_t **buf, enum status_type type, uint64_t x)] *)
Definition encode_int64 (m : memory) (buf : Z) (type : Z) (x : Z) : encoded :=
  let cp := buf in
  let m := store m cp type in
  let cp := cp + 1 in
  if x =? 0 then
    let m := store m cp 0 in
    let cp := cp + 1 in
    Encoded 2 m cp
  else
    let '(len, x) := skip_leading 8 x in
    let m := store m cp (Z.of_nat len) in
    let cp := cp + 1 in
    let '(m, cp) := put_bytes len x m cp in
    Encoded (2 + Z.of_nat len) m cp.

Definition encode_int32 (m : memory) (buf : Z) (type : Z) (x : Z) : encoded :=
  encode_int64 m buf type (uint64 (uint32 x)).

(** [while(len-- > 0) result = (result << 8) | *cp++;] *)
Fixpoint decode_loop (len : nat) (m : memory) (cp : Z) (result : Z) : Z :=
  match len with
  | O => result
  | S l => decode_loop l m (cp + 1) (Z.lor (uint64 (Z.shiftl result 8)) (load m cp))
  end.

(** [uint64_t decode_int(uint8_t const *cp, int len)] *)
Definition decode_int (m : memory) (cp : Z) (len : Z) : Z :=
  decode_loop (Z.to_nat len) m cp 0.

Section Floats.
(** [union result]: the bit pattern a [float] or a [double] is stored
    as, read back as [uint32_t] or [uint64_t]. *)
Variable float_bits : cfloat -> Z.
Variable double_bits : cfloat -> Z.

(** [int encode_float(uint8_t **buf, enum status_type type, float x)] *)
Definition encode_float (m : memory) (buf : Z) (type : Z) (x : cfloat) : encoded :=
  if isnan x then Encoded 0 m buf
  else encode_int32 m buf type (float_bits x).

(** [int encode_double(uint8_t **buf, enum status_type type, double x)] *)
Definition encode_double (m : memory) (buf : Z) (type : Z) (x : cfloat) : encoded :=
  if isnan x then Encoded 0 m buf
  else encode_int64 m buf type (uint64 (double_bits x)).

End Floats.

(** The value of the [len] bytes at [cp], most significant first. *)
Definition pow256 (n : nat) : Z := 256 ^ Z.of_nat n.
Fixpoint be_value (len : nat) (m : memory) (cp : Z) : Z :=
  match len with
  | O => 0
  | S l => load m cp * pow256 l + be_value l m (cp + 1)
  end.

(** *** The other encoders and decoders of status.c *)

Definition uint16 (z : Z) : Z := z mod 2 ^ 16.
Definition int64 (z : Z) : Z := (z + 2 ^ 63) mod 2 ^ 64 - 2 ^ 63.

(** [EOL]: "Single null type byte means end of list". *)
Definition EOL : Z := 0.

(** [int encode_eol(uint8_t **buf)] *)
Definition encode_eol (m : memory) (buf : Z) : encoded :=
  let bp := buf in
  let m := store m bp EOL in
  let bp := bp + 1 in
  Encoded 1 m bp.

(** [int encode_byte(uint8_t **buf, enum status_type type, uint8_t x)] *)
Definition encode_byte (m : memory) (buf : Z) (type : Z) (x : Z) : encoded :=
  let x := uint8 x in
  let cp := buf in
  let m := store m cp type in
  let cp := cp + 1 in
  if x =? 0 then
    let m := store m cp 0 in
    let cp := cp + 1 in
    Encoded 2 m cp
  else
    let m := store m cp 1 in
    let cp := cp + 1 in
    let m := store m cp x in
    let cp := cp + 1 in
    Encoded (2 + 1) m cp.

Definition encode_int16 (m : memory) (buf : Z) (type : Z) (x : Z) : encoded :=
  encode_int64 m buf type (uint64 (uint16 x)).

(** [int encode_int(uint8_t **buf, enum status_type type, int x)]: the
    cast [(uint64_t)x] of a negative [int] sign-extends. *)
Definition encode_int (m : memory) (buf : Z) (type : Z) (x : Z) : encoded :=
  encode_int64 m buf type (uint64 (int32 x)).

(** [memcpy(dst, src, n)]; nothing is copied for [n <= 0], where C
    would convert [n] to a huge [size_t]. *)
Definition memcpy (m : memory) (dst src n : Z) : memory :=
  fun a => if (dst <=? a) && (a <? dst + n) then load m (src + (a - dst)) else m a.

(** [int encode_string(uint8_t **bp, enum status_type type,
    void const *buf, int buflen)] *)
Definition encode_string (m : memory) (bp : Z) (type : Z) (buf buflen : Z)
  : encoded :=
  let cp := bp in
  let m := store m cp type in
  let cp := cp + 1 in
  let buflen := if buflen >? 255 then 255 else buflen in
  let m := store m cp buflen in
  let cp := cp + 1 in
  let m := memcpy m cp buf buflen in
  Encoded (2 + buflen) m (cp + buflen).

(** [char *decode_string(uint8_t const *cp, int optlen, char *buf,
    int buflen)]; the returned pointer is [buf] itself, so the model
    returns the memory. *)
Definition decode_string (m : memory) (cp optlen buf buflen : Z) : memory :=
  let n := Z.min optlen (buflen - 1) in
  let m := memcpy m buf cp n in
  store m (buf + n) 0.

Section Unions.
(** [union result] and the anonymous union of [encode_vector]:
    [float_bits] reads [r.l] (or [d.u]) after [r.f] was written,
    [float_of_ll] reads [r.f] after [r.ll] was written, [double_of_ll]
    reads [r.d] after [r.ll] was written. *)
Variable float_bits : cfloat -> Z.
Variable float_of_ll : Z -> cfloat.
Variable double_of_ll : Z -> cfloat.
(** The cast [(float)d] of a [double] to [float]: it rounds to a value
    a [float] can hold (possibly an infinity), so it is not the
    identity.  The cast [(double)f] the other way is exact. *)
Variable to_float : cfloat -> cfloat.

(** [for(int j=0; j < 4; j++){ *cp++ = (d.u >> 24); d.u <<= 24; }] *)
Fixpoint put_float (j : nat) (u : Z) (m : memory) (cp : Z) : memory * Z :=
  match j with
  | O => (m, cp)
  | S k =>
      put_float k (uint32 (Z.shiftl u 24)) (store m cp (Z.shiftr u 24)) (cp + 1)
  end.

(** [for(int i=0; i < 63; i++){ d.f = array[i]; ... }], with [n] floats
    left to write and [i] the index of the next one. *)
Fixpoint put_vector (n i : nat) (array : nat -> cfloat) (m : memory) (cp : Z)
  : memory * Z :=
  match n with
  | O => (m, cp)
  | S k =>
      let '(m, cp) := put_float 4 (uint32 (float_bits (array i))) m cp in
      put_vector k (S i) array m cp
  end.

(** [int encode_vector(uint8_t **bp, enum status_type type, float *array)] *)
Definition encode_vector (m : memory) (bp : Z) (type : Z) (array : nat -> cfloat)
  : encoded :=
  let cp := bp in
  let m := store m cp type in
  let cp := cp + 1 in
  let length := 252 in
  let m := store m cp length in
  let cp := cp + 1 in
  let '(m, cp) := put_vector 63 0 array m cp in
  Encoded (length + 2) m cp.

(** [float decode_float(uint8_t const *cp, int len)] and
    [double decode_double(uint8_t const *cp, int len)] call each other;
    [n] bounds the depth of the calls.  [decode_float] narrows what
    [decode_double] returns, [(float)decode_double(cp,len)];
    [decode_double] widens what [decode_float] returns, which changes
    nothing. *)
Fixpoint decode_float_n (n : nat) (m : memory) (cp len : Z) : option cfloat :=
  match n with
  | O => None
  | S k =>
      if len =? 0 then Some fzero
      else if len =? 8 then option_map to_float (decode_double_n k m cp len)
      else Some (float_of_ll (decode_int m cp len))
  end
with decode_double_n (n : nat) (m : memory) (cp len : Z) : option cfloat :=
  match n with
  | O => None
  | S k =>
      if len =? 0 then Some fzero
      else if len =? 4 then decode_float_n k m cp len
      else Some (double_of_ll (decode_int m cp len))
  end.

Definition decode_float (m : memory) (cp len : Z) : option cfloat :=
  decode_float_n 2 m cp len.
Definition decode_double (m : memory) (cp len : Z) : option cfloat :=
  decode_double_n 2 m cp len.

End Unions.

Section Sockets.
(** [struct sockaddr_in] and [struct sockaddr_in6] seen through the
    same pointer, in the Linux layout: the family, the port (both
    [sin_port] and [sin6_port], two bytes in network order), the four
    bytes of [sin_addr] and the sixteen bytes of [sin6_addr]. *)
Record sockaddr : Type := Sockaddr {
  sa_family : Z;
  sa_port : list Z;
  sin_addr : list Z;
  sin6_addr : list Z
}.

Variable AF_INET : Z.
Variable AF_INET6 : Z.

(** [memcpy(bp, src, n)] from a field of the socket structure. *)
Fixpoint store_bytes (m : memory) (p : Z) (bytes : list Z) : memory :=
  match bytes with
  | [] => m
  | b :: rest => store_bytes (store m p b) (p + 1) rest
  end.

(** [memcpy(dst, val, n)] into a field of the socket structure. *)
Fixpoint load_bytes (n : nat) (m : memory) (p : Z) : list Z :=
  match n with
  | O => []
  | S k => load m p :: load_bytes k m (p + 1)
  end.

(** [int encode_socket(uint8_t **buf, enum status_type type,
    void const *sock)] *)
Definition encode_socket (m : memory) (buf : Z) (type : Z) (sock : sockaddr)
  : encoded :=
  let bp := buf in
  if sa_family sock =? AF_INET then
    let optlen := 6 in
    let m := store m bp type in
    let bp := bp + 1 in
    let m := store m bp optlen in
    let bp := bp + 1 in
    let m := store_bytes m bp (firstn 4 (sin_addr sock)) in
    let bp := bp + 4 in
    let m := store_bytes m bp (firstn 2 (sa_port sock)) in
    let bp := bp + 2 in
    Encoded optlen m bp
  else if sa_family sock =? AF_INET6 then
    let optlen := 10 in
    let m := store m bp type in
    let bp := bp + 1 in
    let m := store m bp optlen in
    let bp := bp + 1 in
    let m := store_bytes m bp (firstn 8 (sin6_addr sock)) in
    let bp := bp + 8 in
    let m := store_bytes m bp (firstn 2 (sa_port sock)) in
    let bp := bp + 2 in
    Encoded optlen m bp
  else Encoded 0 m buf.

(** [struct sockaddr *decode_socket(void *sock, uint8_t const *val,
    int optlen)]; [None] is the [NULL] return, which leaves [*sock]
    alone. *)
Definition decode_socket (sock : sockaddr) (m : memory) (val optlen : Z)
  : option sockaddr :=
  if optlen =? 6 then
    Some (Sockaddr AF_INET (load_bytes 2 m (val + 4)) (load_bytes 4 m val)
            (sin6_addr sock))
  else if optlen =? 10 then
    Some (Sockaddr AF_INET6 (load_bytes 2 m (val + 8)) (sin_addr sock)
            (load_bytes 8 m val ++ skipn 8 (sin6_addr sock)))
  else None.

End Sockets.

(** [int64_t random_time(int64_t base, int64_t rrange)], given the
    values [now] of [gps_time_ns()] and [rnd] of [random()]; [None] is
    the division by zero of [random() % 0]. *)
Definition random_time (now rnd : Z) (base rrange : Z) : option Z :=
  if rrange =? 0 then None
  else Some (int64 (now + base + Z.rem rnd rrange)).

Section Poll.
(** The two [enum status_type] tags the poll uses (status.h). *)
Variable OUTPUT_SSRC : Z.
Variable COMMAND_TAG : Z.

(** [void send_poll(int fd, int ssrc)], given the value [rnd] of
    [random()]: the memory with the command in [cmdbuffer], and
    [command_len], the number of bytes handed to [send]. *)
Definition send_poll (m : memory) (cmdbuffer : Z) (rnd : Z) (ssrc : Z)
  : memory * Z :=
  let bp := cmdbuffer in
  let m := store m bp 1 in
  let bp := bp + 1 in
  let '(m, bp) :=
    if negb (int32 ssrc =? 0) then
      let e := encode_int m bp OUTPUT_SSRC ssrc in (mem e, buf e)
    else (m, bp) in
  let tag := uint32 rnd in
  let e := encode_int m bp COMMAND_TAG tag in
  let '(m, bp) := (mem e, buf e) in
  let e := encode_eol m bp in
  let '(m, bp) := (mem e, buf e) in
  let command_len := bp - cmdbuffer in
  (m, command_len).

(** The [while(cp - buffer < length)] loop of [get_ssrc]; every turn
    reads at least two bytes, so [length] turns are enough. *)
Fixpoint get_ssrc_loop (fuel : nat) (m : memory) (buffer cp length : Z)
  : option Z :=
  match fuel with
  | O => if cp - buffer <? length then None else Some 0
  | S k =>
      if cp - buffer <? length then
        let type := load m cp in
        let cp := cp + 1 in
        if type =? EOL then Some 0
        else
          let optlen := load m cp in
          let cp := cp + 1 in
          if cp - buffer + optlen >=? length then Some 0
          else if type =? OUTPUT_SSRC then Some (int32 (decode_int m cp optlen))
          else get_ssrc_loop k m buffer (cp + optlen) length
      else Some 0
  end.

(** [int get_ssrc(uint8_t const *buffer, int length)] *)
Definition get_ssrc (m : memory) (buffer length : Z) : option Z :=
  get_ssrc_loop (Z.to_nat length) m buffer buffer length.

End Poll.

(** *** Vocabulary and test data of the codec properties *)

(** What a [uint8_t] array holds. *)
Definition bytes (l : list Z) : Prop := Forall (fun b => 0 <= b < 256) l.

(** The address [k] options further on from [p], and what it means
    that none of these [k] options is the end of the list or has the
    type [t]. *)
Fixpoint skip_options (k : nat) (m : memory) (p : Z) : Z :=
  match k with
  | O => p
  | S k' => skip_options k' m (p + (2 + load m (p + 1)))
  end.
Fixpoint other_options (t : Z) (k : nat) (m : memory) (p : Z) : Prop :=
  match k with
  | O => True
  | S k' =>
      load m p <> EOL /\ load m p <> t
      /\ other_options t k' m (p + (2 + load m (p + 1)))
  end.

(** A memory holding the bytes of [l] from address 0 on. *)
Definition memory_of (l : list Z) : memory :=
  fun a => if a <? 0 then 0 else nth (Z.to_nat a) l 0.

(** A toy reading of the unions, enough to run the float encoders on
    1.0: the bit patterns of the single and double precision 1.0, and
    the all-zero pattern read as 0.0. *)
Definition toy_float_bits (x : cfloat) : Z := 0x3f800000.
Definition toy_double_bits (x : cfloat) : Z := 0x3ff0000000000000.
Definition toy_of_ll (z : Z) : cfloat := if z =? 0 then fzero else fone.

End Status.

(** ** linear.c: the per-block body of [demod_linear] *)

Module Linear.

(** The oscillator and PLL of [osc.c] and libm's [cargf]/[carg], as the
    demodulator calls them.  [pll_clear_integrator] is the assignment
    [chan->pll.pll.integrator = 0]; [osc_freq] reads the field [freq]. *)
Class Osc : Type := {
  osc : Type;
  pll : Type;
  set_osc : osc -> cfloat -> cfloat -> osc;
  osc_freq : osc -> cfloat;
  step_osc : osc -> complexf * osc;
  set_pll_params : pll -> cfloat -> cfloat -> pll;
  pll_phasor : pll -> complexf;
  run_pll : pll -> cfloat -> pll;
  pll_freq : pll -> cfloat;
  pll_clear_integrator : pll -> pll;
  cargf : complexf -> cfloat
}.

(** Modelled from the spec: [cnrmf] of misc.h, the squared magnitude of a
    complex sample (section 4.5, step 5). *)
Definition cnrmf (z : complexf) : cfloat :=
  fadd (fmul (crealf z) (crealf z)) (fmul (cimagf z) (cimagf z)).

(** [assert(...)]: a failed assertion aborts the process. *)
Inductive outcome (A : Type) : Type :=
| Done (a : A)
| Aborted.
Arguments Done {A} a.
Arguments Aborted {A}.

Definition assert {A : Type} (b : bool) (k : outcome A) : outcome A :=
  if b then k else Aborted.

(** [struct channel], the fields the demodulator reads or writes, grouped
    as in radio.h: [chan->output.gain] is [output_gain (output chan)]. *)
Record output_t : Type := Output {
  output_samprate : Z;
  output_gain : cfloat;
  output_headroom : cfloat;
  output_channels : Z;
  output_energy : cfloat;
  output_sum_gain_sq : cfloat
}.

Record filter_t : Type := Filter {
  filter_min_IF : cfloat;
  filter_max_IF : cfloat
}.

Record linear_t : Type := LinearCfg {
  linear_env : bool;
  linear_agc : bool;
  linear_pll : bool;
  linear_square : bool;
  linear_loop_bw : cfloat;
  linear_hangtime : cfloat;
  linear_threshold : cfloat;
  linear_recovery_rate : cfloat;
  linear_rotations : Z;
  linear_pll_lock : bool;
  linear_lock_timer : Z;
  linear_cphase : cfloat
}.

Record sig_t : Type := Sig {
  sig_snr : cfloat;
  sig_foffset : cfloat;
  sig_bb_power : cfloat;
  sig_n0 : cfloat
}.

Record fm_t : Type := Fm {
  fm_squelch_open : cfloat;
  fm_squelch_close : cfloat
}.

Record tune_t : Type := Tune {
  tune_shift : cfloat;
  tune_freq : cfloat
}.

Section Channel.
Context {O : Osc}.

Record pll_t : Type := Pll {
  pll_pll : pll;
  pll_was_on : bool;
  pll_lock_count : Z
}.

Record channel : Type := Channel {
  output : output_t;
  filter : filter_t;
  linear : linear_t;
  chan_pll : pll_t;
  sig : sig_t;
  fm : fm_t;
  tune : tune_t;
  shift : osc;
  hangcount : Z
}.

(** Assignments to fields. *)
Definition set_output (f : output_t -> output_t) (c : channel) : channel :=
  Channel (f (output c)) (filter c) (linear c) (chan_pll c) (sig c) (fm c)
          (tune c) (shift c) (hangcount c).
Definition set_linear (f : linear_t -> linear_t) (c : channel) : channel :=
  Channel (output c) (filter c) (f (linear c)) (chan_pll c) (sig c) (fm c)
          (tune c) (shift c) (hangcount c).
Definition set_chan_pll (f : pll_t -> pll_t) (c : channel) : channel :=
  Channel (output c) (filter c) (linear c) (f (chan_pll c)) (sig c) (fm c)
          (tune c) (shift c) (hangcount c).
Definition set_sig (f : sig_t -> sig_t) (c : channel) : channel :=
  Channel (output c) (filter c) (linear c) (chan_pll c) (f (sig c)) (fm c)
          (tune c) (shift c) (hangcount c).
Definition set_shift (s : osc) (c : channel) : channel :=
  Channel (output c) (filter c) (linear c) (chan_pll c) (sig c) (fm c)
          (tune c) s (hangcount c).
Definition set_hangcount (h : Z) (c : channel) : channel :=
  Channel (output c) (filter c) (linear c) (chan_pll c) (sig c) (fm c)
          (tune c) (shift c) h.

Definition set_output_gain (g : cfloat) : channel -> channel :=
  set_output (fun o =>
    Output (output_samprate o) g (output_headroom o) (output_channels o)
           (output_energy o) (output_sum_gain_sq o)).
Definition set_output_energy (e : cfloat) : channel -> channel :=
  set_output (fun o =>
    Output (output_samprate o) (output_gain o) (output_headroom o)
           (output_channels o) e (output_sum_gain_sq o)).
Definition set_output_sum_gain_sq (s : cfloat) : channel -> channel :=
  set_output (fun o =>
    Output (output_samprate o) (output_gain o) (output_headroom o)
           (output_channels o) (output_energy o) s).

Definition set_linear_rotations (r : Z) : channel -> channel :=
  set_linear (fun l =>
    LinearCfg (linear_env l) (linear_agc l) (linear_pll l) (linear_square l)
              (linear_loop_bw l) (linear_hangtime l) (linear_threshold l)
              (linear_recovery_rate l) r (linear_pll_lock l)
              (linear_lock_timer l) (linear_cphase l)).
Definition set_linear_pll_lock (b : bool) : channel -> channel :=
  set_linear (fun l =>
    LinearCfg (linear_env l) (linear_agc l) (linear_pll l) (linear_square l)
              (linear_loop_bw l) (linear_hangtime l) (linear_threshold l)
              (linear_recovery_rate l) (linear_rotations l) b
              (linear_lock_timer l) (linear_cphase l)).
Definition set_linear_lock_timer (t : Z) : channel -> channel :=
  set_linear (fun l =>
    LinearCfg (linear_env l) (linear_agc l) (linear_pll l) (linear_square l)
              (linear_loop_bw l) (linear_hangtime l) (linear_threshold l)
              (linear_recovery_rate l) (linear_rotations l) (linear_pll_lock l)
              t (linear_cphase l)).
Definition set_linear_cphase (p : cfloat) : channel -> channel :=
  set_linear (fun l =>
    LinearCfg (linear_env l) (linear_agc l) (linear_pll l) (linear_square l)
              (linear_loop_bw l) (linear_hangtime l) (linear_threshold l)
              (linear_recovery_rate l) (linear_rotations l) (linear_pll_lock l)
              (linear_lock_timer l) p).

Definition set_pll_pll (p : pll) : channel -> channel :=
  set_chan_pll (fun s => Pll p (pll_was_on s) (pll_lock_count s)).
Definition set_pll_was_on (b : bool) : channel -> channel :=
  set_chan_pll (fun s => Pll (pll_pll s) b (pll_lock_count s)).
Definition set_pll_lock_count (n : Z) : channel -> channel :=
  set_chan_pll (fun s => Pll (pll_pll s) (pll_was_on s) n).

Definition set_sig_snr (x : cfloat) : channel -> channel :=
  set_sig (fun s => Sig x (sig_foffset s) (sig_bb_power s) (sig_n0 s)).
Definition set_sig_foffset (x : cfloat) : channel -> channel :=
  set_sig (fun s => Sig (sig_snr s) x (sig_bb_power s) (sig_n0 s)).
Definition set_sig_power (bb n0 : cfloat) : channel -> channel :=
  set_sig (fun s => Sig (sig_snr s) (sig_foffset s) bb n0).

(** Coherent mode parameters (lines 11-12 and 57-60). *)
Definition DEFAULT_PLL_DAMPING : cfloat := FFin (sqrt (1 / 2)).
Definition DEFAULT_PLL_LOCKTIME : cfloat := FFin (5 / 100).
Definition M_PI : cfloat := FFin PI.

(** [int const lock_limit = lock_time * chan->output.samprate;] *)
Definition lock_limit_of (c : channel) : Z :=
  float_to_int (fmul DEFAULT_PLL_LOCKTIME (of_int (output_samprate (output c)))).

(** Lines 86-97: the PLL's pass over the block.  Each sample is
    de-rotated in place; the in-phase and quadrature energies are summed. *)
Fixpoint pll_samples (square : bool) (p : pll) (buffer : list complexf)
    (signal noise : cfloat) : list complexf * pll * cfloat * cfloat :=
  match buffer with
  | [] => ([], p, signal, noise)
  | b :: rest =>
      let s := cmul b (conjf (pll_phasor p)) in
      let phase := if square then cargf (cmul s s) else cargf s in
      let p := run_pll p phase in
      let signal := fadd signal (fmul (crealf s) (crealf s)) in
      let noise := fadd noise (fmul (cimagf s) (cimagf s)) in
      let '(rest', p', signal', noise') :=
        pll_samples square p rest signal noise in
      (s :: rest', p', signal', noise')
  end.

(** Lines 98-103. *)
Definition snr_estimate (signal noise : cfloat) : cfloat :=
  if fne noise fzero then
    let snr := fsub (fdiv signal noise) fone in
    if flt snr fzero then fzero else snr
  else FNaN.

(** Lines 108-121: loop lock detector with hysteresis. *)
Definition lock_detector (lock_limit N : Z) (c : channel) : channel :=
  let c :=
    if flt (sig_snr (sig c)) (fm_squelch_close (fm c)) then
      let c := set_pll_lock_count (int32 (pll_lock_count (chan_pll c) - N)) c in
      if (pll_lock_count (chan_pll c) <=? int32 (- lock_limit))%Z then
        set_linear_pll_lock false (set_pll_lock_count (int32 (- lock_limit)) c)
      else c
    else if fgt (sig_snr (sig c)) (fm_squelch_open (fm c)) then
      let c := set_pll_lock_count (int32 (pll_lock_count (chan_pll c) + N)) c in
      if (pll_lock_count (chan_pll c) >=? lock_limit)%Z then
        set_linear_pll_lock true (set_pll_lock_count lock_limit c)
      else c
    else c in
  set_linear_lock_timer (pll_lock_count (chan_pll c)) c.

(** Lines 122-130: count the wraps of the oscillator phase. *)
Definition track_rotations (c : channel) : channel :=
  let phase := cargf (pll_phasor (pll_pll (chan_pll c))) in
  let phase_diff := fsub phase (linear_cphase (linear c)) in
  let c := set_linear_cphase phase c in
  if fgt phase_diff M_PI then
    set_linear_rotations (int32 (linear_rotations (linear c) - 1)) c
  else if flt phase_diff (fneg M_PI) then
    set_linear_rotations (int32 (linear_rotations (linear c) + 1)) c
  else c.

(** Lines 79-84: just turned on, reset stuff. *)
Definition pll_cold_start (c : channel) : channel :=
  if negb (pll_was_on (chan_pll c)) then
    let c := set_linear_rotations 0 c in
    let c := set_pll_pll (pll_clear_integrator (pll_pll (chan_pll c))) c in
    set_pll_was_on true c
  else c.

(** Lines 77-134. *)
Definition pll_stage (lock_limit : Z) (c : channel) (buffer : list complexf)
    : channel * list complexf :=
  let N := Z.of_nat (length buffer) in
  if linear_pll (linear c) then
    let c := pll_cold_start c in
    let c := set_pll_pll (set_pll_params (pll_pll (chan_pll c))
                            (linear_loop_bw (linear c)) DEFAULT_PLL_DAMPING) c in
    let '(buffer, p, signal, noise) :=
      pll_samples (linear_square (linear c)) (pll_pll (chan_pll c)) buffer
                  fzero fzero in
    let c := set_pll_pll p c in
    let c := set_sig_snr (snr_estimate signal noise) c in
    let c := lock_detector lock_limit N c in
    let c := track_rotations c in
    let c := set_sig_foffset (pll_freq (pll_pll (chan_pll c))) c in
    (c, buffer)
  else (set_pll_was_on false c, buffer).

(** Lines 137-142: the post-detection frequency shift. *)
Fixpoint shift_samples (o : osc) (buffer : list complexf)
    : list complexf * osc :=
  match buffer with
  | [] => ([], o)
  | b :: rest =>
      let '(ph, o) := step_osc o in
      let '(rest', o') := shift_samples o rest in
      (cmul b ph :: rest', o')
  end.

Definition shift_stage (c : channel) (buffer : list complexf)
    : channel * list complexf :=
  let c := set_shift (set_osc (shift c)
                        (fdiv (tune_shift (tune c))
                              (of_int (output_samprate (output c))))
                        fzero) c in
  if fne (osc_freq (shift c)) fzero then
    let '(buffer, o) := shift_samples (shift c) buffer in
    (set_shift o c, buffer)
  else (c, buffer).

(** Lines 147-182: the AGC decision for one block of [N] samples.  The
    result is the channel (its hang counter updated) and [gain_change]. *)
Definition agc_stage (N : Z) (c : channel) : outcome (channel * cfloat) :=
  let gain_change := fone in
  if linear_agc (linear c) then
    let bw := fabsf (fsub (filter_min_IF (filter c)) (filter_max_IF (filter c))) in
    let bn := sqrtf (fmul bw (sig_n0 (sig c))) in
    let ampl := sqrtf (sig_bb_power (sig c)) in
    if fgt (fmul ampl (output_gain (output c))) (output_headroom (output c)) then
      let newgain := fdiv (output_headroom (output c)) ampl in
      let gain_change :=
        if fgt newgain fzero
        then powf (fdiv newgain (output_gain (output c))) (fdiv fone (of_int N))
        else gain_change in
      assert (fne gain_change fzero)
        (Done (set_hangcount (float_to_int (linear_hangtime (linear c))) c,
               gain_change))
    else if fgt (fmul bn (output_gain (output c)))
                (fmul (linear_threshold (linear c)) (output_headroom (output c)))
    then
      let newgain :=
        fdiv (fmul (linear_threshold (linear c)) (output_headroom (output c)))
             bn in
      let gain_change :=
        if fgt newgain fzero
        then powf (fdiv newgain (output_gain (output c))) (fdiv fone (of_int N))
        else gain_change in
      assert (fne gain_change fzero) (Done (c, gain_change))
    else if (0 <? hangcount c)%Z then
      let gain_change := fone in
      Done (set_hangcount (int32 (hangcount c - 1)) c, gain_change)
    else
      let gain_change :=
        powf (linear_recovery_rate (linear c)) (fdiv fone (of_int N)) in
      assert (fne gain_change fzero) (Done (c, gain_change))
  else Done (c, gain_change).

(** The quantities the AGC compares, by the names the specification
    gives them (section 4.4); they unfold to the [let]s of [agc_stage]. *)
Definition signal_amplitude (c : channel) : cfloat :=
  sqrtf (sig_bb_power (sig c)).
Definition noise_amplitude (c : channel) : cfloat :=
  sqrtf (fmul (fabsf (fsub (filter_min_IF (filter c)) (filter_max_IF (filter c))))
              (sig_n0 (sig c))).
Definition strong_signal (c : channel) : bool :=
  fgt (fmul (signal_amplitude c) (output_gain (output c)))
      (output_headroom (output c)).
Definition noise_above_threshold (c : channel) : bool :=
  fgt (fmul (noise_amplitude c) (output_gain (output c)))
      (fmul (linear_threshold (linear c)) (output_headroom (output c))).

(** The end-of-block gain a gain-reducing branch aims at. *)
Definition strong_target (c : channel) : cfloat :=
  fdiv (output_headroom (output c)) (signal_amplitude c).
Definition noise_target (c : channel) : cfloat :=
  fdiv (fmul (linear_threshold (linear c)) (output_headroom (output c)))
       (noise_amplitude c).
Definition reducing_target (c : channel) : option cfloat :=
  if strong_signal c then Some (strong_target c)
  else if noise_above_threshold c then Some (noise_target c)
  else None.

(** The N-th root ramp of lines 164 and 171, with its guard. *)
Definition ramp_to (target : cfloat) (N : Z) (c : channel) : cfloat :=
  if fgt target fzero
  then powf (fdiv target (output_gain (output c))) (fdiv fone (of_int N))
  else fone.

(** Lines 186-229: the final pass.  The four loops have one shape: format
    the sample with the current gain, add its energy, advance the gain.
    In C the output overlays the input buffer; every sample is read
    before its place is written (low index to high), so the pass is a
    map over the input. *)
Fixpoint final_pass {A : Type} (fmt : complexf -> cfloat -> A)
    (pwr : A -> cfloat) (buffer : list complexf)
    (gain gain_change output_power : cfloat) : list A * cfloat * cfloat :=
  match buffer with
  | [] => ([], gain, output_power)
  | b :: rest =>
      let sample := fmt b gain in
      let output_power := fadd output_power (pwr sample) in
      let gain := fmul gain gain_change in
      let '(out, gain', power') :=
        final_pass fmt pwr rest gain gain_change output_power in
      (sample :: out, gain', power')
  end.

Definition square (x : cfloat) : cfloat := fmul x x.
(** [samples[n] = cabsf(buffer[n]) * chan->output.gain;] *)
Definition fmt_mono_env (b : complexf) (gain : cfloat) : cfloat :=
  fmul (cabsf b) gain.
(** [samples[n] = crealf(buffer[n]) * chan->output.gain;] *)
Definition fmt_mono_i (b : complexf) (gain : cfloat) : cfloat :=
  fmul (crealf b) gain.
(** [__imag__ buffer[n] = cabsf(buffer[n]) * 2; buffer[n] *= chan->output.gain;] *)
Definition fmt_stereo_env (b : complexf) (gain : cfloat) : complexf :=
  cscale (Cplx (crealf b) (fmul (cabsf b) ftwo)) gain.
(** [buffer[n] *= chan->output.gain;] *)
Definition fmt_stereo_iq (b : complexf) (gain : cfloat) : complexf :=
  cscale b gain.

(** The block handed to [send_output]: real samples R0 R1 ... or
    left/right pairs L0 R0 L1 R1 ... *)
Inductive pcm : Type :=
| Mono (samples : list cfloat)
| Stereo (samples : list complexf).

Definition output_pass (c : channel) (buffer : list complexf)
    (gain_change : cfloat) : pcm * cfloat * cfloat :=
  let gain := output_gain (output c) in
  if (output_channels (output c) =? 1)%Z then
    if linear_env (linear c) then
      let '(out, g, p) := final_pass fmt_mono_env square buffer gain gain_change fzero in
      (Mono out, g, p)
    else
      let '(out, g, p) := final_pass fmt_mono_i square buffer gain gain_change fzero in
      (Mono out, g, p)
  else
    if linear_env (linear c) then
      let '(out, g, p) := final_pass fmt_stereo_env cnrmf buffer gain gain_change fzero in
      (Stereo out, g, p)
    else
      let '(out, g, p) := final_pass fmt_stereo_iq cnrmf buffer gain gain_change fzero in
      (Stereo out, g, p).

(** Modelled from the spec: what the two collaborators contribute to one
    turn of the loop (section 6).  [downconvert] delivers the filtered
    samples and the estimates of baseband power and noise density;
    [blk_send] is what [send_output] returns for the block (-1: no output
    stream). *)
Record block : Type := Block {
  blk_buffer : list complexf;
  blk_bb_power : cfloat;
  blk_n0 : cfloat;
  blk_send : Z
}.

(** The arguments of [send_output]: the block, its sample count, mute. *)
Record sent : Type := Sent {
  sent_pcm : pcm;
  sent_count : Z;
  sent_mute : bool
}.

(** Lines 230-237. *)
Definition per_sample_power (c : channel) (N : Z) (output_power : cfloat) : cfloat :=
  let output_power := fdiv output_power (of_int N) in
  if (output_channels (output c) =? 1)%Z then fmul output_power ftwo
  else output_power.

Definition mute_of (c : channel) (output_power : cfloat) : bool :=
  feq output_power fzero
  || (linear_pll (linear c) && negb (linear_pll_lock (linear c)))
  || feq (tune_freq (tune c)) fzero.

(** Lines 184-245: the final pass and what follows it, given the
    [gain_change] the AGC chose. *)
Definition output_stage (c : channel) (buffer : list complexf)
    (gain_change : cfloat) (send : Z) : channel * sent * bool :=
  let N := Z.of_nat (length buffer) in
  let start_gain := output_gain (output c) in
  let '(out, gain, output_power) := output_pass c buffer gain_change in
  let c := set_output_gain gain c in
  let output_power := per_sample_power c N output_power in
  let c := set_output_energy (fadd (output_energy (output c)) output_power) c in
  let mute := mute_of c output_power in
  if (send =? -1)%Z then (c, Sent out N mute, false)
  else
    let c := set_output_sum_gain_sq
               (fadd (output_sum_gain_sq (output c))
                     (fmul start_gain (output_gain (output c)))) c in
    (c, Sent out N mute, true).

(** Lines 65-142: [downconvert] has filled the buffer and the power
    estimates; then the PLL and the frequency shift. *)
Definition front_stages (lock_limit : Z) (c : channel) (blk : block)
    : channel * list complexf :=
  let c := set_sig_power (blk_bb_power blk) (blk_n0 blk) c in
  let buffer := blk_buffer blk in
  let '(c, buffer) := pll_stage lock_limit c buffer in
  shift_stage c buffer.

(** One turn of [while(downconvert(chan) == 0){ ... }], lines 65-246.
    The boolean tells whether the loop goes on ([false]: [break]). *)
Definition demod_block (lock_limit : Z) (c : channel) (blk : block)
    : outcome (channel * sent * bool) :=
  let N := Z.of_nat (length (blk_buffer blk)) in
  let '(c, buffer) := front_stages lock_limit c blk in
  match agc_stage N c with
  | Aborted => Aborted
  | Done (c, gain_change) =>
      Done (output_stage c buffer gain_change (blk_send blk))
  end.

(** The loop over the blocks the filter delivers; it ends when the
    upstream is exhausted, when the transport fails, or on an assertion. *)
Fixpoint demod_loop (lock_limit : Z) (c : channel) (input : list block)
    : outcome (channel * list sent) :=
  match input with
  | [] => Done (c, [])
  | blk :: rest =>
      match demod_block lock_limit c blk with
      | Aborted => Aborted
      | Done (c', s, false) => Done (c', [s])
      | Done (c', s, true) =>
          match demod_loop lock_limit c' rest with
          | Aborted => Aborted
          | Done (c'', ss) => Done (c'', s :: ss)
          end
      end
  end.

(** [demod_linear] from the point where [lock_limit] is computed (line
    60); the thread and filter set-up before it is not modelled. *)
Definition demod_linear (c : channel) (input : list block)
    : outcome (channel * list sent) :=
  demod_loop (lock_limit_of c) c input.

(** *** Vocabulary of the properties *)

(** The per-sample output power of a block (lines 188-232), for the
    [gain_change] the AGC chose: what is added to [output.energy] and
    tested by the mute condition. *)
Definition block_power (c : channel) (buffer : list complexf)
    (gain_change : cfloat) : cfloat :=
  let N := Z.of_nat (length buffer) in
  let '(_, _, output_power) := output_pass c buffer gain_change in
  per_sample_power c N output_power.

(** What no stage of the loop writes: the configuration. *)
Definition same_config (c c' : channel) : Prop :=
  output_samprate (output c') = output_samprate (output c)
  /\ output_headroom (output c') = output_headroom (output c)
  /\ output_channels (output c') = output_channels (output c)
  /\ filter c' = filter c
  /\ linear_env (linear c') = linear_env (linear c)
  /\ linear_agc (linear c') = linear_agc (linear c)
  /\ linear_pll (linear c') = linear_pll (linear c)
  /\ linear_square (linear c') = linear_square (linear c)
  /\ linear_loop_bw (linear c') = linear_loop_bw (linear c)
  /\ linear_hangtime (linear c') = linear_hangtime (linear c)
  /\ linear_threshold (linear c') = linear_threshold (linear c)
  /\ linear_recovery_rate (linear c') = linear_recovery_rate (linear c)
  /\ fm c' = fm c
  /\ tune c' = tune c.

(** What the stages before the AGC leave alone: the configuration, the
    output group and the hang counter. *)
Definition pll_frame (c c' : channel) : Prop :=
  same_config c c'
  /\ output c' = output c
  /\ hangcount c' = hangcount c.

(** The samples [output_pass] emits at a constant gain. *)
Definition constant_gain_pcm (c : channel) (buffer : list complexf) : pcm :=
  let gain := output_gain (output c) in
  if (output_channels (output c) =? 1)%Z then
    Mono (map (fun b => if linear_env (linear c) then fmt_mono_env b gain
                        else fmt_mono_i b gain) buffer)
  else
    Stereo (map (fun b => if linear_env (linear c) then fmt_stereo_env b gain
                          else fmt_stereo_iq b gain) buffer).

(** The channel as the lock detector finds it: cold start done, loop
    coefficients set, the samples de-rotated, the SNR stored. *)
Definition at_lock_detector (c : channel) (buffer : list complexf) : channel :=
  let c := pll_cold_start c in
  let c := set_pll_pll (set_pll_params (pll_pll (chan_pll c))
                          (linear_loop_bw (linear c)) DEFAULT_PLL_DAMPING) c in
  let '(_, p, signal, noise) :=
    pll_samples (linear_square (linear c)) (pll_pll (chan_pll c)) buffer
                fzero fzero in
  set_sig_snr (snr_estimate signal noise) (set_pll_pll p c).

(** The in-phase and quadrature energies the PLL pass accumulates. *)
Definition pll_energies (c : channel) (buffer : list complexf) : cfloat * cfloat :=
  let c := pll_cold_start c in
  let '(_, _, signal, noise) :=
    pll_samples (linear_square (linear c))
                (set_pll_params (pll_pll (chan_pll c))
                   (linear_loop_bw (linear c)) DEFAULT_PLL_DAMPING)
                buffer fzero fzero in
  (signal, noise).

(** The four rules of section 4.4, in the order they are tried. *)
Inductive agc_branch : Type :=
| StrongSignal
| NoiseAboveThreshold
| Hanging
| Recovering.

Definition agc_branch_of (c : channel) : agc_branch :=
  if strong_signal c then StrongSignal
  else if noise_above_threshold c then NoiseAboveThreshold
  else if (0 <? hangcount c)%Z then Hanging
  else Recovering.

(** What each rule prescribes: the per-sample factor and the hang counter. *)
Definition agc_gain_change (N : Z) (c : channel) : cfloat :=
  match agc_branch_of c with
  | StrongSignal => ramp_to (strong_target c) N c
  | NoiseAboveThreshold => ramp_to (noise_target c) N c
  | Hanging => fone
  | Recovering => powf (linear_recovery_rate (linear c)) (fdiv fone (of_int N))
  end.

Definition agc_hangcount (c : channel) : Z :=
  match agc_branch_of c with
  | StrongSignal => float_to_int (linear_hangtime (linear c))
  | NoiseAboveThreshold => hangcount c
  | Hanging => (hangcount c - 1)%Z
  | Recovering => hangcount c
  end.

(** The channel a gain-reducing rule leaves: the strong-signal rule
    restarts the hang counter. *)
Definition after_reduction (c : channel) : channel :=
  if strong_signal c
  then set_hangcount (float_to_int (linear_hangtime (linear c))) c
  else c.

(** A block on which, at the gain and thresholds of [c], neither
    gain-reducing rule fires: the tests of lines 157 and 166 with the
    power estimates of the block. *)
Definition quiet_at (c : channel) (blk : block) : bool :=
  let c := set_sig_power (blk_bb_power blk) (blk_n0 blk) c in
  negb (strong_signal c) && negb (noise_above_threshold c).

(** The number of frames in a block of output: samples for mono,
    left/right pairs for stereo. *)
Definition pcm_frames (p : pcm) : nat :=
  match p with
  | Mono samples => length samples
  | Stereo samples => length samples
  end.



End Channel.

(** *** A concrete channel to run the model on *)

(** An oscillator that stands still: unit phasor, zero frequency. *)
Definition still_osc : Osc := {|
  osc := unit;
  pll := unit;
  set_osc := fun o _ _ => o;
  osc_freq := fun _ => fzero;
  step_osc := fun o => (Cplx fone fzero, o);
  set_pll_params := fun p _ _ => p;
  pll_phasor := fun _ => Cplx fone fzero;
  run_pll := fun p _ => p;
  pll_freq := fun _ => fzero;
  pll_clear_integrator := fun p => p;
  cargf := fun _ => fzero
|}.

(** 24 kHz mono, gain 4, headroom 1/2, threshold 1/4, hang time 55
    blocks, tuned to 7 MHz, squelch thresholds 5 and 6; [agc] and [pll]
    choose the two flags, [rate] is the recovery rate per block. *)
Definition test_channel_with (agc pll : bool) (rate : R) : @channel still_osc :=
  @Channel still_osc
    (Output 24000 (FFin 4) (FFin (1 / 2)) 1 fzero fzero)
    (Filter (FFin (-5000)) (FFin 5000))
    (LinearCfg false agc pll false (FFin 100) (FFin 55) (FFin (1 / 4)) (FFin rate)
               0 false 0 fzero)
    (@Pll still_osc tt false 0)
    (Sig fzero fzero fzero fzero)
    (Fm (FFin 6) (FFin 5))
    (Tune fzero (FFin 7000000))
    tt
    0.

Definition test_channel (agc pll : bool) : @channel still_osc :=
  test_channel_with agc pll 2.

(** One sample of unit amplitude: a block of baseband power 1 without
    noise, and a block the estimator reports as silent. *)
Definition test_block : block :=
  Block [Cplx fone fzero] fone fzero 0.
Definition quiet_block : block :=
  Block [Cplx fone fzero] fzero fzero 0.
(** A block for which [send_output] reports that there is no output
    stream. *)
Definition unsent_block : block :=
  Block [Cplx fone fzero] fone fzero (-1).

End Linear.

(** ** main.c: the parameters of a demodulator section, as [loadconfig] sets them *)

Module Config.
Import String.
Local Open Scope Z_scope.

(** Modelled from the spec: the conversions of misc.h from decibels ("units
    are normalized at configuration time (dB -> voltage ratio, seconds ->
    blocks)", section 6).  A voltage ratio is 10^(dB/20), a power ratio
    10^(dB/10). *)
Definition dB2voltage (x : cfloat) : cfloat := powf (FFin 10) (fdiv x (FFin 20)).
Definition dB2power (x : cfloat) : cfloat := powf (FFin 10) (fdiv x (FFin 10)).

(** [abs] of stdlib.h; [abs(INT_MIN)] is undefined in C, the model gives
    the two's-complement result. *)
Definition abs (x : Z) : Z := int32 (Z.abs x).

(** What [config2_getint], [config2_getfloat] and [config2_getboolean]
    return for the keys of one section (after the fall-back to the mode
    table and to the defaults). *)
Record settings : Type := Settings {
  key_samprate : Z;
  key_low : cfloat;
  key_high : cfloat;
  key_squelch_open : cfloat;
  key_squelch_close : cfloat;
  key_headroom : cfloat;
  key_channels : Z;
  key_stereo : bool;
  key_mono : bool;
  key_shift : cfloat;
  key_recovery_rate : cfloat;
  key_hang_time : cfloat;
  key_threshold : cfloat;
  key_gain : cfloat;
  key_envelope : bool;
  key_pll : bool;
  key_square : bool;
  key_pll_bw : cfloat;
  key_agc : bool
}.

(** The fields of [struct demod] assigned in lines 412-489 that the
    linear demodulator reads: [output_gain] is [demod->output.gain]. *)
Record demod : Type := Demod {
  output_samprate : Z;
  filter_min_IF : cfloat;
  filter_max_IF : cfloat;
  squelch_open : cfloat;
  squelch_close : cfloat;
  output_headroom : cfloat;
  output_channels : Z;
  tune_shift : cfloat;
  linear_recovery_rate : cfloat;
  linear_hangtime : cfloat;
  linear_threshold : cfloat;
  output_gain : cfloat;
  linear_env : bool;
  linear_pll : bool;
  linear_square : bool;
  linear_loop_bw : cfloat;
  linear_agc : bool
}.

(** Lines 412-489 of [loadconfig]: the parameters of one section.
    [None] is the [continue] that drops a section whose sample rate is
    zero.  [Blocktime] is the global block time in milliseconds. *)
Definition loadconfig_section (Blocktime : cfloat) (s : settings) : option demod :=
  let samprate := abs (key_samprate s) in
  if samprate =? 0 then None
  else
    let '(low, high) :=
      if fgt (key_low s) (key_high s)
      then (key_high s, key_low s)
      else (key_low s, key_high s) in
    let squelch_open := key_squelch_open s in
    let squelch_close :=
      if fgt (key_squelch_close s) squelch_open then squelch_open
      else key_squelch_close s in
    let headroom := dB2voltage (fneg (fabsf (key_headroom s))) in
    let channels := key_channels s in
    let channels := if key_stereo s then 2 else channels in
    let channels := if key_mono s then 1 else channels in
    let channels :=
      if negb (channels =? 1) && negb (channels =? 2) then 1 else channels in
    let recovery_rate :=
      dB2voltage (fmul (fmul (fabsf (key_recovery_rate s)) (FFin (1 / 1000)))
                       Blocktime) in
    let hangtime :=
      fdiv (fabsf (key_hang_time s)) (fmul (FFin (1 / 1000)) Blocktime) in
    let threshold := dB2voltage (fneg (fabsf (key_threshold s))) in
    let gain := dB2voltage (key_gain s) in
    let pll := if key_square s then true else key_pll s in
    Some (Demod samprate low high (dB2power squelch_open) (dB2power squelch_close)
                headroom channels (key_shift s) recovery_rate hangtime threshold
                gain (key_envelope s) pll (key_square s) (key_pll_bw s)
                (key_agc s)).

(** Lines 589-604: the SSRC generated "in decimal using frequency in
    Hz", from the characters of the frequency token; [ssrc] is the
    [uint32_t] field, 0 when the loop starts. *)
Definition isdigit (c : Ascii.ascii) : bool :=
  (48 <=? Z.of_N (Ascii.N_of_ascii c)) && (Z.of_N (Ascii.N_of_ascii c) <=? 57).

Fixpoint ssrc_of_token (tok : String.string) (ssrc : Z) : Z :=
  match tok with
  | String.EmptyString => ssrc
  | String.String c rest =>
      if isdigit c then
        let ssrc := Status.uint32 (ssrc * 10) in
        let ssrc := Status.uint32 (ssrc + (Z.of_N (Ascii.N_of_ascii c) - 48)) in
        ssrc_of_token rest ssrc
      else ssrc_of_token rest ssrc
  end.

(** Lines 675-676 of [rtcp_send]: the NTP timestamp of the sender
    report, from [ts.tv_sec] and [ts.tv_nsec].  [NTP_EPOCH] is the
    constant of the RTP header file; the [long long] arithmetic wraps
    around and [/] truncates toward zero. *)
Definition ntp_timestamp (NTP_EPOCH tv_sec tv_nsec : Z) : Z :=
  let now_time := Status.int64 (Z.shiftl (Status.int64 (tv_sec + NTP_EPOCH)) 32) in
  Status.int64
    (now_time + Z.quot (Status.int64 (Z.shiftl (Status.int64 tv_nsec) 32)) 1000000000).

(** *** Vocabulary of the properties *)

Definition finite (x : cfloat) : Prop := exists r : R, x = FFin r.

(** Every number in the section is a finite number (the configuration
    parser also accepts "inf" and "nan"). *)
Definition finite_settings (s : settings) : Prop :=
  finite (key_low s) /\ finite (key_high s)
  /\ finite (key_squelch_open s) /\ finite (key_squelch_close s)
  /\ finite (key_headroom s) /\ finite (key_recovery_rate s)
  /\ finite (key_hang_time s) /\ finite (key_threshold s)
  /\ finite (key_gain s).

(** The number the decimal digits of a token spell, the other
    characters skipped; [acc] is the value of the digits read so far. *)
Fixpoint decimal_of_digits (tok : String.string) (acc : Z) : Z :=
  match tok with
  | String.EmptyString => acc
  | String.String c rest =>
      if isdigit c
      then decimal_of_digits rest (acc * 10 + (Z.of_N (Ascii.N_of_ascii c) - 48))
      else decimal_of_digits rest acc
  end.

(** The built-in defaults of a section (lines 44-55 of main.c), as
    test data; the default block time is 20 ms. *)
Definition default_settings : settings :=
  Settings 24000 (FFin (-5000)) (FFin 5000) (FFin 8) (FFin 7) (FFin (-15))
           1 false false (FFin 0) (FFin 20) (FFin (11 / 10)) (FFin (-15))
           (FFin 80) false false false (FFin 100) true.

(** A frequency token: 147.435 MHz, written as the configuration files do. *)
Definition test_token : String.string := "147m435"%string.

End Config.


(** * Properties *)

(** ** Idealised floating point: comparisons and units *)

Module FloatFacts.
Local Open Scope R_scope.

(** Decide the real comparisons left in a goal or hypothesis. *)
Ltac rdec :=
  repeat match goal with
  | |- context [Rlt_dec ?a ?b] => destruct (Rlt_dec a b); try lra
  | |- context [Rle_dec ?a ?b] => destruct (Rle_dec a b); try lra
  | |- context [Req_dec_T ?a ?b] => destruct (Req_dec_T a b); try lra
  | H : context [Rlt_dec ?a ?b] |- _ => destruct (Rlt_dec a b); try lra
  | H : context [Rle_dec ?a ?b] |- _ => destruct (Rle_dec a b); try lra
  | H : context [Req_dec_T ?a ?b] |- _ => destruct (Req_dec_T a b); try lra
  end.

Ltac funfold :=
  unfold fgt, flt, feq, fne, fle, fcompare, fsub, fadd, fmul, fdiv, fneg,
    fabsf, sqrtf, Rneg, fzero, fone, ftwo in *.

Lemma flt_fin a b : flt (FFin a) (FFin b) = true <-> a < b.
Proof. funfold. split; intros H; rdec; try discriminate; reflexivity. Qed.

Lemma flt_fin_false a b : flt (FFin a) (FFin b) = false <-> b <= a.
Proof. funfold. split; intros H; rdec; try discriminate; reflexivity. Qed.

Lemma fgt_fin a b : fgt (FFin a) (FFin b) = true <-> b < a.
Proof. unfold fgt. apply flt_fin. Qed.

Lemma feq_fin a b : feq (FFin a) (FFin b) = true <-> a = b.
Proof. funfold. split; intros H; rdec; try discriminate; reflexivity. Qed.

Lemma feq_zero x : feq x fzero = true <-> x = FFin 0.
Proof.
  split.
  - destruct x as [| s | r]; try destruct s; try discriminate.
    intros H. apply feq_fin in H. now subst.
  - intros ->. now apply feq_fin.
Qed.

Lemma flt_nan_l y : flt FNaN y = false.
Proof. reflexivity. Qed.

Lemma flt_nan_r x : flt x FNaN = false.
Proof. destruct x; reflexivity. Qed.

Lemma flt_isnan x y : isnan x = true -> flt x y = false /\ flt y x = false.
Proof. destruct x; try discriminate. intros _. split; [apply flt_nan_l | apply flt_nan_r]. Qed.

Lemma fmul_one_r x : fmul x fone = x.
Proof.
  destruct x as [| s | r]; funfold; rdec; try reflexivity.
  - now rewrite xorb_false_r.
  - now rewrite Rmult_1_r.
Qed.

(** Something [> 0] is +infinity or a positive real. *)
Lemma fgt_zero x :
  fgt x fzero = true -> x = FInf false \/ exists r, x = FFin r /\ 0 < r.
Proof.
  destruct x as [| s | r]; try discriminate.
  - destruct s; try discriminate. now left.
  - intros H. apply fgt_fin in H. right. now exists r.
Qed.

(** [sqrtf] yields a NaN, +infinity, or a non-negative real. *)
Lemma sqrtf_cases x :
  sqrtf x = FNaN \/ sqrtf x = FInf false \/ exists a, sqrtf x = FFin a /\ 0 <= a.
Proof.
  destruct x as [| s | r]; cbn; auto.
  - destruct s; auto.
  - destruct (Rlt_dec r 0); auto. right; right. exists (sqrt r). split; auto. apply sqrt_pos.
Qed.

(** *** The N-th root ramp *)

Lemma Rpower_one_base y : Rpower 1 y = 1.
Proof. unfold Rpower. rewrite ln_1, Rmult_0_r. apply exp_0. Qed.

Lemma Rpower_pos x y : 0 < Rpower x y.
Proof. unfold Rpower. apply exp_pos. Qed.

Lemma reciprocal_of_count (n : nat) :
  (1 <= n)%nat -> fdiv fone (of_int (Z.of_nat n)) = FFin (/ INR n) /\ 0 < / INR n.
Proof.
  intros Hn. unfold fdiv, fone, of_int. rewrite <- INR_IZR_INZ.
  assert (Hpos : 0 < INR n) by (apply lt_0_INR; lia).
  destruct (Req_dec_T (INR n) 0); [lra|].
  split; [f_equal; field; lra | now apply Rinv_0_lt_compat].
Qed.

(** [powf] of a positive real to the power [1/N]. *)
Lemma powf_root (x : R) (n : nat) :
  0 < x -> (1 <= n)%nat ->
  powf (FFin x) (fdiv fone (of_int (Z.of_nat n))) = FFin (Rpower x (/ INR n)).
Proof.
  intros Hx Hn. destruct (reciprocal_of_count n Hn) as (-> & Hy).
  unfold powf.
  replace (feq (FFin (/ INR n)) fzero) with false
    by (symmetry; funfold; rdec; reflexivity).
  destruct (feq (FFin x) fone) eqn:E1.
  - apply feq_fin in E1. subst x. now rewrite Rpower_one_base.
  - destruct (Rlt_dec 0 x); [reflexivity | lra].
Qed.

(** [powf] of zero to the power [1/N] is zero. *)
Lemma powf_root_zero (n : nat) :
  (1 <= n)%nat -> powf (FFin 0) (fdiv fone (of_int (Z.of_nat n))) = FFin 0.
Proof.
  intros Hn. destruct (reciprocal_of_count n Hn) as (-> & Hy).
  unfold powf.
  replace (feq (FFin (/ INR n)) fzero) with false
    by (symmetry; funfold; rdec; reflexivity).
  replace (feq (FFin 0) fone) with false
    by (symmetry; funfold; rdec; reflexivity).
  rdec; reflexivity.
Qed.

(** Applying the N-th root of [t/g] N times to [g] lands on [t]. *)
Lemma ramp_lands (t g : R) (n : nat) :
  0 < t -> 0 < g -> (1 <= n)%nat ->
  g * Rpower (t / g) (/ INR n) ^ n = t.
Proof.
  intros Ht Hg Hn.
  assert (Hpos : 0 < INR n) by (apply lt_0_INR; lia).
  rewrite <- Rpower_pow by apply Rpower_pos.
  rewrite Rpower_mult, Rinv_l by lra.
  rewrite Rpower_1 by (apply Rdiv_lt_0_compat; assumption).
  field. lra.
Qed.

(** The gain-reducing branches: [amp] is an amplitude (a square root),
    [lim] the level it is held to.  When the branch is taken and its
    target is positive, either the gain is +infinity and the ramp factor
    is 0, or gain and target are positive reals and the factor is the
    N-th root of their ratio. *)
Lemma reducing_ramp (x lim gain : cfloat) (n : nat) :
  (1 <= n)%nat ->
  fgt (fmul (sqrtf x) gain) lim = true ->
  fgt (fdiv lim (sqrtf x)) fzero = true ->
  let gc := powf (fdiv (fdiv lim (sqrtf x)) gain)
                 (fdiv fone (of_int (Z.of_nat n))) in
  (gain = FInf false /\ gc = FFin 0)
  \/ (exists g t, gain = FFin g /\ 0 < g /\ fdiv lim (sqrtf x) = FFin t
                  /\ 0 < t /\ gc = FFin (Rpower (t / g) (/ INR n))).
Proof.
  intros Hn Hbr Htg gc. subst gc.
  destruct (sqrtf_cases x) as [E | [E | (a & E & Ha)]]; rewrite E in *.
  - unfold fgt in Hbr. cbn in Hbr. rewrite flt_nan_r in Hbr. discriminate.
  - exfalso. revert Htg.
    destruct lim as [| s | h]; try destruct s; funfold; rdec; discriminate.
  - destruct lim as [| s | h].
    + discriminate.
    + destruct s.
      * exfalso. revert Htg. funfold. rdec; discriminate.
      * exfalso. revert Hbr. unfold fgt, flt.
        destruct (fmul (FFin a) gain) as [| u | v]; try destruct u; discriminate.
    + destruct (Req_dec_T a 0) as [Ha0 | Ha0].
      * exfalso. subst a. revert Hbr Htg.
        destruct gain as [| u | g]; funfold; rdec; discriminate.
      * assert (Hapos : 0 < a) by lra.
        assert (Et : fdiv (FFin h) (FFin a) = FFin (h / a))
          by (funfold; rdec; reflexivity).
        rewrite Et in *. apply fgt_fin in Htg.
        assert (Hh : 0 < h).
        { destruct (Rlt_dec 0 h); [assumption|]. exfalso.
          assert (h / a <= 0); [|lra].
          unfold Rdiv. assert (0 < / a) by now apply Rinv_0_lt_compat. nra. }
        destruct gain as [| u | g].
        -- discriminate.
        -- left. destruct u.
           ++ exfalso. revert Hbr. funfold. rdec; discriminate.
           ++ split; [reflexivity|]. cbn [fdiv]. now apply powf_root_zero.
        -- right. exists g, (h / a).
           assert (Hg : 0 < g).
           { revert Hbr. funfold. rdec; try discriminate. intros _. nra. }
           repeat split; try assumption.
           replace (fdiv (FFin (h / a)) (FFin g)) with (FFin (h / a / g))
             by (funfold; rdec; reflexivity).
           apply powf_root; [|assumption].
           apply Rdiv_lt_0_compat; assumption.
Qed.

End FloatFacts.

(** ** The integer TLV codec *)

Module StatusFacts.
Import Status.
Local Open Scope Z_scope.

Lemma pow256_S n : pow256 (S n) = 256 * pow256 n.
Proof. unfold pow256. rewrite Nat2Z.inj_succ, Z.pow_succ_r by lia. reflexivity. Qed.

Lemma pow256_pos n : 0 < pow256 n.
Proof. unfold pow256. apply Z.pow_pos_nonneg; lia. Qed.

Lemma pow256_add a b : pow256 (a + b) = pow256 a * pow256 b.
Proof. unfold pow256. rewrite Nat2Z.inj_add, Z.pow_add_r by lia. reflexivity. Qed.

Lemma top_byte_land x :
  0 <= x < 2 ^ 64 ->
  Z.land x 0xff00000000000000 = Z.shiftl (Z.shiftr x 56) 56.
Proof.
  intros Hx.
  change 0xff00000000000000 with (Z.shiftl (Z.ones 8) 56).
  apply Z.bits_inj'. intros n Hn.
  rewrite Z.land_spec, !Z.shiftl_spec by lia.
  destruct (Z.ltb_spec n 56) as [Hlt | Hge].
  - rewrite (Z.testbit_neg_r _ (n - 56)) by lia.
    rewrite (Z.testbit_neg_r _ (n - 56)) by lia.
    apply andb_false_r.
  - rewrite Z.shiftr_spec by lia.
    replace (n - 56 + 56) with n by lia.
    rewrite Z.testbit_ones by lia.
    destruct (Z.ltb_spec (n - 56) 8) as [Hlo | Hhi].
    + replace (0 <=? n - 56) with true by (symmetry; apply Z.leb_le; lia).
      apply andb_true_r.
    + rewrite andb_false_r, andb_false_r.
      symmetry. apply Z.bits_above_log2; [apply Hx|].
      destruct (Z.eq_dec x 0) as [->|Hnz]; [simpl; lia|].
      apply Z.log2_lt_pow2; [lia|].
      apply Z.lt_le_trans with (2 ^ 64); [apply Hx|].
      apply Z.pow_le_mono_r; lia.
Qed.

Lemma top_byte_zero x :
  0 <= x < 2 ^ 64 ->
  (Z.land x 0xff00000000000000 =? 0) = (x <? 2 ^ 56).
Proof.
  intros Hx. rewrite top_byte_land by assumption.
  rewrite Z.shiftl_mul_pow2, Z.shiftr_div_pow2 by lia.
  destruct (Z.ltb_spec x (2 ^ 56)) as [Hlt | Hge].
  - rewrite Z.div_small by lia. reflexivity.
  - apply Z.eqb_neq.
    assert (1 <= x / 2 ^ 56) by (apply Z.div_le_lower_bound; lia).
    lia.
Qed.

Lemma pow256_8 : pow256 8 = 2 ^ 64.
Proof. reflexivity. Qed.

Lemma uint64_small x : 0 <= x < 2 ^ 64 -> uint64 x = x.
Proof. intros H. unfold uint64. apply Z.mod_small. exact H. Qed.

Lemma uint8_small x : 0 <= x < 256 -> uint8 x = x.
Proof. intros H. unfold uint8. apply Z.mod_small. exact H. Qed.

Lemma load_range m p : 0 <= load m p < 256.
Proof. unfold load, uint8. apply Z.mod_pos_bound. reflexivity. Qed.

Lemma load_store_same m p v : load (store m p v) p = uint8 v.
Proof.
  unfold load, store. rewrite Z.eqb_refl.
  unfold uint8. apply Z.mod_mod. discriminate.
Qed.

Lemma store_other m p v a : a <> p -> store m p v a = m a.
Proof. intros H. unfold store. apply Z.eqb_neq in H. rewrite H. reflexivity. Qed.

(** Scaling by [pow256 k] keeps an [len]-byte value below 2^64. *)
Lemma scaled_range (len k : nat) y :
  (len + k = 8)%nat -> 0 <= y < pow256 len -> 0 <= y * pow256 k < 2 ^ 64.
Proof.
  intros Hk Hy. rewrite <- pow256_8, <- Hk, pow256_add.
  pose proof (pow256_pos k). split; [nia|].
  apply Z.mul_lt_mono_pos_r; lia.
Qed.

Lemma skip_leading_spec (len : nat) : forall (k : nat) y,
  (len + k = 8)%nat -> 0 <= y < pow256 len ->
  exists l' : nat,
    skip_leading len (y * pow256 k) = (l', y * pow256 (8 - l'))
    /\ (l' <= len)%nat /\ y < pow256 l'
    /\ (l' = O \/ pow256 (l' - 1) <= y).
Proof.
  induction len as [|l IH]; intros k y Hk Hy.
  - exists O. simpl in *. subst k. repeat split; lia.
  - pose proof (scaled_range (S l) k y Hk Hy) as Hx.
    cbn [skip_leading]. rewrite top_byte_zero by exact Hx.
    assert (H56 : 2 ^ 56 = pow256 l * pow256 k).
    { rewrite <- pow256_add. replace (l + k)%nat with 7%nat by lia. reflexivity. }
    pose proof (pow256_pos k) as Hpk.
    destruct (Z.ltb_spec (y * pow256 k) (2 ^ 56)) as [Hlt | Hge].
    + assert (Hyl : y < pow256 l).
      { rewrite H56 in Hlt. apply Z.mul_lt_mono_pos_r in Hlt; lia. }
      rewrite Z.shiftl_mul_pow2 by lia.
      replace (y * pow256 k * 2 ^ 8) with (y * pow256 (S k))
        by (rewrite pow256_S; change (2 ^ 8) with 256; ring).
      rewrite uint64_small
        by (apply (scaled_range l (S k)); lia).
      destruct (IH (S k) y ltac:(lia) ltac:(lia)) as (l' & E & Hle & Hl' & Hmin).
      exists l'. rewrite E. repeat split; try lia.
    + exists (S l). replace (8 - S l)%nat with k by lia.
      repeat split; try lia. right.
      replace (S l - 1)%nat with l by lia.
      rewrite H56 in Hge. apply Z.mul_le_mono_pos_r in Hge; lia.
Qed.

Lemma byte_of_scaled (l k : nat) y :
  (S l + k = 8)%nat -> 0 <= y < pow256 (S l) ->
  Z.shiftr (y * pow256 k) 56 = y / pow256 l
  /\ 0 <= y / pow256 l < 256
  /\ uint64 (Z.shiftl (y * pow256 k) 8) = (y mod pow256 l) * pow256 (S k).
Proof.
  intros Hk Hy.
  pose proof (pow256_pos k) as Hpk. pose proof (pow256_pos l) as Hpl.
  assert (H56 : 2 ^ 56 = pow256 l * pow256 k).
  { rewrite <- pow256_add. replace (l + k)%nat with 7%nat by lia. reflexivity. }
  assert (H64 : 2 ^ 64 = pow256 l * pow256 (S k)).
  { rewrite <- pow256_add. replace (l + S k)%nat with 8%nat by lia. reflexivity. }
  rewrite pow256_S in Hy.
  split; [|split].
  - rewrite Z.shiftr_div_pow2 by lia. rewrite H56.
    rewrite Z.div_mul_cancel_r by lia. reflexivity.
  - split; [apply Z.div_pos; lia|].
    apply Z.div_lt_upper_bound; lia.
  - rewrite Z.shiftl_mul_pow2 by lia. unfold uint64. rewrite H64.
    replace (y * pow256 k * 2 ^ 8) with (y * pow256 (S k))
      by (rewrite pow256_S; change (2 ^ 8) with 256; ring).
    pose proof (pow256_pos (S k)).
    rewrite Z.mul_mod_distr_r by lia. reflexivity.
Qed.

Lemma div_mod_trunc y Q R :
  0 < Q -> 0 < R -> ((y mod (Q * (256 * R))) / Q) mod 256 = (y / Q) mod 256.
Proof.
  intros HQ HR.
  rewrite Z.rem_mul_r by lia.
  rewrite (Z.mul_comm Q), Z.div_add by lia.
  rewrite (Z.div_small (y mod Q)) by (apply Z.mod_pos_bound; lia).
  rewrite Z.add_0_l, Z.rem_mul_r by lia.
  rewrite (Z.mul_comm 256), Z.mod_add by lia.
  apply Z.mod_mod. lia.
Qed.

Lemma put_bytes_spec (len : nat) : forall (k : nat) y m cp,
  (len + k = 8)%nat -> 0 <= y < pow256 len ->
  snd (put_bytes len (y * pow256 k) m cp) = cp + Z.of_nat len
  /\ (forall a, a < cp \/ cp + Z.of_nat len <= a ->
        fst (put_bytes len (y * pow256 k) m cp) a = m a)
  /\ be_value len (fst (put_bytes len (y * pow256 k) m cp)) cp = y
  /\ (forall i : nat, (i < len)%nat ->
        load (fst (put_bytes len (y * pow256 k) m cp)) (cp + Z.of_nat i)
        = (y / pow256 (len - 1 - i)) mod 256).
Proof.
  induction len as [|l IH]; intros k y m cp Hk Hy.
  - cbn. change (pow256 0) with 1 in Hy. repeat split; lia.
  - destruct (byte_of_scaled l k y Hk Hy) as (Hb & Hbr & Hnext).
    cbn [put_bytes]. rewrite Hb, Hnext.
    pose proof (pow256_pos l) as Hpl.
    assert (Hy' : 0 <= y mod pow256 l < pow256 l) by (apply Z.mod_pos_bound; lia).
    destruct (IH (S k) (y mod pow256 l) (store m cp (y / pow256 l)) (cp + 1)
                 ltac:(lia) Hy') as (Hcp & Hframe & Hval & Hbytes).
    set (m' := fst (put_bytes l (y mod pow256 l * pow256 (S k))
                      (store m cp (y / pow256 l)) (cp + 1))) in *.
    assert (Hfirst : load m' cp = y / pow256 l).
    { unfold load. rewrite Hframe by lia. fold (load (store m cp (y / pow256 l)) cp).
      rewrite load_store_same. apply uint8_small. exact Hbr. }
    split; [lia|]. split; [|split].
    + intros a Ha. rewrite Hframe by lia. apply store_other. lia.
    + cbn [be_value]. rewrite Hval, Hfirst.
      rewrite (Z.div_mod y (pow256 l)) at 3 by lia. ring.
    + intros i Hi. destruct i as [|i].
      * rewrite Z.add_0_r, Hfirst. replace (S l - 1 - 0)%nat with l by lia.
        symmetry. apply Z.mod_small. exact Hbr.
      * replace (cp + Z.of_nat (S i)) with (cp + 1 + Z.of_nat i) by lia.
        rewrite Hbytes by lia.
        replace (S l - 1 - S i)%nat with (l - 1 - i)%nat by lia.
        assert (Hsplit : pow256 l = pow256 (l - 1 - i) * (256 * pow256 i)).
        { rewrite <- pow256_S, <- pow256_add. f_equal. lia. }
        rewrite Hsplit. apply div_mod_trunc; apply pow256_pos.
Qed.

Lemma be_value_nonneg (len : nat) : forall m cp, 0 <= be_value len m cp.
Proof.
  induction len as [|l IH]; intros m cp; cbn [be_value]; [lia|].
  pose proof (load_range m cp). pose proof (pow256_pos l).
  specialize (IH m (cp + 1)). nia.
Qed.

Lemma lor_shift8 r b :
  0 <= r -> 0 <= b < 256 -> Z.lor (Z.shiftl r 8) b = r * 256 + b.
Proof.
  intros Hr Hb.
  assert (Hland : Z.land (Z.shiftl r 8) b = 0).
  2: { rewrite <- Z.lxor_lor, <- Z.add_nocarry_lxor by exact Hland.
       rewrite Z.shiftl_mul_pow2 by lia. reflexivity. }
  { apply Z.bits_inj'. intros n Hn.
    rewrite Z.land_spec, Z.bits_0.
    destruct (Z.ltb_spec n 8) as [Hlt | Hge].
    + rewrite Z.shiftl_spec_low by lia. reflexivity.
    + destruct (Z.eq_dec b 0) as [->|Hnz].
      * rewrite Z.bits_0. apply andb_false_r.
      * rewrite (Z.bits_above_log2 b n); [apply andb_false_r | lia |].
        apply Z.log2_lt_pow2; [lia|].
        apply Z.lt_le_trans with (2 ^ 8); [change (2 ^ 8) with 256; lia|].
        apply Z.pow_le_mono_r; lia. }
Qed.

Lemma decode_loop_spec (len : nat) : forall m cp r,
  0 <= r -> r * pow256 len + be_value len m cp < 2 ^ 64 ->
  decode_loop len m cp r = r * pow256 len + be_value len m cp.
Proof.
  induction len as [|l IH]; intros m cp r Hr Hlt.
  - cbn. change (pow256 0) with 1. lia.
  - cbn [decode_loop be_value] in *.
    pose proof (load_range m cp) as Hb. pose proof (pow256_pos l) as Hpl.
    pose proof (be_value_nonneg l m (cp + 1)) as Hv.
    rewrite pow256_S in *.
    assert (Hr8 : 0 <= r * 256 < 2 ^ 64) by nia.
    rewrite Z.shiftl_mul_pow2 by lia. change (2 ^ 8) with 256.
    rewrite uint64_small by exact Hr8.
    replace (r * 256) with (Z.shiftl r 8) by (rewrite Z.shiftl_mul_pow2; lia).
    rewrite lor_shift8 by assumption.
    rewrite IH; [ring | lia | nia].
Qed.

(** C9.  For a 64-bit unsigned [x], [encode_int64] writes the type byte,
    a length byte [len] between 0 and 8 ([len = 0] exactly when [x = 0],
    otherwise the least number of bytes that hold [x]), then the [len]
    bytes of [x] most significant first; it advances the pointer by
    [2 + len], returns [2 + len] and touches no other byte; [decode_int]
    over the [len] payload bytes gives [x] back. *)
Theorem encode_int64_roundtrip (m : memory) (bp type x : Z) :
  0 <= x < 2 ^ 64 ->
  let e := encode_int64 m bp type x in
  exists len : Z,
    0 <= len <= 8
    /\ (len = 0 <-> x = 0)
    /\ (x <> 0 -> 256 ^ (len - 1) <= x < 256 ^ len)
    /\ load (mem e) bp = uint8 type
    /\ load (mem e) (bp + 1) = len
    /\ (forall i, 0 <= i < len ->
          load (mem e) (bp + 2 + i) = (x / 256 ^ (len - 1 - i)) mod 256)
    /\ buf e = bp + 2 + len
    /\ ret e = 2 + len
    /\ decode_int (mem e) (bp + 2) len = x
    /\ (forall a, a < bp \/ bp + 2 + len <= a -> mem e a = m a).
Proof.
  intros Hx e. subst e. unfold encode_int64.
  destruct (Z.eqb_spec x 0) as [-> | Hnz].
  - exists 0. cbn [mem buf ret].
    repeat split; try lia.
    + unfold load. rewrite store_other by lia.
      fold (load (store m bp type) bp). apply load_store_same.
    + apply load_store_same.
    + intros a Ha. rewrite !store_other by lia. reflexivity.
  - destruct (skip_leading_spec 8 0 x eq_refl) as (l & E & Hle & Hlt & Hmin).
    { rewrite pow256_8. exact Hx. }
    change (pow256 0) with 1 in E. rewrite Z.mul_1_r in E. rewrite E.
    assert (Hl : (l <> 0)%nat).
    { intros ->. change (pow256 0) with 1 in Hlt. lia. }
    destruct Hmin as [? | Hmin]; [contradiction|].
    set (m1 := store (store m bp type) (bp + 1) (Z.of_nat l)).
    destruct (put_bytes_spec l (8 - l) x m1 (bp + 1 + 1) ltac:(lia) ltac:(lia))
      as (Hcp & Hframe & Hval & Hbytes).
    destruct (put_bytes l (x * pow256 (8 - l)) m1 (bp + 1 + 1)) as [m2 cp2] eqn:Ep.
    cbn [fst snd] in *. cbn [mem buf ret].
    exists (Z.of_nat l).
    assert (E1 : Z.of_nat l - 1 = Z.of_nat (l - 1)) by lia.
    repeat split; try lia.
    + rewrite E1. exact Hmin.
    + exact Hlt.
    + unfold load. rewrite Hframe by lia. unfold m1.
      rewrite store_other by lia.
      fold (load (store m bp type) bp). apply load_store_same.
    + unfold load. rewrite Hframe by lia. unfold m1.
      fold (load (store (store m bp type) (bp + 1) (Z.of_nat l)) (bp + 1)).
      rewrite load_store_same. apply uint8_small. lia.
    + intros i Hi.
      replace (bp + 2 + i) with (bp + 1 + 1 + Z.of_nat (Z.to_nat i)) by lia.
      rewrite Hbytes by lia. unfold pow256. do 3 f_equal. lia.
    + unfold decode_int. rewrite Nat2Z.id.
      replace (bp + 2) with (bp + 1 + 1) by lia.
      rewrite decode_loop_spec; rewrite ?Hval; lia.
    + intros a Ha. rewrite Hframe by lia. unfold m1.
      rewrite !store_other by lia. reflexivity.
Qed.

Lemma encode_int64_roundtrip_witness :
  exists len : Z,
    len = 2
    /\ load (mem (encode_int64 (fun _ => 0) 100 33 4660)) 101 = len
    /\ decode_int (mem (encode_int64 (fun _ => 0) 100 33 4660)) 102 len = 4660.
Proof.
  destruct (encode_int64_roundtrip (fun _ => 0) 100 33 4660 ltac:(lia))
    as (len & _ & _ & Hmin & _ & Hlen & _ & _ & _ & Hdec & _).
  exists len. split; [|split; [exact Hlen | exact Hdec]].
  rewrite <- Hlen. vm_compute. reflexivity.
Defined.

(** The bytes of three encodings, read back from memory. *)
Example encode_int64_4660 :
  let e := encode_int64 (fun _ => 0) 100 33 4660 in
  (ret e, buf e, map (load (mem e)) [100; 101; 102; 103; 104])
  = (4, 104, [33; 2; 18; 52; 0]).
Proof. vm_compute. reflexivity. Qed.

Example encode_int64_zero :
  let e := encode_int64 (fun _ => 7) 100 33 0 in
  (ret e, buf e, map (load (mem e)) [100; 101; 102])
  = (2, 102, [33; 0; 7]).
Proof. vm_compute. reflexivity. Qed.

Example encode_int64_max :
  let e := encode_int64 (fun _ => 0) 0 1 (2 ^ 64 - 1) in
  (ret e, buf e, load (mem e) 1, decode_int (mem e) 2 8)
  = (10, 10, 8, 2 ^ 64 - 1).
Proof. vm_compute. reflexivity. Qed.

(** C10.  Given a NaN, [encode_float] and [encode_double] return 0,
    write nothing and leave the pointer where it was.  The SNR the
    demodulator reports when the quadrature power is zero is such a
    value, so a status packet built with [encode_float] carries no SNR
    field for that block. *)
Theorem nan_is_not_encoded (float_bits double_bits : cfloat -> Z)
    (m : memory) (bp type : Z) (x : cfloat) :
  isnan x = true ->
  encode_float float_bits m bp type x = Encoded 0 m bp
  /\ encode_double double_bits m bp type x = Encoded 0 m bp
  /\ (forall signal noise,
        feq noise fzero = true ->
        encode_float float_bits m bp type (Linear.snr_estimate signal noise)
        = Encoded 0 m bp).
Proof.
  intros Hnan. unfold encode_float, encode_double. rewrite Hnan.
  split; [reflexivity|]. split; [reflexivity|].
  intros signal noise Hz. unfold Linear.snr_estimate, fne. rewrite Hz.
  reflexivity.
Qed.

Lemma nan_is_not_encoded_witness :
  encode_float (fun _ => 0) (fun _ => 7) 100 33 FNaN
  = Encoded 0 (fun _ => 7) 100.
Proof.
  exact (proj1 (nan_is_not_encoded (fun _ => 0) (fun _ => 0) (fun _ => 7)
                  100 33 FNaN eq_refl)).
Defined.

End StatusFacts.

(** ** The demodulator loop *)

Module LinearFacts.
Import Linear FloatFacts.

Section Generic.
Context {O : Osc}.

Lemma same_config_refl c : same_config c c.
Proof. unfold same_config. tauto. Qed.

Lemma same_config_trans c1 c2 c3 :
  same_config c1 c2 -> same_config c2 c3 -> same_config c1 c3.
Proof.
  unfold same_config. intros H12 H23.
  decompose [and] H12. decompose [and] H23.
  repeat split; congruence.
Qed.

Lemma pll_samples_length sq : forall buffer p s n,
  length (fst (fst (fst (pll_samples sq p buffer s n)))) = length buffer.
Proof.
  induction buffer as [|b rest IH]; intros p s n; cbn [pll_samples]; [reflexivity|].
  match goal with |- context [pll_samples sq ?p' rest ?s' ?n'] =>
    specialize (IH p' s' n'); destruct (pll_samples sq p' rest s' n') as [[[r q] sg] nz]
  end.
  cbn in *. now rewrite IH.
Qed.

Lemma shift_samples_length : forall buffer o,
  length (fst (shift_samples o buffer)) = length buffer.
Proof.
  induction buffer as [|b rest IH]; intros o; cbn [shift_samples]; [reflexivity|].
  destruct (step_osc o) as [ph o1].
  specialize (IH o1). destruct (shift_samples o1 rest) as [r o2].
  cbn in *. now rewrite IH.
Qed.

Lemma pll_frame_refl c : pll_frame c c.
Proof. unfold pll_frame. pose proof (same_config_refl c). tauto. Qed.

Lemma pll_frame_trans c1 c2 c3 :
  pll_frame c1 c2 -> pll_frame c2 c3 -> pll_frame c1 c3.
Proof.
  unfold pll_frame. intros (A1 & A2 & A3) (B1 & B2 & B3).
  split; [eapply same_config_trans; eassumption|].
  repeat split; congruence.
Qed.

Ltac frame_now := unfold pll_frame, same_config; cbn; tauto.

Lemma lock_detector_frame limit N c : pll_frame c (lock_detector limit N c).
Proof.
  unfold lock_detector.
  destruct (flt _ _); [destruct (_ <=? _)%Z | destruct (fgt _ _); [destruct (_ >=? _)%Z|]];
    frame_now.
Qed.

Lemma track_rotations_frame c : pll_frame c (track_rotations c).
Proof.
  unfold track_rotations.
  destruct (fgt _ _); [|destruct (flt _ _)]; frame_now.
Qed.

Lemma pll_cold_start_frame c : pll_frame c (pll_cold_start c).
Proof. unfold pll_cold_start. destruct (negb _); frame_now. Qed.

Lemma pll_stage_frame limit c buffer :
  pll_frame c (fst (pll_stage limit c buffer))
  /\ length (snd (pll_stage limit c buffer)) = length buffer.
Proof.
  unfold pll_stage.
  destruct (linear_pll (linear c)) eqn:Epll.
  2: { split; [frame_now | reflexivity]. }
  match goal with |- context [pll_samples ?sq ?p buffer ?s ?n] =>
    pose proof (pll_samples_length sq buffer p s n) as Hlen;
    destruct (pll_samples sq p buffer s n) as [[[buf' q] sg] nz]
  end.
  cbn [fst snd] in *. split; [|exact Hlen].
  eapply pll_frame_trans; [apply pll_cold_start_frame|].
  eapply pll_frame_trans; [|frame_now].
  eapply pll_frame_trans; [|apply track_rotations_frame].
  eapply pll_frame_trans; [|apply lock_detector_frame].
  frame_now.
Qed.

(** The shift stage writes the shift oscillator and the samples only. *)
Lemma shift_stage_frame c buffer :
  pll_frame c (fst (shift_stage c buffer))
  /\ linear (fst (shift_stage c buffer)) = linear c
  /\ length (snd (shift_stage c buffer)) = length buffer.
Proof.
  unfold shift_stage.
  destruct (fne _ _).
  - match goal with |- context [shift_samples ?o buffer] =>
      pose proof (shift_samples_length buffer o) as Hlen;
      destruct (shift_samples o buffer) as [buf' o']
    end.
    cbn [fst snd] in *. split; [frame_now | split; [reflexivity | exact Hlen]].
  - cbn [fst snd]. split; [frame_now | split; reflexivity].
Qed.

Lemma front_stages_frame limit c blk :
  same_config c (fst (front_stages limit c blk))
  /\ output (fst (front_stages limit c blk)) = output c
  /\ hangcount (fst (front_stages limit c blk)) = hangcount c
  /\ length (snd (front_stages limit c blk)) = length (blk_buffer blk).
Proof.
  unfold front_stages.
  match goal with |- context [pll_stage ?l ?x ?b] =>
    destruct (pll_stage_frame l x b) as (Hp & Hlp);
    destruct (pll_stage l x b) as [c1 buf1]
  end.
  cbn [fst snd] in *.
  destruct (shift_stage_frame c1 buf1) as (Hs & _ & Hls).
  assert (H0 : pll_frame c (set_sig_power (blk_bb_power blk) (blk_n0 blk) c))
    by frame_now.
  pose proof (pll_frame_trans _ _ _ (pll_frame_trans _ _ _ H0 Hp) Hs) as (H1 & H2 & H3).
  split; [exact H1 | split; [exact H2 | split; [exact H3 | congruence]]].
Qed.

(** The AGC writes the hang counter only. *)
Lemma agc_stage_frame N c c' gc :
  agc_stage N c = Done (c', gc) ->
  same_config c c' /\ output c' = output c.
Proof.
  unfold agc_stage, assert.
  repeat match goal with
  | |- context [if ?b then _ else _] => destruct b
  end; intros H; inversion H; subst; split;
    try reflexivity; try apply same_config_refl;
    unfold same_config; cbn; tauto.
Qed.

Lemma agc_stage_off N c :
  linear_agc (linear c) = false -> agc_stage N c = Done (c, fone).
Proof. intros H. unfold agc_stage. now rewrite H. Qed.

(** With a unit [gain_change] the final pass is a map at constant gain. *)
Lemma final_pass_unit {A : Type} (fmt : complexf -> cfloat -> A) pwr gain :
  forall buffer p0,
    final_pass fmt pwr buffer gain fone p0
    = (map (fun b => fmt b gain) buffer, gain,
       fold_left (fun p b => fadd p (pwr (fmt b gain))) buffer p0).
Proof.
  induction buffer as [|b rest IH]; intros p0; cbn [final_pass map fold_left];
    [reflexivity|].
  rewrite fmul_one_r, IH. reflexivity.
Qed.

Lemma output_pass_unit c buffer :
  fst (fst (output_pass c buffer fone)) = constant_gain_pcm c buffer
  /\ snd (fst (output_pass c buffer fone)) = output_gain (output c).
Proof.
  unfold output_pass, constant_gain_pcm.
  destruct (_ =? 1)%Z; destruct (linear_env _); rewrite final_pass_unit; cbn; auto.
Qed.

Lemma output_stage_frame c buffer gc send :
  same_config c (fst (fst (output_stage c buffer gc send)))
  /\ output_gain (output (fst (fst (output_stage c buffer gc send))))
     = snd (fst (output_pass c buffer gc))
  /\ sent_pcm (snd (fst (output_stage c buffer gc send)))
     = fst (fst (output_pass c buffer gc))
  /\ hangcount (fst (fst (output_stage c buffer gc send))) = hangcount c.
Proof.
  unfold output_stage.
  destruct (output_pass c buffer gc) as [[out g] p].
  destruct (send =? -1)%Z; cbn; unfold same_config; cbn; tauto.
Qed.

Lemma demod_block_agc_off limit c blk :
  linear_agc (linear c) = false ->
  exists c' s cont,
    demod_block limit c blk = Done (c', s, cont)
    /\ (c', s, cont) = output_stage (fst (front_stages limit c blk))
                         (snd (front_stages limit c blk)) fone (blk_send blk)
    /\ output_gain (output c') = output_gain (output c)
    /\ linear_agc (linear c') = false
    /\ sent_pcm s = constant_gain_pcm (fst (front_stages limit c blk))
                      (snd (front_stages limit c blk)).
Proof.
  intros Hoff. unfold demod_block.
  destruct (front_stages_frame limit c blk) as (Hcfg & Hout & _ & _).
  destruct (front_stages limit c blk) as [c1 buf1]. cbn [fst snd] in *.
  assert (Hoff1 : linear_agc (linear c1) = false).
  { unfold same_config in Hcfg. decompose [and] Hcfg. congruence. }
  rewrite (agc_stage_off _ _ Hoff1).
  destruct (output_stage_frame c1 buf1 fone (blk_send blk)) as (Hcfg2 & Hg & Hp & _).
  destruct (output_pass_unit c1 buf1) as (Hpcm & Hgain).
  destruct (output_stage c1 buf1 fone (blk_send blk)) as [[c' s] cont].
  cbn [fst snd] in *.
  exists c', s, cont. repeat split.
  - rewrite Hg, Hgain, Hout. reflexivity.
  - unfold same_config in Hcfg2. decompose [and] Hcfg2. congruence.
  - rewrite Hp. exact Hpcm.
Qed.

(** C8.  With the AGC flag off, [gain_change] is 1 in every block: the
    block goes through the same output stage with a unit ramp, its
    samples are the input formatted at the (constant) gain, and over any
    sequence of blocks the loop never aborts and leaves the gain field
    exactly as it found it. *)
Theorem agc_off_gain_constant limit c :
  linear_agc (linear c) = false ->
  (forall blk,
      exists c' s cont,
        demod_block limit c blk = Done (c', s, cont)
        /\ (c', s, cont) = output_stage (fst (front_stages limit c blk))
                             (snd (front_stages limit c blk)) fone (blk_send blk)
        /\ output_gain (output c') = output_gain (output c)
        /\ sent_pcm s = constant_gain_pcm (fst (front_stages limit c blk))
                          (snd (front_stages limit c blk)))
  /\ (forall input,
        exists c' outs,
          demod_loop limit c input = Done (c', outs)
          /\ output_gain (output c') = output_gain (output c)).
Proof.
  intros Hoff. split.
  - intros blk.
    destruct (demod_block_agc_off limit c blk Hoff) as (c' & s & cont & H1 & H2 & H3 & _ & H5).
    exists c', s, cont. auto.
  - intros input. revert c Hoff.
    induction input as [|blk rest IH]; intros c Hoff; cbn [demod_loop].
    + exists c, []. auto.
    + destruct (demod_block_agc_off limit c blk Hoff)
        as (c1 & s & cont & H1 & _ & H3 & H4 & _).
      rewrite H1. destruct cont.
      * destruct (IH c1 H4) as (c2 & outs & E & Hg). rewrite E.
        exists c2, (s :: outs). split; [reflexivity | congruence].
      * exists c1, [s]. auto.
Qed.

(** *** The PLL stage, field by field *)

Lemma track_rotations_keeps c :
  sig (track_rotations c) = sig c
  /\ chan_pll (track_rotations c) = chan_pll c
  /\ linear_pll_lock (linear (track_rotations c)) = linear_pll_lock (linear c)
  /\ linear_lock_timer (linear (track_rotations c)) = linear_lock_timer (linear c).
Proof.
  unfold track_rotations.
  destruct (fgt _ _); [|destruct (flt _ _)]; cbn; tauto.
Qed.

Lemma lock_detector_keeps limit N c :
  sig (lock_detector limit N c) = sig c
  /\ fm (lock_detector limit N c) = fm c
  /\ pll_pll (chan_pll (lock_detector limit N c)) = pll_pll (chan_pll c)
  /\ pll_was_on (chan_pll (lock_detector limit N c)) = pll_was_on (chan_pll c)
  /\ linear_rotations (linear (lock_detector limit N c)) = linear_rotations (linear c)
  /\ linear_cphase (linear (lock_detector limit N c)) = linear_cphase (linear c).
Proof.
  unfold lock_detector.
  destruct (flt _ _); [destruct (_ <=? _)%Z | destruct (fgt _ _); [destruct (_ >=? _)%Z|]];
    cbn; tauto.
Qed.

Lemma pll_stage_on limit c buffer :
  linear_pll (linear c) = true ->
  fst (pll_stage limit c buffer)
  = let c1 := track_rotations
                (lock_detector limit (Z.of_nat (length buffer))
                               (at_lock_detector c buffer)) in
    set_sig_foffset (pll_freq (pll_pll (chan_pll c1))) c1.
Proof.
  intros Hon. unfold pll_stage, at_lock_detector. rewrite Hon.
  cbv zeta.
  match goal with |- context [pll_samples ?sq ?p buffer ?s ?n] =>
    destruct (pll_samples sq p buffer s n) as [[[buf' q] sg] nz]
  end.
  reflexivity.
Qed.

Lemma at_lock_detector_fields c buffer :
  sig_snr (sig (at_lock_detector c buffer))
    = snr_estimate (fst (pll_energies c buffer)) (snd (pll_energies c buffer))
  /\ pll_lock_count (chan_pll (at_lock_detector c buffer)) = pll_lock_count (chan_pll c)
  /\ linear_pll_lock (linear (at_lock_detector c buffer)) = linear_pll_lock (linear c)
  /\ fm (at_lock_detector c buffer) = fm c
  /\ linear_cphase (linear (at_lock_detector c buffer)) = linear_cphase (linear c)
  /\ linear_rotations (linear (at_lock_detector c buffer))
     = (if pll_was_on (chan_pll c) then linear_rotations (linear c) else 0%Z).
Proof.
  unfold at_lock_detector, pll_energies. cbv zeta.
  assert (Hsq : linear_square (linear (pll_cold_start c)) = linear_square (linear c)).
  { unfold pll_cold_start. destruct (negb _); reflexivity. }
  cbn [set_pll_pll set_chan_pll linear chan_pll pll_pll].
  match goal with |- context [pll_samples ?sq ?p buffer ?s ?n] =>
    destruct (pll_samples sq p buffer s n) as [[[buf' q] sg] nz]
  end.
  cbn. unfold pll_cold_start.
  destruct (pll_was_on (chan_pll c)); cbn; tauto.
Qed.

Lemma snr_estimate_real s n :
  n <> 0%R -> snr_estimate (FFin s) (FFin n) = FFin (Rmax 0 (s / n - 1)).
Proof.
  intros Hn. unfold snr_estimate.
  assert (E : fne (FFin n) fzero = true).
  { unfold fne. destruct (feq (FFin n) fzero) eqn:F; [|reflexivity].
    apply feq_fin in F. contradiction. }
  rewrite E. cbv zeta.
  assert (D : fsub (fdiv (FFin s) (FFin n)) fone = FFin (s / n - 1)).
  { funfold. destruct (Req_dec_T n 0); [contradiction|]. reflexivity. }
  rewrite D.
  destruct (flt (FFin (s / n - 1)) fzero) eqn:L.
  - apply flt_fin in L. unfold fzero. f_equal. symmetry. apply Rmax_left. lra.
  - apply flt_fin_false in L. f_equal. symmetry. apply Rmax_right. lra.
Qed.

Lemma lock_detector_dead_zone limit N c :
  flt (sig_snr (sig c)) (fm_squelch_close (fm c)) = false ->
  fgt (sig_snr (sig c)) (fm_squelch_open (fm c)) = false ->
  pll_lock_count (chan_pll (lock_detector limit N c)) = pll_lock_count (chan_pll c)
  /\ linear_pll_lock (linear (lock_detector limit N c)) = linear_pll_lock (linear c).
Proof. intros H1 H2. unfold lock_detector. rewrite H1, H2. cbn. tauto. Qed.

(** C5.  After a PLL-enabled block the SNR telemetry is
    signal/noise - 1 clamped below at 0 when the accumulated quadrature
    power is not zero, and NaN when it is exactly zero; in that case the
    lock detector's comparisons are both false, so the block goes on
    with the lock counter and the lock boolean as they were. *)
Theorem snr_telemetry limit c buffer :
  linear_pll (linear c) = true ->
  let signal := fst (pll_energies c buffer) in
  let noise := snd (pll_energies c buffer) in
  let c' := fst (pll_stage limit c buffer) in
  (fne noise fzero = true ->
     sig_snr (sig c')
     = (if flt (fsub (fdiv signal noise) fone) fzero then fzero
        else fsub (fdiv signal noise) fone))
  /\ (forall s n, signal = FFin s -> noise = FFin n -> n <> 0%R ->
        sig_snr (sig c') = FFin (Rmax 0 (s / n - 1)))
  /\ (feq noise fzero = true ->
        sig_snr (sig c') = FNaN
        /\ pll_lock_count (chan_pll c') = pll_lock_count (chan_pll c)
        /\ linear_pll_lock (linear c') = linear_pll_lock (linear c)).
Proof.
  intros Hon signal noise c'. subst c'.
  rewrite (pll_stage_on _ _ _ Hon). cbv zeta.
  destruct (at_lock_detector_fields c buffer) as (Hsnr & Hcnt & Hlock & _).
  fold signal noise in Hsnr.
  set (c0 := at_lock_detector c buffer) in *.
  destruct (lock_detector_keeps limit (Z.of_nat (length buffer)) c0) as (Ls & _).
  set (c1 := lock_detector limit (Z.of_nat (length buffer)) c0) in *.
  destruct (track_rotations_keeps c1) as (Ts & Tp & Tl & _).
  cbn [sig set_sig_foffset set_sig sig_snr chan_pll linear].
  rewrite Ts, Tp, Tl, Ls, Hsnr.
  split; [|split].
  - intros Hne. unfold snr_estimate. rewrite Hne. reflexivity.
  - intros s n -> -> Hn. now apply snr_estimate_real.
  - intros Hz.
    assert (E : snr_estimate signal noise = FNaN).
    { unfold snr_estimate, fne. rewrite Hz. reflexivity. }
    split; [exact E|].
    rewrite <- Hcnt, <- Hlock. subst c1.
    apply lock_detector_dead_zone; rewrite Hsnr, E;
      [reflexivity | unfold fgt; apply flt_nan_r].
Qed.

Lemma int32_id z : (INT_MIN <= z <= INT_MAX)%Z -> int32 z = z.
Proof.
  unfold int32, INT_MIN, INT_MAX. intros H.
  rewrite Z.mod_small by lia. lia.
Qed.

Lemma fle_trans_gt snr close open :
  fle close open = true -> fgt snr open = true -> flt snr close = false.
Proof.
  unfold fgt.
  destruct snr as [| s | r], close as [| t | a], open as [| u | b];
    try destruct s; try destruct t; try destruct u;
    try reflexivity; try discriminate;
    funfold; intros H1 H2; rdec; try discriminate; reflexivity.
Qed.

Local Open Scope Z_scope.

Lemma lock_detector_spec limit N c :
  INT_MIN < limit <= INT_MAX ->
  INT_MIN <= pll_lock_count (chan_pll c) - N ->
  pll_lock_count (chan_pll c) + N <= INT_MAX ->
  0 <= N ->
  let snr := sig_snr (sig c) in
  let cnt := pll_lock_count (chan_pll c) in
  let c' := lock_detector limit N c in
  let cnt' := pll_lock_count (chan_pll c') in
  (flt snr (fm_squelch_close (fm c)) = true -> cnt' = Z.max (cnt - N) (- limit))
  /\ (flt snr (fm_squelch_close (fm c)) = false ->
      fgt snr (fm_squelch_open (fm c)) = true -> cnt' = Z.min (cnt + N) limit)
  /\ (flt snr (fm_squelch_close (fm c)) = false ->
      fgt snr (fm_squelch_open (fm c)) = false -> cnt' = cnt)
  /\ (linear_pll_lock (linear c') <> linear_pll_lock (linear c) ->
        (linear_pll_lock (linear c') = false /\ cnt' = - limit
         /\ flt snr (fm_squelch_close (fm c)) = true)
        \/ (linear_pll_lock (linear c') = true /\ cnt' = limit
            /\ fgt snr (fm_squelch_open (fm c)) = true))
  /\ linear_lock_timer (linear c') = cnt'.
Proof.
  intros Hlim Hlo Hhi HN snr cnt c' cnt'.
  subst snr cnt c' cnt'. unfold lock_detector.
  assert (E1 : int32 (- limit) = - limit)
    by (apply int32_id; unfold INT_MIN, INT_MAX in *; lia).
  assert (E2 : int32 (pll_lock_count (chan_pll c) - N) = pll_lock_count (chan_pll c) - N)
    by (apply int32_id; unfold INT_MIN, INT_MAX in *; lia).
  assert (E3 : int32 (pll_lock_count (chan_pll c) + N) = pll_lock_count (chan_pll c) + N)
    by (apply int32_id; unfold INT_MIN, INT_MAX in *; lia).
  rewrite E1, E2, E3.
  destruct (flt (sig_snr (sig c)) (fm_squelch_close (fm c))) eqn:Hc.
  - cbn [set_pll_lock_count set_chan_pll chan_pll pll_lock_count].
    destruct (Z.leb_spec (pll_lock_count (chan_pll c) - N) (- limit)); cbn;
      repeat split; intros; try discriminate; try lia; try congruence.
  - destruct (fgt (sig_snr (sig c)) (fm_squelch_open (fm c))) eqn:Ho.
    + cbn [set_pll_lock_count set_chan_pll chan_pll pll_lock_count].
      destruct (Z.geb_spec (pll_lock_count (chan_pll c) + N) limit); cbn;
        repeat split; intros; try discriminate; try lia; try congruence.
    + cbn. repeat split; intros; try discriminate; try lia; try congruence.
Qed.

(** C3.  In a PLL-enabled block of [N] samples the lock counter goes
    down by [N] and is clamped at [-limit] when the SNR is below the
    close threshold; it goes up by [N] and is clamped at [+limit] when
    the SNR is above the open threshold (and not below the close
    threshold, the first test; with the thresholds ordered as main.c
    leaves them, close <= open, that is implied); it stays when the SNR
    is between the thresholds or is a NaN.  The lock boolean changes
    only as the counter reaches [-limit] (to false) or [+limit] (to
    true); the counter is copied to the lock timer.  [limit] is what
    [demod_linear] passes, [lock_limit_of]: lock time * sample rate.
    The [int] arithmetic is assumed not to overflow. *)
Theorem lock_hysteresis limit c buffer :
  linear_pll (linear c) = true ->
  INT_MIN < limit <= INT_MAX ->
  INT_MIN <= pll_lock_count (chan_pll c) - Z.of_nat (length buffer) ->
  pll_lock_count (chan_pll c) + Z.of_nat (length buffer) <= INT_MAX ->
  let N := Z.of_nat (length buffer) in
  let c' := fst (pll_stage limit c buffer) in
  let snr := sig_snr (sig c') in
  let close := fm_squelch_close (fm c) in
  let open := fm_squelch_open (fm c) in
  let cnt := pll_lock_count (chan_pll c) in
  let cnt' := pll_lock_count (chan_pll c') in
  (flt snr close = true -> cnt' = Z.max (cnt - N) (- limit))
  /\ (fgt snr open = true -> flt snr close = false ->
      cnt' = Z.min (cnt + N) limit)
  /\ (fle close open = true -> fgt snr open = true ->
      cnt' = Z.min (cnt + N) limit)
  /\ (flt snr close = false -> fgt snr open = false -> cnt' = cnt)
  /\ (isnan snr = true -> cnt' = cnt)
  /\ (linear_pll_lock (linear c') <> linear_pll_lock (linear c) ->
        (linear_pll_lock (linear c') = false /\ cnt' = - limit)
        \/ (linear_pll_lock (linear c') = true /\ cnt' = limit))
  /\ (0 <= limit -> - limit <= cnt <= limit -> - limit <= cnt' <= limit)
  /\ linear_lock_timer (linear c') = cnt'
  /\ lock_limit_of c
     = float_to_int (fmul DEFAULT_PLL_LOCKTIME
                          (of_int (output_samprate (output c)))).
Proof.
  intros Hon Hlim Hlo Hhi N c' snr close open cnt cnt'.
  subst c' snr close open cnt cnt'.
  rewrite (pll_stage_on _ _ _ Hon). cbv zeta.
  destruct (at_lock_detector_fields c buffer) as (_ & Hcnt & Hlock & Hfm & _).
  set (c0 := at_lock_detector c buffer) in *.
  rewrite <- Hcnt, <- Hlock, <- Hfm in *.
  destruct (lock_detector_spec limit N c0 Hlim Hlo Hhi ltac:(subst N; lia))
    as (S1 & S2 & S3 & S4 & S5).
  destruct (lock_detector_keeps limit N c0) as (Ls & _).
  fold N.
  set (c1 := lock_detector limit N c0) in *.
  destruct (track_rotations_keeps c1) as (Ts & Tp & Tl & Tt).
  cbn [sig set_sig_foffset set_sig sig_snr chan_pll linear].
  rewrite Ts, Tp, Tl, Tt, Ls.
  set (snr := sig_snr (sig c0)) in *.
  assert (Hnan : isnan snr = true ->
                 flt snr (fm_squelch_close (fm c0)) = false
                 /\ fgt snr (fm_squelch_open (fm c0)) = false).
  { intros Hn. unfold fgt. destruct (flt_isnan snr (fm_squelch_close (fm c0)) Hn).
    destruct (flt_isnan snr (fm_squelch_open (fm c0)) Hn). auto. }
  split; [exact S1|].
  split; [intros Ho Hc; now apply S2|].
  split; [intros Hord Ho; apply S2; [eapply fle_trans_gt; eassumption | exact Ho]|].
  split; [exact S3|].
  split; [intros Hn; destruct (Hnan Hn); now apply S3|].
  split; [intros Hch; destruct (S4 Hch) as [(A & B & _) | (A & B & _)]; auto|].
  split; [|split; [exact S5 | reflexivity]].
  intros Hl0 Hin.
  destruct (flt snr (fm_squelch_close (fm c0))) eqn:Fc;
    [rewrite S1 by reflexivity; lia|].
  destruct (fgt snr (fm_squelch_open (fm c0))) eqn:Fo;
    [rewrite S2 by reflexivity; lia | rewrite S3 by reflexivity; lia].
Qed.

Local Close Scope Z_scope.

Lemma below_minus_pi_not_above d :
  flt d (fneg M_PI) = true -> fgt d M_PI = false.
Proof.
  pose proof PI_RGT_0 as Hpi.
  unfold fgt, M_PI. destruct d as [| s | r]; try destruct s; try discriminate;
    try reflexivity.
  cbn [fneg]. intros H. apply flt_fin in H. apply flt_fin_false. lra.
Qed.

Local Open Scope Z_scope.

Lemma track_rotations_spec c :
  INT_MIN < linear_rotations (linear c) < INT_MAX ->
  let phase := cargf (pll_phasor (pll_pll (chan_pll c))) in
  let phase_diff := fsub phase (linear_cphase (linear c)) in
  let rot := linear_rotations (linear c) in
  let rot' := linear_rotations (linear (track_rotations c)) in
  (fgt phase_diff M_PI = true -> rot' = rot - 1)
  /\ (flt phase_diff (fneg M_PI) = true -> rot' = rot + 1)
  /\ (fgt phase_diff M_PI = false -> flt phase_diff (fneg M_PI) = false ->
      rot' = rot)
  /\ linear_cphase (linear (track_rotations c)) = phase.
Proof.
  intros Hr phase phase_diff rot rot'. subst rot rot'.
  unfold track_rotations. fold phase. fold phase_diff.
  assert (E1 : int32 (linear_rotations (linear c) - 1) = linear_rotations (linear c) - 1)
    by (apply int32_id; unfold INT_MIN, INT_MAX in *; lia).
  assert (E2 : int32 (linear_rotations (linear c) + 1) = linear_rotations (linear c) + 1)
    by (apply int32_id; unfold INT_MIN, INT_MAX in *; lia).
  cbn [set_linear_cphase set_linear linear linear_rotations].
  rewrite E1, E2.
  destruct (fgt phase_diff M_PI) eqn:Hup.
  - cbn. repeat split; try congruence.
    intros Hdn. apply below_minus_pi_not_above in Hdn. congruence.
  - destruct (flt phase_diff (fneg M_PI)) eqn:Hdn; cbn; repeat split; congruence.
Qed.

(** C6.  In a PLL-enabled block the rotation counter moves by -1 when
    the oscillator phase at the end of the block, less the phase
    recorded at the previous block, exceeds pi, by +1 when that
    difference is below -pi, and not at all otherwise; the step is
    counted from 0 when the PLL was off in the previous block (cold
    start) and from the previous count otherwise, and never exceeds one.
    A block with the PLL disabled leaves the counter alone and marks the
    PLL as off, so that the next enabled block is a cold start. *)
Theorem rotation_step limit c buffer :
  let c' := fst (pll_stage limit c buffer) in
  let base :=
    if pll_was_on (chan_pll c) then linear_rotations (linear c) else 0 in
  let phase := cargf (pll_phasor (pll_pll (chan_pll c'))) in
  let phase_diff := fsub phase (linear_cphase (linear c)) in
  let rot' := linear_rotations (linear c') in
  INT_MIN < base < INT_MAX ->
  (linear_pll (linear c) = true ->
     (fgt phase_diff M_PI = true -> rot' = base - 1)
     /\ (flt phase_diff (fneg M_PI) = true -> rot' = base + 1)
     /\ (fgt phase_diff M_PI = false -> flt phase_diff (fneg M_PI) = false ->
         rot' = base)
     /\ -1 <= rot' - base <= 1
     /\ (pll_was_on (chan_pll c) = false -> -1 <= rot' <= 1)
     /\ linear_cphase (linear c') = phase
     /\ pll_was_on (chan_pll c') = true)
  /\ (linear_pll (linear c) = false ->
        rot' = linear_rotations (linear c)
        /\ pll_was_on (chan_pll c') = false).
Proof.
  intros c' base phase phase_diff rot' Hbase. split.
  - intros Hon. subst c' phase phase_diff rot'.
    rewrite (pll_stage_on _ _ _ Hon). cbv zeta.
    destruct (at_lock_detector_fields c buffer) as (_ & _ & _ & _ & Hph & Hrot).
    fold base in Hrot.
    assert (Hwas : pll_was_on (chan_pll (at_lock_detector c buffer)) = true).
    { unfold at_lock_detector. cbv zeta.
      match goal with |- context [pll_samples ?sq ?p buffer ?s ?n] =>
        destruct (pll_samples sq p buffer s n) as [[[buf' q] sg] nz] end.
      cbn. unfold pll_cold_start. destruct (pll_was_on (chan_pll c)) eqn:W; cbn; auto. }
    set (c0 := at_lock_detector c buffer) in *.
    destruct (lock_detector_keeps limit (Z.of_nat (length buffer)) c0)
      as (_ & _ & Lp & Lw & Lr & Lc).
    set (c1 := lock_detector limit (Z.of_nat (length buffer)) c0) in *.
    destruct (track_rotations_keeps c1) as (_ & Tp & _).
    cbn [set_sig_foffset set_sig linear chan_pll].
    rewrite Tp.
    destruct (track_rotations_spec c1 ltac:(rewrite Lr, Hrot; exact Hbase))
      as (R1 & R2 & R3 & R4).
    rewrite Lr, Hrot, Lc, Hph in *.
    split; [exact R1|]. split; [exact R2|]. split; [exact R3|].
    assert (Hstep : -1 <= linear_rotations (linear (track_rotations c1)) - base <= 1).
    { destruct (fgt (fsub (cargf (pll_phasor (pll_pll (chan_pll c1))))
                         (linear_cphase (linear c))) M_PI) eqn:Hup;
        [rewrite R1 by reflexivity; lia|].
      destruct (flt (fsub (cargf (pll_phasor (pll_pll (chan_pll c1))))
                         (linear_cphase (linear c))) (fneg M_PI)) eqn:Hdn;
        [rewrite R2 by reflexivity; lia | rewrite R3 by reflexivity; lia]. }
    split; [exact Hstep|].
    split; [intros W; subst base; rewrite W in Hstep; lia|].
    split; [exact R4|].
    rewrite Lw. exact Hwas.
  - intros Hoff. subst c' rot'. unfold pll_stage. rewrite Hoff. cbn. auto.
Qed.

Local Close Scope Z_scope.

Lemma mute_of_iff c p :
  mute_of c p = true
  <-> p = FFin 0
      \/ (linear_pll (linear c) = true /\ linear_pll_lock (linear c) = false)
      \/ tune_freq (tune c) = FFin 0.
Proof.
  unfold mute_of.
  rewrite !orb_true_iff, andb_true_iff, negb_true_iff, !feq_zero. tauto.
Qed.

Lemma output_stage_mute c buffer gc send :
  let r := output_stage c buffer gc send in
  sent_mute (snd (fst r)) = mute_of c (block_power c buffer gc)
  /\ linear (fst (fst r)) = linear c
  /\ tune (fst (fst r)) = tune c
  /\ output_energy (output (fst (fst r)))
     = fadd (output_energy (output c)) (block_power c buffer gc)
  /\ sent_count (snd (fst r)) = Z.of_nat (length buffer).
Proof.
  unfold output_stage, block_power.
  destruct (output_pass c buffer gc) as [[out g] p].
  unfold per_sample_power, mute_of.
  destruct (send =? -1)%Z; cbn; tauto.
Qed.

(** C4.  For every block that is processed, the mute flag handed to the
    output transport is true exactly when the block's per-sample output
    power is zero, or the PLL is enabled and the lock boolean (as this
    block leaves it) is false, or the tuned frequency is zero.  The
    power is that of the final pass with the gain ramp the AGC chose,
    the same amount that is added to the energy counter. *)
Theorem mute_condition limit c blk c' s cont :
  demod_block limit c blk = Done (c', s, cont) ->
  exists c1 gain_change,
    agc_stage (Z.of_nat (length (blk_buffer blk))) (fst (front_stages limit c blk))
      = Done (c1, gain_change)
    /\ let power := block_power c1 (snd (front_stages limit c blk)) gain_change in
       output_energy (output c') = fadd (output_energy (output c1)) power
       /\ (sent_mute s = true
           <-> power = FFin 0
               \/ (linear_pll (linear c') = true
                   /\ linear_pll_lock (linear c') = false)
               \/ tune_freq (tune c') = FFin 0).
Proof.
  unfold demod_block. cbv zeta.
  destruct (front_stages limit c blk) as [c0 buf0]. cbn [fst snd].
  destruct (agc_stage _ c0) as [[c1 gc]|] eqn:Eagc; [|discriminate].
  intros H. inversion H as [Hout]. clear H.
  exists c1, gc. split; [reflexivity|]. cbv zeta.
  destruct (output_stage_mute c1 buf0 gc (blk_send blk)) as (Hm & Hl & Ht & He & _).
  rewrite Hout in *. cbn [fst snd] in *.
  split; [exact He|].
  rewrite Hm, Hl, Ht. apply mute_of_iff.
Qed.

(** *** The output formats *)

(** Mono output counts twice the mean square (+3 dB). *)
Lemma mono_power_doubled c N p :
  output_channels (output c) = 1%Z ->
  per_sample_power c N p = fmul (fdiv p (of_int N)) ftwo.
Proof. intros H. unfold per_sample_power. now rewrite H. Qed.

Lemma stereo_power_plain c N p :
  output_channels (output c) <> 1%Z ->
  per_sample_power c N p = fdiv p (of_int N).
Proof.
  intros H. unfold per_sample_power.
  destruct (Z.eqb_spec (output_channels (output c)) 1); [contradiction | reflexivity].
Qed.

(** In the I/envelope format the right channel is twice the magnitude,
    times the gain; the left channel is the in-phase part times the gain. *)
Lemma stereo_env_sample b gain :
  fmt_stereo_env b gain
  = Cplx (fmul (crealf b) gain) (fmul (fmul (cabsf b) ftwo) gain).
Proof. reflexivity. Qed.

(** The final pass emits one output sample per input sample. *)
Lemma final_pass_length {A : Type} (fmt : complexf -> cfloat -> A) pwr gc :
  forall buffer g p0,
    length (fst (fst (final_pass fmt pwr buffer g gc p0))) = length buffer.
Proof.
  induction buffer as [|b rest IH]; intros g p0; cbn [final_pass]; [reflexivity|].
  specialize (IH (fmul g gc) (fadd p0 (pwr (fmt b g)))).
  destruct (final_pass fmt pwr rest (fmul g gc) gc _) as [[out g'] p'].
  cbn in *. now rewrite IH.
Qed.

(** *** The AGC decision *)

Lemma set_hangcount_same c : set_hangcount (hangcount c) c = c.
Proof. destruct c. reflexivity. Qed.

Lemma fne_one_zero : fne fone fzero = true.
Proof. unfold fne. replace (feq fone fzero) with false; [reflexivity|].
  symmetry. funfold. rdec; reflexivity. Qed.

Lemma agc_stage_by_branch N c :
  linear_agc (linear c) = true ->
  (INT_MIN <= hangcount c <= INT_MAX)%Z ->
  agc_stage N c
  = if feq (agc_gain_change N c) fzero then Aborted
    else Done (set_hangcount (agc_hangcount c) c, agc_gain_change N c).
Proof.
  intros Hagc Hh.
  unfold agc_stage, agc_gain_change, agc_hangcount, agc_branch_of, assert, fne.
  rewrite Hagc.
  change (sqrtf (sig_bb_power (sig c))) with (signal_amplitude c).
  change (sqrtf (fmul (fabsf (fsub (filter_min_IF (filter c)) (filter_max_IF (filter c))))
                      (sig_n0 (sig c)))) with (noise_amplitude c).
  cbv zeta.
  fold (strong_signal c). fold (strong_target c).
  destruct (strong_signal c).
  { fold (ramp_to (strong_target c) N c).
    destruct (feq (ramp_to (strong_target c) N c) fzero); reflexivity. }
  fold (noise_above_threshold c). fold (noise_target c).
  destruct (noise_above_threshold c).
  { fold (ramp_to (noise_target c) N c).
    destruct (feq (ramp_to (noise_target c) N c) fzero);
      [reflexivity | now rewrite set_hangcount_same]. }
  destruct (Z.ltb_spec 0 (hangcount c)).
  { replace (feq fone fzero) with false
      by (symmetry; funfold; rdec; reflexivity).
    rewrite int32_id by (unfold INT_MIN, INT_MAX in *; lia). reflexivity. }
  destruct (feq _ fzero); [reflexivity | now rewrite set_hangcount_same].
Qed.

(** C2.  With the AGC enabled exactly one of the four rules fires, the
    first that matches in the order strong signal, noise above
    threshold, hang, recovery.  The block's [gain_change] is the guarded
    N-th root ramp to headroom/amplitude (strong signal) or to
    threshold*headroom/noise_amplitude (noise), 1 (hang), or
    recovery_rate^(1/N) (recovery).  Unless that factor is 0, which fails
    the assertion, the stage returns it together with the channel in
    which the hang counter has been restarted to the hang time (strong
    signal only), decremented by one (hang), or left as it was (noise,
    recovery), and in which nothing else has changed.  The hang rule
    cannot fail the assertion. *)
Theorem agc_decision N c :
  linear_agc (linear c) = true ->
  (INT_MIN <= hangcount c <= INT_MAX)%Z ->
  let ampl := signal_amplitude c in
  let bn := noise_amplitude c in
  let gain := output_gain (output c) in
  let headroom := output_headroom (output c) in
  let threshold := linear_threshold (linear c) in
  let strong := fgt (fmul ampl gain) headroom in
  let noisy := fgt (fmul bn gain) (fmul threshold headroom) in
  let hanging := (0 <? hangcount c)%Z in
  let root := fdiv fone (of_int N) in
  let gain_change :=
    if strong then
      if fgt (fdiv headroom ampl) fzero
      then powf (fdiv (fdiv headroom ampl) gain) root else fone
    else if noisy then
      if fgt (fdiv (fmul threshold headroom) bn) fzero
      then powf (fdiv (fdiv (fmul threshold headroom) bn) gain) root else fone
    else if hanging then fone
    else powf (linear_recovery_rate (linear c)) root in
  let count :=
    if strong then float_to_int (linear_hangtime (linear c))
    else if noisy then hangcount c
    else if hanging then (hangcount c - 1)%Z
    else hangcount c in
  (agc_branch_of c = StrongSignal <-> strong = true)
  /\ (agc_branch_of c = NoiseAboveThreshold <-> strong = false /\ noisy = true)
  /\ (agc_branch_of c = Hanging
      <-> strong = false /\ noisy = false /\ (0 < hangcount c)%Z)
  /\ (agc_branch_of c = Recovering
      <-> strong = false /\ noisy = false /\ (hangcount c <= 0)%Z)
  /\ (feq gain_change fzero = true -> agc_stage N c = Aborted)
  /\ (feq gain_change fzero = false ->
      exists c',
        agc_stage N c = Done (c', gain_change)
        /\ hangcount c' = count
        /\ output c' = output c /\ filter c' = filter c
        /\ linear c' = linear c /\ chan_pll c' = chan_pll c
        /\ sig c' = sig c /\ fm c' = fm c /\ tune c' = tune c
        /\ shift c' = shift c)
  /\ (strong = false -> noisy = false -> hanging = true ->
      feq gain_change fzero = false).
Proof.
  intros Hagc Hh ampl bn gain headroom threshold strong noisy hanging root
    gain_change count.
  assert (Es : strong = strong_signal c) by reflexivity.
  assert (En : noisy = noise_above_threshold c) by reflexivity.
  assert (Eg : agc_gain_change N c = gain_change).
  { unfold agc_gain_change, agc_branch_of, gain_change. rewrite <- Es, <- En.
    fold hanging. destruct strong, noisy, hanging; reflexivity. }
  assert (Ec : agc_hangcount c = count).
  { unfold agc_hangcount, agc_branch_of, count. rewrite <- Es, <- En.
    fold hanging. destruct strong, noisy, hanging; reflexivity. }
  pose proof (agc_stage_by_branch N c Hagc Hh) as Hstage.
  rewrite Eg, Ec in Hstage.
  split; [|split; [|split; [|split; [|split; [|split]]]]].
  - unfold agc_branch_of. rewrite <- Es, <- En.
    destruct strong, noisy, (0 <? hangcount c)%Z; split; intros; congruence.
  - unfold agc_branch_of. rewrite <- Es, <- En.
    destruct strong, noisy, (0 <? hangcount c)%Z; split;
      (intros [? ?] || intros ?); try congruence; auto.
  - unfold agc_branch_of. rewrite <- Es, <- En.
    destruct strong, noisy; destruct (Z.ltb_spec 0 (hangcount c)); split;
      (intros (? & ? & ?) || intros ?); try congruence; try lia; auto.
  - unfold agc_branch_of. rewrite <- Es, <- En.
    destruct strong, noisy; destruct (Z.ltb_spec 0 (hangcount c)); split;
      (intros (? & ? & ?) || intros ?); try congruence; try lia; auto.
  - intros Hz. rewrite Hstage, Hz. reflexivity.
  - intros Hz. rewrite Hstage, Hz.
    exists (set_hangcount count c). cbn. repeat split; reflexivity.
  - intros -> -> ->. unfold gain_change. funfold. rdec; reflexivity.
Qed.

(** *** The gain ramp *)

Local Open Scope R_scope.

Lemma final_pass_gain {A : Type} (fmt : complexf -> cfloat -> A) pwr r :
  forall buffer g p0,
    snd (fst (final_pass fmt pwr buffer (FFin g) (FFin r) p0))
    = FFin (g * r ^ length buffer).
Proof.
  induction buffer as [|b rest IH]; intros g p0; cbn [final_pass length pow].
  - cbn. f_equal. ring.
  - specialize (IH (g * r) (fadd p0 (pwr (fmt b (FFin g))))).
    cbn [fmul].
    destruct (final_pass fmt pwr rest (FFin (g * r)) (FFin r) _) as [[out g'] p'].
    cbn [fst snd] in *. rewrite IH. f_equal. ring.
Qed.

Lemma output_pass_gain c buffer g r :
  output_gain (output c) = FFin g ->
  snd (fst (output_pass c buffer (FFin r))) = FFin (g * r ^ length buffer).
Proof.
  intros Hg. unfold output_pass. rewrite Hg.
  destruct (_ =? 1)%Z; destruct (linear_env _);
    match goal with |- context [final_pass ?f ?p buffer (FFin g) (FFin r) ?z] =>
      pose proof (final_pass_gain f p r buffer g z) as H;
      destruct (final_pass f p buffer (FFin g) (FFin r) z) as [[out g'] p']
    end; exact H.
Qed.

Lemma fne_pos r : 0 < r -> fne (FFin r) fzero = true.
Proof. intros H. unfold fne. replace (feq (FFin r) fzero) with false; [reflexivity|].
  symmetry. funfold. rdec; reflexivity. Qed.

Lemma agc_stage_reducing N c target :
  linear_agc (linear c) = true ->
  reducing_target c = Some target ->
  agc_stage N c
  = assert (fne (ramp_to target N c) fzero)
           (Done (after_reduction c, ramp_to target N c)).
Proof.
  intros Hagc. unfold reducing_target, after_reduction, agc_stage. rewrite Hagc.
  change (sqrtf (sig_bb_power (sig c))) with (signal_amplitude c).
  change (sqrtf (fmul (fabsf (fsub (filter_min_IF (filter c)) (filter_max_IF (filter c))))
                      (sig_n0 (sig c)))) with (noise_amplitude c).
  cbv zeta.
  fold (strong_signal c). fold (strong_target c).
  destruct (strong_signal c).
  { intros H. inversion H. reflexivity. }
  fold (noise_above_threshold c). fold (noise_target c).
  destruct (noise_above_threshold c); [|discriminate].
  intros H. inversion H. reflexivity.
Qed.

(** A positive target of a gain-reducing rule, seen through [reducing_ramp]. *)
Lemma reducing_target_ramp (n : nat) c target :
  (1 <= n)%nat ->
  reducing_target c = Some target ->
  fgt target fzero = true ->
  (output_gain (output c) = FInf false
   /\ ramp_to target (Z.of_nat n) c = FFin 0)
  \/ (exists g t, output_gain (output c) = FFin g /\ 0 < g
                  /\ target = FFin t /\ 0 < t
                  /\ ramp_to target (Z.of_nat n) c
                     = FFin (Rpower (t / g) (/ INR n))).
Proof.
  intros Hn Ht Hpos. unfold ramp_to. rewrite Hpos.
  unfold reducing_target in Ht.
  destruct (strong_signal c) eqn:Hs.
  - inversion Ht; subst target. unfold strong_signal in Hs.
    unfold strong_target, signal_amplitude in *.
    exact (reducing_ramp _ _ _ n Hn Hs Hpos).
  - destruct (noise_above_threshold c) eqn:Hnz; [|discriminate].
    inversion Ht; subst target. unfold noise_above_threshold in Hnz.
    unfold noise_target, noise_amplitude in *.
    exact (reducing_ramp _ _ _ n Hn Hnz Hpos).
Qed.

Lemma after_reduction_output c : output (after_reduction c) = output c.
Proof. unfold after_reduction. destruct (strong_signal c); reflexivity. Qed.

(** C1.  In a block of [N >= 1] samples in which the AGC takes a
    gain-reducing rule (strong signal, or noise above threshold) whose
    target gain is strictly positive, the gain the block starts with and
    the target are positive reals, the single per-sample factor is
    [gain_change = (target/gain0)^(1/N)], and the final pass, whichever
    of the four output formats is active, leaves the gain field at
    [gain0 * gain_change^N], which is the target (in exact arithmetic). *)
Theorem gain_ramp_reaches_target limit c blk c' s cont target :
  let c0 := fst (front_stages limit c blk) in
  let n := length (blk_buffer blk) in
  (1 <= n)%nat ->
  linear_agc (linear c) = true ->
  reducing_target c0 = Some target ->
  fgt target fzero = true ->
  demod_block limit c blk = Done (c', s, cont) ->
  exists gain0 gain_change t : R,
    output_gain (output c) = FFin gain0 /\ 0 < gain0
    /\ target = FFin t /\ 0 < t
    /\ agc_stage (Z.of_nat n) c0 = Done (after_reduction c0, FFin gain_change)
    /\ gain_change = Rpower (t / gain0) (/ INR n) /\ 0 < gain_change
    /\ output_gain (output c') = FFin (gain0 * gain_change ^ n)
    /\ output_gain (output c') = target.
Proof.
  intros c0 n Hn Hagc Ht Hpos Hblk. subst c0 n.
  unfold demod_block in Hblk. cbv zeta in Hblk.
  destruct (front_stages_frame limit c blk) as (Hcfg & Hout & _ & Hlen).
  destruct (front_stages limit c blk) as [c0 buf0]. cbn [fst snd] in *.
  assert (Hagc0 : linear_agc (linear c0) = true).
  { unfold same_config in Hcfg. decompose [and] Hcfg. congruence. }
  rewrite (agc_stage_reducing _ _ _ Hagc0 Ht) in *.
  destruct (reducing_target_ramp _ _ _ Hn Ht Hpos)
    as [(Hinf & Hz) | (g & t & Hg & Hgpos & Htt & Htpos & Hr)].
  - exfalso. rewrite Hz in Hblk. unfold assert, fne in Hblk.
    replace (feq (FFin 0) fzero) with true in Hblk
      by (symmetry; now apply feq_fin).
    discriminate.
  - rewrite Hr in *.
    pose proof (Rpower_pos (t / g) (/ INR (length (blk_buffer blk)))) as Hrpos.
    rewrite (fne_pos _ Hrpos) in *. unfold assert in Hblk.
    inversion Hblk as [Hstage]. clear Hblk.
    exists g, (Rpower (t / g) (/ INR (length (blk_buffer blk)))), t.
    rewrite <- Hout.
    destruct (output_stage_frame (after_reduction c0) buf0
                (FFin (Rpower (t / g) (/ INR (length (blk_buffer blk)))))
                (blk_send blk)) as (_ & Hgain & _).
    rewrite Hstage in Hgain. cbn [fst snd] in Hgain.
    rewrite (output_pass_gain _ _ g) in Hgain
      by (rewrite after_reduction_output; exact Hg).
    rewrite Hlen in Hgain.
    repeat split; try assumption; try reflexivity.
    rewrite Hgain, Htt. f_equal. now apply ramp_lands.
Qed.

Local Close Scope R_scope.

Local Open Scope R_scope.

(** With a positive real gain and recovery rate, every rule yields a
    positive real factor and no assertion fails. *)
Lemma agc_stage_positive (n : nat) c g q :
  (1 <= n)%nat ->
  output_gain (output c) = FFin g -> 0 < g ->
  linear_recovery_rate (linear c) = FFin q -> 0 < q ->
  exists c1 r,
    agc_stage (Z.of_nat n) c = Done (c1, FFin r) /\ 0 < r
    /\ same_config c c1 /\ output c1 = output c.
Proof.
  intros Hn Hg Hgpos Hq Hqpos.
  destruct (linear_agc (linear c)) eqn:Hagc.
  2: { exists c, 1. rewrite (agc_stage_off _ _ Hagc).
       repeat split; try lra; reflexivity. }
  assert (Hfinish : forall c1 x,
             agc_stage (Z.of_nat n) c = assert (fne x fzero) (Done (c1, x)) ->
             (exists r, x = FFin r /\ 0 < r) ->
             exists c1 r, agc_stage (Z.of_nat n) c = Done (c1, FFin r) /\ 0 < r
                          /\ same_config c c1 /\ output c1 = output c).
  { intros c1 x E (r & -> & Hr). rewrite (fne_pos _ Hr) in E. unfold assert in E.
    exists c1, r. destruct (agc_stage_frame _ _ _ _ E). auto. }
  destruct (reducing_target c) as [target|] eqn:Ht.
  - apply (Hfinish _ _ (agc_stage_reducing _ _ _ Hagc Ht)).
    destruct (fgt target fzero) eqn:Hpos.
    + destruct (reducing_target_ramp _ _ _ Hn Ht Hpos)
        as [(Hinf & _) | (g' & t & Hg' & Hg'pos & _ & _ & Hr)];
        [congruence|].
      rewrite Hr. eexists. split; [reflexivity | apply Rpower_pos].
    + unfold ramp_to. rewrite Hpos. exists 1. split; [reflexivity | lra].
  - unfold reducing_target in Ht.
    destruct (strong_signal c) eqn:Hs; [discriminate|].
    destruct (noise_above_threshold c) eqn:Hnz; [discriminate|].
    unfold strong_signal, signal_amplitude in Hs.
    unfold noise_above_threshold, noise_amplitude in Hnz.
    destruct (0 <? hangcount c)%Z eqn:Hh.
    + exists (set_hangcount (int32 (hangcount c - 1)) c), 1.
      assert (E : agc_stage (Z.of_nat n) c
                  = Done (set_hangcount (int32 (hangcount c - 1)) c, fone)).
      { unfold agc_stage. rewrite Hagc. cbv zeta. rewrite Hs, Hnz, Hh. reflexivity. }
      destruct (agc_stage_frame _ _ _ _ E). repeat split; auto. lra.
    + apply (Hfinish c (powf (linear_recovery_rate (linear c))
                             (fdiv fone (of_int (Z.of_nat n))))).
      * unfold agc_stage. rewrite Hagc. cbv zeta. rewrite Hs, Hnz, Hh. reflexivity.
      * rewrite Hq, powf_root by assumption.
        eexists. split; [reflexivity | apply Rpower_pos].
Qed.

Lemma demod_block_positive limit c blk g q :
  (1 <= length (blk_buffer blk))%nat ->
  output_gain (output c) = FFin g -> 0 < g ->
  linear_recovery_rate (linear c) = FFin q -> 0 < q ->
  exists c' s cont g',
    demod_block limit c blk = Done (c', s, cont)
    /\ output_gain (output c') = FFin g' /\ 0 < g'
    /\ linear_recovery_rate (linear c') = FFin q.
Proof.
  intros Hn Hg Hgpos Hq Hqpos. unfold demod_block. cbv zeta.
  destruct (front_stages_frame limit c blk) as (Hcfg & Hout & _ & Hlen).
  destruct (front_stages limit c blk) as [c0 buf0]. cbn [fst snd] in *.
  assert (Hq0 : linear_recovery_rate (linear c0) = FFin q).
  { unfold same_config in Hcfg. decompose [and] Hcfg. congruence. }
  destruct (agc_stage_positive _ c0 g q Hn ltac:(congruence) Hgpos Hq0 Hqpos)
    as (c1 & r & E & Hr & Hcfg1 & Hout1).
  rewrite E.
  destruct (output_stage_frame c1 buf0 (FFin r) (blk_send blk)) as (Hcfg2 & Hgain & _).
  destruct (output_stage c1 buf0 (FFin r) (blk_send blk)) as [[c' s] cont].
  cbn [fst snd] in *.
  exists c', s, cont, (g * r ^ length buf0).
  split; [reflexivity|]. split; [|split].
  - rewrite Hgain. apply output_pass_gain. congruence.
  - apply Rmult_lt_0_compat; [assumption | now apply pow_lt].
  - unfold same_config in Hcfg1, Hcfg2.
    decompose [and] Hcfg1. decompose [and] Hcfg2. congruence.
Qed.

Local Close Scope R_scope.

End Generic.

(** *** The model on the test channel *)

#[local] Existing Instance still_osc.
Local Open Scope R_scope.

Lemma fne_zero_zero : fne fzero fzero = false.
Proof.
  unfold fne. replace (feq fzero fzero) with true; [reflexivity|].
  symmetry. now apply feq_fin.
Qed.

Lemma sqrtf_one : sqrtf fone = fone.
Proof. unfold sqrtf, fone. rdec. now rewrite sqrt_1. Qed.

Lemma sqrtf_zero : sqrtf fzero = fzero.
Proof. unfold sqrtf, fzero. rdec. now rewrite sqrt_0. Qed.

Lemma float_to_int_small (z : Z) :
  (INT_MIN <= z <= INT_MAX)%Z -> (0 <= z)%Z -> float_to_int (FFin (IZR z)) = z.
Proof.
  intros Hr Hz. unfold float_to_int, Rtrunc.
  assert (0 <= IZR z) by now apply IZR_le.
  destruct (Rle_dec 0 (IZR z)); [|lra].
  rewrite <- (Int_part_spec (IZR z) z) by lra.
  cbv zeta.
  replace ((INT_MIN <=? z)%Z && (z <=? INT_MAX)%Z) with true; [reflexivity|].
  symmetry. apply andb_true_iff. split; apply Z.leb_le; lia.
Qed.

(** With the PLL off and no shift, the stages before the AGC only store
    the power estimates. *)
Lemma front_stages_test limit agc rate blk :
  front_stages limit (test_channel_with agc false rate) blk
  = (set_sig_power (blk_bb_power blk) (blk_n0 blk)
       (test_channel_with agc false rate),
     blk_buffer blk).
Proof.
  unfold front_stages, test_channel_with, pll_stage, shift_stage.
  cbn. rewrite fne_zero_zero. reflexivity.
Qed.

(** 50 ms at 24 kHz: 1200 samples. *)
Example lock_limit_24k agc pll : lock_limit_of (test_channel agc pll) = 1200%Z.
Proof.
  unfold lock_limit_of, DEFAULT_PLL_LOCKTIME, of_int. cbn [fmul test_channel
    test_channel_with output output_samprate].
  replace (5 / 100 * 24000) with (IZR 1200) by lra.
  apply float_to_int_small; unfold INT_MIN, INT_MAX; lia.
Qed.

(** The test block is a strong signal for the test channel: amplitude 1
    times gain 4 exceeds the headroom 1/2, the target gain is 1/2. *)
Lemma test_block_is_strong limit :
  let c0 := fst (front_stages limit (test_channel true false) test_block) in
  reducing_target c0 = Some (FFin (1 / 2)).
Proof.
  cbv zeta. unfold test_channel. rewrite front_stages_test. cbn [fst].
  unfold reducing_target, strong_signal, strong_target, signal_amplitude.
  cbn [set_sig_power set_sig sig sig_bb_power output output_gain
       output_headroom test_channel_with test_block blk_bb_power].
  rewrite sqrtf_one.
  replace (fgt (fmul fone (FFin 4)) (FFin (1 / 2))) with true
    by (symmetry; apply fgt_fin; lra).
  f_equal. funfold. rdec. f_equal. lra.
Qed.

(** C1 at the test channel: gain 4, target 1/2, one sample. *)
Lemma gain_ramp_reaches_target_witness :
  exists c' s cont,
    demod_block 1200 (test_channel true false) test_block = Done (c', s, cont)
    /\ output_gain (output c') = FFin (1 / 2).
Proof.
  destruct (demod_block_positive 1200 (test_channel true false) test_block 4 2
              ltac:(cbn; lia) eq_refl ltac:(lra) eq_refl ltac:(lra))
    as (c' & s & cont & g' & E & _).
  exists c', s, cont. split; [exact E|].
  destruct (gain_ramp_reaches_target 1200 (test_channel true false) test_block
              c' s cont (FFin (1 / 2))
              ltac:(cbn; lia) eq_refl (test_block_is_strong 1200)
              ltac:(apply fgt_fin; lra) E)
    as (g0 & gc & t & _ & _ & _ & _ & _ & _ & _ & _ & Hfinal).
  exact Hfinal.
Defined.

(** The silent test channel is in the recovery rule. *)
Lemma test_channel_recovering agc rate :
  agc_branch_of (test_channel_with agc false rate) = Recovering.
Proof.
  unfold agc_branch_of, strong_signal, noise_above_threshold,
    signal_amplitude, noise_amplitude.
  cbn [test_channel_with sig sig_bb_power sig_n0 output output_gain
       output_headroom filter filter_min_IF filter_max_IF linear
       linear_threshold hangcount].
  rewrite sqrtf_zero.
  replace (fgt (fmul fzero (FFin 4)) (FFin (1 / 2))) with false
    by (symmetry; apply flt_fin_false; lra).
  replace (fmul (fabsf (fsub (FFin (-5000)) (FFin 5000))) fzero) with fzero
    by (funfold; f_equal; ring).
  rewrite sqrtf_zero.
  replace (fgt (fmul fzero (FFin 4)) (fmul (FFin (1 / 4)) (FFin (1 / 2))))
    with false by (symmetry; apply flt_fin_false; lra).
  reflexivity.
Qed.

(** The test block through the test channel with the AGC off: one mono
    sample at gain 4, of per-sample power 2 * 16. *)
Lemma test_block_power :
  block_power (set_sig_power fone fzero (test_channel false false))
              [Cplx fone fzero] fone
  = FFin (((0 + 1 * 4 * (1 * 4)) / 1) * 2).
Proof.
  unfold block_power, output_pass, per_sample_power, test_channel,
    test_channel_with.
  cbn. unfold fmt_mono_i, square. cbn. unfold of_int. funfold. rdec.
  reflexivity.
Qed.

Lemma mute_condition_witness :
  exists c' s cont,
    demod_block 1200 (test_channel false false) test_block = Done (c', s, cont)
    /\ sent_mute s = false.
Proof.
  destruct (demod_block_agc_off 1200 (test_channel false false) test_block eq_refl)
    as (c' & s & cont & E & Hstage & _).
  exists c', s, cont. split; [exact E|].
  destruct (mute_condition 1200 (test_channel false false) test_block c' s cont E)
    as (c1 & gc & Hagc & _ & Hmute).
  unfold test_channel in Hagc, Hmute, Hstage.
  rewrite front_stages_test in Hagc, Hmute, Hstage. cbn [fst snd] in *.
  rewrite agc_stage_off in Hagc by reflexivity.
  inversion Hagc; subst c1 gc. clear Hagc.
  destruct (output_stage_frame
              (set_sig_power (blk_bb_power test_block) (blk_n0 test_block)
                 (test_channel_with false false 2))
              (blk_buffer test_block) fone (blk_send test_block))
    as (Hcfg & _).
  rewrite <- Hstage in Hcfg. cbn [fst] in Hcfg.
  destruct (sent_mute s) eqn:Hm; [|reflexivity]. exfalso.
  destruct (proj1 Hmute eq_refl) as [Hp | [(Hpll & _) | Hf]].
  - change (blk_buffer test_block) with [Cplx fone fzero] in Hp.
    change (blk_bb_power test_block) with fone in Hp.
    change (blk_n0 test_block) with fzero in Hp.
    fold (test_channel false false) in Hp.
    rewrite test_block_power in Hp. inversion Hp. lra.
  - unfold same_config in Hcfg. decompose [and] Hcfg.
    cbn in *. congruence.
  - unfold same_config in Hcfg. decompose [and] Hcfg.
    assert (Hfreq : tune_freq (tune c') = FFin 7000000) by
      (match goal with H : tune c' = _ |- _ => rewrite H end; reflexivity).
    rewrite Hfreq in Hf. inversion Hf. lra.
Defined.

(** With the still oscillator a real sample has no quadrature part: the
    SNR of the block is undefined. *)
Lemma test_block_energies :
  pll_energies (test_channel false true) [Cplx fone fzero]
  = (FFin (0 + (1 * 1 - 0 * - 0) * (1 * 1 - 0 * - 0)),
     FFin (0 + (1 * - 0 + 0 * 1) * (1 * - 0 + 0 * 1))).
Proof. reflexivity. Qed.

Lemma snr_telemetry_witness :
  sig_snr (sig (fst (pll_stage 1200 (test_channel false true) [Cplx fone fzero])))
  = FNaN.
Proof.
  destruct (snr_telemetry 1200 (test_channel false true) [Cplx fone fzero] eq_refl)
    as (_ & _ & Hzero).
  apply Hzero. rewrite test_block_energies. cbn [snd].
  apply feq_fin. ring.
Defined.

Lemma rotation_step_witness :
  (- 1 <= linear_rotations
            (linear (fst (pll_stage 1200 (test_channel false true)
                            [Cplx fone fzero]))) <= 1)%Z.
Proof.
  destruct (rotation_step 1200 (test_channel false true) [Cplx fone fzero]
              ltac:(unfold INT_MIN, INT_MAX; cbn; lia))
    as (Hon & _).
  destruct (Hon eq_refl) as (_ & _ & _ & _ & Hcold & _).
  apply Hcold. reflexivity.
Defined.

Lemma agc_off_gain_constant_witness :
  exists c' outs,
    demod_loop 1200 (test_channel false false) [test_block; quiet_block; test_block]
    = Done (c', outs)
    /\ output_gain (output c') = FFin 4.
Proof.
  exact (proj2 (agc_off_gain_constant 1200 (test_channel false false) eq_refl)
           [test_block; quiet_block; test_block]).
Defined.

Lemma powf_zero_first : powf (FFin 0) (fdiv fone (of_int 1)) = FFin 0.
Proof. exact (powf_root_zero 1 (le_n 1)). Qed.

(** A sample with in-phase part 3 and quadrature part 1 has SNR
    9/1 - 1 = 8, above the open threshold 6: with a limit of one sample
    the detector locks at once. *)
Example lock_acquired :
  let c' := fst (pll_stage 1 (test_channel false true) [Cplx (FFin 3) fone]) in
  sig_snr (sig c') = FFin 8
  /\ pll_lock_count (chan_pll c') = 1%Z
  /\ linear_pll_lock (linear c') = true
  /\ linear_lock_timer (linear c') = 1%Z
  /\ linear_rotations (linear c') = 0%Z.
Proof.
  cbv zeta. rewrite pll_stage_on by reflexivity. cbv zeta.
  assert (E : at_lock_detector (test_channel false true) [Cplx (FFin 3) fone]
              = set_pll_was_on true
                  (set_sig_snr (FFin 8) (test_channel false true))).
  { unfold at_lock_detector, test_channel, test_channel_with, pll_cold_start.
    cbn -[snr_estimate]. funfold.
    rewrite snr_estimate_real by lra.
    match goal with |- context [Rmax 0 ?e] =>
      replace e with 8 by field end.
    rewrite Rmax_right by lra.
    reflexivity. }
  rewrite E. clear E.
  unfold lock_detector, track_rotations.
  cbn [set_pll_was_on set_sig_snr set_sig set_chan_pll sig sig_snr fm
       fm_squelch_close fm_squelch_open test_channel test_channel_with].
  replace (flt (FFin 8) (FFin 5)) with false
    by (symmetry; apply flt_fin_false; lra).
  replace (fgt (FFin 8) (FFin 6)) with true by (symmetry; apply fgt_fin; lra).
  pose proof PI_RGT_0.
  cbn. rdec. cbn. auto.
Qed.

(** With one sample per block the root is the ratio itself. *)
Lemma powf_first (x : R) :
  0 < x -> powf (FFin x) (fdiv fone (of_int 1)) = FFin x.
Proof.
  intros Hx. change (of_int 1) with (of_int (Z.of_nat 1)).
  rewrite powf_root by (assumption || lia).
  f_equal. cbn [INR]. rewrite Rinv_1. now apply Rpower_1.
Qed.

(** The AGC on the test channel.  A strong signal (amplitude 1, gain 4,
    headroom 1/2): the target is 1/2, the one-sample ramp factor 1/8, and
    the hang counter restarts at 55 blocks. *)
Example agc_strong_signal :
  let c := set_sig_power fone fzero (test_channel true false) in
  agc_branch_of c = StrongSignal
  /\ agc_stage 1 c = Done (set_hangcount 55 c, FFin (1 / 8)).
Proof.
  cbv zeta.
  assert (Hs : strong_signal (set_sig_power fone fzero (test_channel true false))
               = true).
  { unfold strong_signal, signal_amplitude.
    cbn [set_sig_power set_sig sig sig_bb_power output output_gain
         output_headroom test_channel test_channel_with].
    rewrite sqrtf_one. apply fgt_fin. lra. }
  split; [unfold agc_branch_of; now rewrite Hs|].
  rewrite (agc_stage_reducing 1
             (set_sig_power fone fzero (test_channel true false))
             (FFin (1 / 2)) eq_refl).
  2: { unfold reducing_target. rewrite Hs. unfold strong_target, signal_amplitude.
       cbn [set_sig_power set_sig sig sig_bb_power output output_headroom
            test_channel test_channel_with].
       rewrite sqrtf_one. f_equal. funfold. rdec. f_equal. lra. }
  unfold after_reduction. rewrite Hs.
  unfold ramp_to.
  replace (fgt (FFin (1 / 2)) fzero) with true by (symmetry; apply fgt_fin; lra).
  cbn [set_sig_power set_sig output output_gain linear linear_hangtime
       test_channel test_channel_with].
  replace (fdiv (FFin (1 / 2)) (FFin 4)) with (FFin (1 / 8))
    by (funfold; rdec; f_equal; lra).
  rewrite powf_first by lra.
  rewrite (fne_pos (1 / 8)) by lra.
  rewrite (float_to_int_small 55) by (unfold INT_MIN, INT_MAX; lia).
  reflexivity.
Qed.

(** While the hang counter runs and the input is silent, the gain is
    held and the counter goes down by one. *)
Example agc_hanging :
  let c := set_hangcount 3 (test_channel true false) in
  agc_branch_of c = Hanging
  /\ agc_stage 1 c = Done (set_hangcount 2 c, fone).
Proof.
  cbv zeta.
  pose proof (test_channel_recovering true 2) as Hb.
  unfold agc_branch_of, strong_signal, noise_above_threshold,
    signal_amplitude, noise_amplitude in Hb |- *.
  unfold agc_stage.
  cbn [set_hangcount test_channel test_channel_with sig sig_bb_power sig_n0
       output output_gain output_headroom filter filter_min_IF filter_max_IF
       linear linear_threshold linear_agc hangcount] in *.
  destruct (fgt (fmul (sqrtf fzero) (FFin 4)) (FFin (1 / 2))); [discriminate|].
  destruct (fgt (fmul (sqrtf (fmul (fabsf (fsub (FFin (-5000)) (FFin 5000))) fzero))
                      (FFin 4))
                (fmul (FFin (1 / 4)) (FFin (1 / 2)))); [discriminate|].
  split; reflexivity.
Qed.

Local Open Scope Z_scope.

Lemma hanging_channel_quiet :
  strong_signal (set_hangcount 3 (test_channel true false)) = false
  /\ noise_above_threshold (set_hangcount 3 (test_channel true false)) = false.
Proof.
  pose proof (test_channel_recovering true 2) as Hb.
  unfold agc_branch_of in Hb.
  change (strong_signal (set_hangcount 3 (test_channel true false)))
    with (strong_signal (test_channel_with true false 2)).
  change (noise_above_threshold (set_hangcount 3 (test_channel true false)))
    with (noise_above_threshold (test_channel_with true false 2)).
  destruct (strong_signal (test_channel_with true false 2)); [discriminate|].
  destruct (noise_above_threshold (test_channel_with true false 2)); [discriminate|].
  split; reflexivity.
Qed.

Lemma strong_channel_values :
  let c := set_sig_power fone fzero (test_channel true false) in
  fgt (fmul (signal_amplitude c) (output_gain (output c)))
      (output_headroom (output c)) = true
  /\ fgt (fdiv (output_headroom (output c)) (signal_amplitude c)) fzero = true
  /\ powf (fdiv (fdiv (output_headroom (output c)) (signal_amplitude c))
                (output_gain (output c))) (fdiv fone (of_int 1))
     = FFin (1 / 8)
  /\ float_to_int (linear_hangtime (linear c)) = 55.
Proof.
  cbv zeta. unfold signal_amplitude.
  cbn [set_sig_power set_sig sig sig_bb_power output output_gain output_headroom
       linear linear_hangtime test_channel test_channel_with].
  rewrite sqrtf_one.
  replace (fdiv (FFin (1 / 2)) fone) with (FFin (1 / 2))
    by (funfold; rdec; f_equal; lra).
  replace (fdiv (FFin (1 / 2)) (FFin 4)) with (FFin (1 / 8))
    by (funfold; rdec; f_equal; lra).
  split; [apply fgt_fin; lra|]. split; [apply fgt_fin; lra|].
  split; [apply powf_first; lra|].
  apply (float_to_int_small 55); unfold INT_MIN, INT_MAX; lia.
Qed.

(** C2 on two blocks of the test channel: a silent block while the hang
    counter is at 3 holds the gain and leaves the counter at 2; a block
    of unit amplitude at gain 4 is a strong signal, ramps to 1/2 in one
    sample and restarts the counter at the hang time, 55 blocks. *)
Lemma agc_decision_witness :
  (exists c',
     agc_stage 1 (set_hangcount 3 (test_channel true false)) = Done (c', fone)
     /\ hangcount c' = 2)
  /\ (exists c',
        agc_stage 1 (set_sig_power fone fzero (test_channel true false))
        = Done (c', FFin (1 / 8))
        /\ hangcount c' = 55).
Proof.
  split.
  - destruct (agc_decision 1 (set_hangcount 3 (test_channel true false)) eq_refl
                ltac:(unfold INT_MIN, INT_MAX; cbn; lia))
      as (_ & _ & _ & _ & _ & Hdone & Hhang).
    destruct hanging_channel_quiet as (Hs & Hn).
    unfold strong_signal in Hs. unfold noise_above_threshold in Hn.
    cbv zeta in Hdone, Hhang.
    rewrite Hs, Hn in Hdone, Hhang.
    specialize (Hhang eq_refl eq_refl eq_refl).
    destruct (Hdone Hhang) as (c' & E & Hc & _).
    exists c'. split; [exact E | exact Hc].
  - destruct (agc_decision 1 (set_sig_power fone fzero (test_channel true false))
                eq_refl ltac:(unfold INT_MIN, INT_MAX; cbn; lia))
      as (_ & _ & _ & _ & _ & Hdone & _).
    destruct strong_channel_values as (Hs & Ht & Hp & Hc).
    cbv zeta in Hdone, Hs, Ht, Hp, Hc.
    rewrite Hs, Ht, Hp, Hc in Hdone.
    destruct (Hdone ltac:(funfold; rdec; reflexivity))
      as (c' & E & Hcount & _).
    exists c'. split; [exact E | exact Hcount].
Defined.

Local Close Scope Z_scope.

(** C3 on that block: SNR 8 is above the open threshold 6 >= 5. *)
Lemma lock_hysteresis_witness :
  pll_lock_count
    (chan_pll (fst (pll_stage 1 (test_channel false true) [Cplx (FFin 3) fone])))
  = Z.min (0 + 1) 1.
Proof.
  destruct (lock_hysteresis 1 (test_channel false true) [Cplx (FFin 3) fone]
              eq_refl
              ltac:(unfold INT_MIN, INT_MAX; lia)
              ltac:(unfold INT_MIN; cbn; lia)
              ltac:(unfold INT_MAX; cbn; lia))
    as (_ & _ & Hup & _).
  apply Hup.
  - unfold fle, fcompare.
    cbn [test_channel test_channel_with fm fm_squelch_close fm_squelch_open].
    destruct (Rlt_dec 5 6); [reflexivity | lra].
  - destruct lock_acquired as (Hsnr & _). rewrite Hsnr.
    apply fgt_fin. cbn [test_channel test_channel_with fm fm_squelch_open]. lra.
Defined.

End LinearFacts.

(** ** The rest of the status codec: bytes, strings, vectors, floats, sockets, polls *)

Module CodecFacts.
Import Status StatusFacts.
Local Open Scope Z_scope.

(** What [encode_int64] leaves in memory, with the length as a [nat]. *)
Lemma encode_int64_layout (m : memory) (bp type x : Z) :
  0 <= x < 2 ^ 64 ->
  exists len : nat,
    (len <= 8)%nat
    /\ x < pow256 len
    /\ (len = O \/ pow256 (len - 1) <= x)
    /\ load (mem (encode_int64 m bp type x)) bp = uint8 type
    /\ load (mem (encode_int64 m bp type x)) (bp + 1) = Z.of_nat len
    /\ buf (encode_int64 m bp type x) = bp + 2 + Z.of_nat len
    /\ ret (encode_int64 m bp type x) = 2 + Z.of_nat len
    /\ decode_int (mem (encode_int64 m bp type x)) (bp + 2) (Z.of_nat len) = x
    /\ (forall a, a < bp \/ bp + 2 + Z.of_nat len <= a ->
          mem (encode_int64 m bp type x) a = m a).
Proof.
  intros Hx. unfold encode_int64.
  destruct (Z.eqb_spec x 0) as [-> | Hnz].
  - exists O. cbn [mem buf ret]. change (pow256 0) with 1.
    repeat split; try lia.
    + unfold load. rewrite store_other by lia.
      fold (load (store m bp type) bp). apply load_store_same.
    + apply load_store_same.
    + intros a Ha. rewrite !store_other by lia. reflexivity.
  - destruct (skip_leading_spec 8 0 x eq_refl) as (l & E & Hle & Hlt & Hmin).
    { rewrite pow256_8. exact Hx. }
    change (pow256 0) with 1 in E. rewrite Z.mul_1_r in E. rewrite E.
    set (m1 := store (store m bp type) (bp + 1) (Z.of_nat l)).
    destruct (put_bytes_spec l (8 - l) x m1 (bp + 1 + 1) ltac:(lia) ltac:(lia))
      as (Hcp & Hframe & Hval & Hbytes).
    destruct (put_bytes l (x * pow256 (8 - l)) m1 (bp + 1 + 1)) as [m2 cp2] eqn:Ep.
    cbn [fst snd] in *. cbn [mem buf ret].
    exists l. split; [exact Hle|]. split; [exact Hlt|]. split; [exact Hmin|].
    split; [|split; [|split; [|split; [|split]]]]; try lia.
    + unfold load. rewrite Hframe by lia. unfold m1.
      rewrite store_other by lia.
      fold (load (store m bp type) bp). apply load_store_same.
    + unfold load. rewrite Hframe by lia. unfold m1.
      fold (load (store (store m bp type) (bp + 1) (Z.of_nat l)) (bp + 1)).
      rewrite load_store_same. apply uint8_small. lia.
    + unfold decode_int. rewrite Nat2Z.id.
      replace (bp + 2) with (bp + 1 + 1) by lia.
      rewrite decode_loop_spec; rewrite ?Hval; lia.
    + intros a Ha. rewrite Hframe by lia. unfold m1.
      rewrite !store_other by lia. reflexivity.
Qed.

Lemma pow256_mono (a b : nat) : (a <= b)%nat -> pow256 a <= pow256 b.
Proof. intros H. unfold pow256. apply Z.pow_le_mono_r; lia. Qed.

(** A value that fits [k] bytes is sent in at most [k] bytes. *)
Lemma encode_int64_fits (k : nat) (m : memory) (bp type x : Z) :
  (k <= 8)%nat -> 0 <= x < pow256 k ->
  let e := encode_int64 m bp type x in
  let len := load (mem e) (bp + 1) in
  0 <= len <= Z.of_nat k
  /\ load (mem e) bp = uint8 type
  /\ ret e = 2 + len
  /\ buf e = bp + ret e
  /\ decode_int (mem e) (bp + 2) len = x
  /\ (forall a, a < bp \/ bp + ret e <= a -> mem e a = m a).
Proof.
  intros Hk Hx e len. subst e len.
  assert (H64 : 0 <= x < 2 ^ 64).
  { rewrite <- pow256_8. pose proof (pow256_mono k 8 Hk). lia. }
  destruct (encode_int64_layout m bp type x H64)
    as (l & Hle & Hlt & Hmin & Ht & Hl & Hb & Hr & Hd & Hf).
  rewrite Hl, Hr, Hb.
  assert (Hlk : (l <= k)%nat).
  { destruct Hmin as [-> | Hmin]; [lia|].
    destruct (Nat.le_gt_cases l k) as [|Hgt]; [assumption|].
    pose proof (pow256_mono k (l - 1) ltac:(lia)). lia. }
  repeat split; try lia; try assumption.
  intros a Ha. apply Hf. lia.
Qed.

Lemma uint_range (w : Z) (x : Z) : 0 < w -> 0 <= x mod 2 ^ w < 2 ^ w.
Proof. intros Hw. apply Z.mod_pos_bound. apply Z.pow_pos_nonneg; lia. Qed.

(** X1.  [encode_int16] and [encode_int32] send their argument, reduced to
    its 16 or 32 bits, in at most 2 or 4 payload bytes: the length byte
    is at most 2 (4), the return value is 2 plus the length and is the
    distance the pointer moved, no byte outside the option is written,
    and [decode_int] over the payload returns the reduced argument. *)
Theorem narrow_int_roundtrip (m : memory) (bp type x : Z) :
  (let e := encode_int16 m bp type x in
   let len := load (mem e) (bp + 1) in
   0 <= len <= 2
   /\ load (mem e) bp = uint8 type
   /\ ret e = 2 + len
   /\ buf e = bp + ret e
   /\ decode_int (mem e) (bp + 2) len = uint16 x
   /\ (forall a, a < bp \/ bp + ret e <= a -> mem e a = m a))
  /\
  (let e := encode_int32 m bp type x in
   let len := load (mem e) (bp + 1) in
   0 <= len <= 4
   /\ load (mem e) bp = uint8 type
   /\ ret e = 2 + len
   /\ buf e = bp + ret e
   /\ decode_int (mem e) (bp + 2) len = uint32 x
   /\ (forall a, a < bp \/ bp + ret e <= a -> mem e a = m a)).
Proof.
  split.
  - unfold encode_int16.
    assert (H : 0 <= uint16 x < pow256 2) by (apply (uint_range 16); lia).
    rewrite uint64_small by (change (pow256 2) with (2 ^ 16) in H; lia).
    exact (encode_int64_fits 2 m bp type (uint16 x) ltac:(lia) H).
  - unfold encode_int32.
    assert (H : 0 <= uint32 x < pow256 4) by (apply (uint_range 32); lia).
    rewrite uint64_small by (change (pow256 4) with (2 ^ 32) in H; lia).
    exact (encode_int64_fits 4 m bp type (uint32 x) ltac:(lia) H).
Qed.

Lemma int32_range z : - 2 ^ 31 <= int32 z < 2 ^ 31.
Proof.
  unfold int32. pose proof (Z.mod_pos_bound (z + 2 ^ 31) (2 ^ 32) ltac:(lia)). lia.
Qed.

Lemma int32_uint64 z : - 2 ^ 31 <= z < 2 ^ 31 -> int32 (uint64 z) = z.
Proof.
  intros H. unfold int32, uint64.
  change (2 ^ 64) with 18446744073709551616.
  change (2 ^ 32) with 4294967296. change (2 ^ 31) with 2147483648 in *.
  Z.to_euclidean_division_equations. lia.
Qed.

(** X2.  [encode_int] sends a C [int] through its sign-extended 64-bit
    image: a non-negative value takes at most 4 payload bytes, a
    negative one always takes all 8, and narrowing what [decode_int]
    returns to an [int] gives the value back. *)
Theorem encode_int_roundtrip (m : memory) (bp type x : Z) :
  let e := encode_int m bp type x in
  let len := load (mem e) (bp + 1) in
  (0 <= int32 x -> 0 <= len <= 4)
  /\ (int32 x < 0 -> len = 8)
  /\ load (mem e) bp = uint8 type
  /\ ret e = 2 + len
  /\ buf e = bp + ret e
  /\ decode_int (mem e) (bp + 2) len = uint64 (int32 x)
  /\ int32 (decode_int (mem e) (bp + 2) len) = int32 x
  /\ (forall a, a < bp \/ bp + ret e <= a -> mem e a = m a).
Proof.
  intros e len. subst e len. unfold encode_int.
  pose proof (int32_range x) as Hr.
  assert (H64 : 0 <= uint64 (int32 x) < 2 ^ 64) by (apply (uint_range 64); lia).
  destruct (encode_int64_layout m bp type (uint64 (int32 x)) H64)
    as (l & Hle & Hlt & Hmin & Ht & Hl & Hb & Hre & Hd & Hf).
  rewrite Hl, Hre, Hb, Hd.
  split; [|split; [|split; [|split; [|split; [|split; [|split]]]]]];
    try lia; try assumption; try reflexivity.
  - intros Hpos. rewrite uint64_small in Hmin by lia.
    destruct Hmin as [-> | Hmin]; [lia|].
    destruct (Nat.le_gt_cases l 4) as [|Hgt]; [lia|].
    pose proof (pow256_mono 4 (l - 1) ltac:(lia)) as Hm.
    change (pow256 4) with (2 ^ 32) in Hm. lia.
  - intros Hneg.
    assert (E : uint64 (int32 x) = int32 x + 2 ^ 64).
    { unfold uint64. rewrite <- (Z.mod_add _ 1) by lia.
      rewrite Z.mod_small by lia. lia. }
    rewrite E in Hlt.
    destruct (Nat.eq_dec l 8) as [-> | Hne]; [reflexivity|].
    pose proof (pow256_mono l 7 ltac:(lia)) as Hm.
    change (pow256 7) with (2 ^ 56) in Hm. lia.
  - apply int32_uint64. exact Hr.
  - intros a Ha. apply Hf. lia.
Qed.

Lemma load_store_other m p v a : a <> p -> load (store m p v) a = load m a.
Proof. intros H. unfold load. rewrite store_other by exact H. reflexivity. Qed.

Lemma skip_leading_byte x : 0 < x < 256 -> skip_leading 8 x = (1%nat, x * pow256 7).
Proof.
  intros Hx.
  destruct (skip_leading_spec 8 0 x eq_refl) as (l & E & Hle & Hlt & Hmin).
  { rewrite pow256_8. lia. }
  change (pow256 0) with 1 in E. rewrite Z.mul_1_r in E. rewrite E.
  assert (l = 1%nat) as ->; [|reflexivity].
  destruct Hmin as [-> | Hmin]; [change (pow256 0) with 1 in Hlt; lia|].
  destruct (Nat.le_gt_cases l 1) as [|Hgt].
  - destruct l as [|[|l]]; [change (pow256 0) with 1 in Hlt; lia | reflexivity | lia].
  - pose proof (pow256_mono 1 (l - 1) ltac:(lia)) as Hm.
    change (pow256 1) with 256 in Hm. lia.
Qed.

(** X3.  [encode_byte] writes exactly what [encode_int64] writes for the
    same 8-bit value: the same return value, the same pointer and the
    same memory.  A zero byte is sent with length 0, any other with
    length 1, and [decode_int] over the payload returns the byte. *)
Theorem encode_byte_as_int64 (m : memory) (bp type x : Z) :
  let e := encode_byte m bp type x in
  let e' := encode_int64 m bp type (uint8 x) in
  let len := load (mem e) (bp + 1) in
  ret e = ret e' /\ buf e = buf e' /\ (forall a, mem e a = mem e' a)
  /\ len = (if uint8 x =? 0 then 0 else 1)
  /\ ret e = 2 + len
  /\ buf e = bp + ret e
  /\ decode_int (mem e) (bp + 2) len = uint8 x
  /\ (forall a, a < bp \/ bp + ret e <= a -> mem e a = m a).
Proof.
  intros e e' len. subst e e' len. unfold encode_byte, encode_int64.
  pose proof (uint_range 8 x ltac:(lia)) as Hr. fold (uint8 x) in Hr.
  change (2 ^ 8) with 256 in Hr.
  destruct (Z.eqb_spec (uint8 x) 0) as [E0 | Hnz].
  - cbn [mem buf ret]. rewrite load_store_same.
    repeat split; try lia; try reflexivity.
    all: try (intros a Ha; rewrite !store_other by lia; reflexivity).
    rewrite E0. reflexivity.
  - rewrite skip_leading_byte by lia.
    cbn [put_bytes mem buf ret].
    destruct (byte_of_scaled 0 7 (uint8 x) eq_refl) as (Hb & _ & _).
    { change (pow256 1) with 256. lia. }
    change (pow256 0) with 1 in Hb. rewrite Z.div_1_r in Hb. rewrite Hb.
    change (Z.of_nat 1) with 1.
    assert (Hlen : load (store (store (store m bp type) (bp + 1) 1) (bp + 1 + 1)
                          (uint8 x)) (bp + 1) = 1).
    { rewrite load_store_other by lia. rewrite load_store_same. reflexivity. }
    rewrite Hlen.
    repeat split; try lia; try reflexivity.
    + unfold decode_int. change (Z.to_nat 1) with 1%nat. cbn [decode_loop].
      replace (bp + 2) with (bp + 1 + 1) by lia.
      rewrite load_store_same.
      change (uint64 (Z.shiftl 0 8)) with 0. rewrite Z.lor_0_l.
      apply uint8_small. apply uint_range. lia.
    + intros a Ha. rewrite !store_other by lia. reflexivity.
Qed.

Lemma memcpy_in m dst src n a :
  dst <= a < dst + n -> memcpy m dst src n a = load m (src + (a - dst)).
Proof.
  intros H. unfold memcpy.
  replace (dst <=? a) with true by (symmetry; apply Z.leb_le; lia).
  replace (a <? dst + n) with true by (symmetry; apply Z.ltb_lt; lia).
  reflexivity.
Qed.

Lemma memcpy_out m dst src n a :
  a < dst \/ dst + n <= a -> memcpy m dst src n a = m a.
Proof.
  intros H. unfold memcpy.
  destruct (Z.leb_spec dst a); [|reflexivity].
  replace (a <? dst + n) with false by (symmetry; apply Z.ltb_ge; lia).
  reflexivity.
Qed.

Lemma load_load m p : uint8 (load m p) = load m p.
Proof. apply uint8_small. apply load_range. Qed.

Lemma load_memcpy_in m dst src n a :
  dst <= a < dst + n -> load (memcpy m dst src n) a = load m (src + (a - dst)).
Proof. intros H. unfold load at 1. rewrite memcpy_in by exact H. apply load_load. Qed.

Lemma load_memcpy_out m dst src n a :
  a < dst \/ dst + n <= a -> load (memcpy m dst src n) a = load m a.
Proof. intros H. unfold load at 1. rewrite memcpy_out by exact H. reflexivity. Qed.

(** What [encode_string] leaves in memory. *)
Lemma encode_string_layout (m : memory) (bp type src buflen : Z) :
  0 <= buflen ->
  let n := Z.min buflen 255 in
  let e := encode_string m bp type src buflen in
  src + n <= bp \/ bp + 2 <= src ->
  load (mem e) bp = uint8 type
  /\ load (mem e) (bp + 1) = n
  /\ ret e = 2 + n
  /\ buf e = bp + ret e
  /\ (forall i, 0 <= i < n -> load (mem e) (bp + 2 + i) = load m (src + i))
  /\ (forall a, a < bp \/ bp + ret e <= a -> mem e a = m a).
Proof.
  intros Hlen n e Hsep. subst e. unfold encode_string.
  assert (En : (if buflen >? 255 then 255 else buflen) = n).
  { subst n. destruct (Z.gtb_spec buflen 255); lia. }
  rewrite En. cbn [mem buf ret].
  assert (Hn : 0 <= n <= 255) by (subst n; lia).
  split; [|split; [|split; [|split; [|split]]]]; try lia.
  - rewrite load_memcpy_out by lia. rewrite load_store_other by lia.
    apply load_store_same.
  - rewrite load_memcpy_out by lia. rewrite load_store_same.
    apply uint8_small. lia.
  - intros i Hi. rewrite load_memcpy_in by lia.
    replace (src + (bp + 2 + i - (bp + 1 + 1))) with (src + i) by lia.
    rewrite !load_store_other by lia. reflexivity.
  - intros a Ha. rewrite memcpy_out by lia.
    rewrite !store_other by lia. reflexivity.
Qed.

(** X4.  [decode_string] copies [min(optlen, buflen - 1)] bytes, puts a
    null byte after them and writes nothing outside the [buflen] bytes
    of the destination: an option longer than the destination is cut
    short, not overrun. *)
Theorem decode_string_bounded (m : memory) (cp optlen dst buflen : Z) :
  0 <= optlen -> 1 <= buflen ->
  let n := Z.min optlen (buflen - 1) in
  let m' := decode_string m cp optlen dst buflen in
  (forall i, 0 <= i < n -> load m' (dst + i) = load m (cp + i))
  /\ load m' (dst + n) = 0
  /\ (forall a, a < dst \/ dst + buflen <= a -> m' a = m a).
Proof.
  intros Ho Hb n m'. subst m'. unfold decode_string. fold n.
  assert (Hn : 0 <= n < buflen) by (subst n; lia).
  split; [|split].
  - intros i Hi. rewrite load_store_other by lia.
    rewrite load_memcpy_in by lia. f_equal. lia.
  - rewrite load_store_same. reflexivity.
  - intros a Ha. rewrite store_other by lia. apply memcpy_out. lia.
Qed.

Lemma decode_string_bounded_witness :
  load (decode_string (fun a => a) 10 5 100 3) 100 = 10
  /\ load (decode_string (fun a => a) 10 5 100 3) 101 = 11
  /\ load (decode_string (fun a => a) 10 5 100 3) 102 = 0
  /\ decode_string (fun a => a) 10 5 100 3 103 = 103.
Proof.
  destruct (decode_string_bounded (fun a => a) 10 5 100 3 ltac:(lia) ltac:(lia))
    as (Hcopy & Hnull & Hframe).
  split; [exact (Hcopy 0 ltac:(lia))|].
  split; [exact (Hcopy 1 ltac:(lia))|].
  split; [exact Hnull|].
  exact (Hframe 103 ltac:(lia)).
Defined.

(** X5.  A string sent with [encode_string] and read back with
    [decode_string], using the length byte of the option, arrives
    byte for byte and null-terminated, up to 255 bytes: a longer string
    is cut to its first 255 bytes.  The source must not overlap the two
    header bytes and the destination must have room for the string and
    its terminator. *)
Theorem string_roundtrip (m : memory) (bp type src buflen dst dstlen : Z) :
  0 <= buflen ->
  let n := Z.min buflen 255 in
  src + n <= bp \/ bp + 2 <= src ->
  n < dstlen ->
  let e := encode_string m bp type src buflen in
  let m' := decode_string (mem e) (bp + 2) (load (mem e) (bp + 1)) dst dstlen in
  ret e = 2 + n
  /\ (forall i, 0 <= i < n -> load m' (dst + i) = load m (src + i))
  /\ load m' (dst + n) = 0.
Proof.
  intros Hlen n Hsep Hroom e m'. subst m'.
  destruct (encode_string_layout m bp type src buflen Hlen Hsep)
    as (_ & Hl & Hr & _ & Hbytes & _).
  fold e in Hl, Hr, Hbytes. fold n in Hl, Hr, Hbytes. rewrite Hl.
  assert (Hn : 0 <= n <= 255) by (subst n; lia).
  destruct (decode_string_bounded (mem e) (bp + 2) n dst dstlen ltac:(lia) ltac:(lia))
    as (Hcopy & Hnull & _).
  replace (Z.min n (dstlen - 1)) with n in Hcopy, Hnull by lia.
  split; [exact Hr|]. split; [|exact Hnull].
  intros i Hi. rewrite Hcopy by lia. apply Hbytes. lia.
Qed.

Lemma string_roundtrip_witness :
  ret (encode_string (fun a => a) 0 7 1000 300) = 257
  /\ load (decode_string (mem (encode_string (fun a => a) 0 7 1000 300)) 2
             (load (mem (encode_string (fun a => a) 0 7 1000 300)) 1) 2000 256)
          2254
     = load (fun a => a) 1254
  /\ load (decode_string (mem (encode_string (fun a => a) 0 7 1000 300)) 2
             (load (mem (encode_string (fun a => a) 0 7 1000 300)) 1) 2000 256)
          2255
     = 0.
Proof.
  destruct (string_roundtrip (fun a => a) 0 7 1000 300 2000 256
              ltac:(lia) ltac:(lia) ltac:(lia))
    as (Hr & Hcopy & Hnull).
  split; [exact Hr|].
  split; [exact (Hcopy 254 ltac:(lia))|exact Hnull].
Defined.

(** The four stores of the inner loop of [encode_vector]: since the
    pattern is shifted by 24 and not by 8, only its top byte and its
    lowest byte are sent, followed by two zero bytes. *)
Lemma put_float_spec (u : Z) (m : memory) (cp : Z) :
  0 <= u < 2 ^ 32 ->
  snd (put_float 4 u m cp) = cp + 4
  /\ load (fst (put_float 4 u m cp)) cp = u / 2 ^ 24
  /\ load (fst (put_float 4 u m cp)) (cp + 1) = u mod 256
  /\ load (fst (put_float 4 u m cp)) (cp + 2) = 0
  /\ load (fst (put_float 4 u m cp)) (cp + 3) = 0
  /\ (forall a, a < cp \/ cp + 4 <= a -> fst (put_float 4 u m cp) a = m a).
Proof.
  intros Hu. cbn [put_float fst snd].
  assert (E1 : uint32 (Z.shiftl u 24) = (u mod 256) * 2 ^ 24).
  { unfold uint32. rewrite Z.shiftl_mul_pow2 by lia.
    change (2 ^ 32) with (2 ^ 8 * 2 ^ 24).
    rewrite Z.mul_mod_distr_r by lia. reflexivity. }
  assert (Hb : 0 <= u mod 256 < 256) by (apply Z.mod_pos_bound; lia).
  assert (E2 : uint32 (Z.shiftl ((u mod 256) * 2 ^ 24) 24) = 0).
  { unfold uint32. rewrite Z.shiftl_mul_pow2 by lia.
    replace (u mod 256 * 2 ^ 24 * 2 ^ 24) with ((u mod 256 * 2 ^ 16) * 2 ^ 32)
      by (change (2 ^ 32) with (2 ^ 16 * 2 ^ 16);
          change (2 ^ 24) with (2 ^ 16 * 2 ^ 8) at 2;
          change (2 ^ 24) with (2 ^ 8 * 2 ^ 16); ring).
    apply Z.mod_mul. lia. }
  rewrite E1, E2.
  assert (S0 : Z.shiftr u 24 = u / 2 ^ 24) by (apply Z.shiftr_div_pow2; lia).
  assert (S1 : Z.shiftr (u mod 256 * 2 ^ 24) 24 = u mod 256).
  { rewrite Z.shiftr_div_pow2 by lia. apply Z.div_mul. lia. }
  rewrite S0, S1. change (Z.shiftr 0 24) with 0.
  change (uint32 (Z.shiftl 0 24)) with 0.
  assert (Htop : 0 <= u / 2 ^ 24 < 256).
  { split; [apply Z.div_pos; lia|]. apply Z.div_lt_upper_bound; lia. }
  split; [lia|].
  split; [rewrite !load_store_other by lia; rewrite load_store_same;
          apply uint8_small; exact Htop|].
  split; [replace (cp + 1 + 1 + 1) with (cp + 3) by lia;
          rewrite !load_store_other by lia; rewrite load_store_same;
          apply uint8_small; exact Hb|].
  split; [replace (cp + 1 + 1) with (cp + 2) by lia;
          rewrite !load_store_other by lia; rewrite load_store_same;
          reflexivity|].
  split; [replace (cp + 1 + 1 + 1) with (cp + 3) by lia;
          rewrite load_store_same; reflexivity|].
  intros a Ha. rewrite !store_other by lia. reflexivity.
Qed.

Lemma put_vector_spec (float_bits : cfloat -> Z) (array : nat -> cfloat) (n : nat) :
  forall (i : nat) (m : memory) (cp : Z),
  snd (put_vector float_bits n i array m cp) = cp + 4 * Z.of_nat n
  /\ (forall a, a < cp \/ cp + 4 * Z.of_nat n <= a ->
        fst (put_vector float_bits n i array m cp) a = m a)
  /\ (forall j : nat, (j < n)%nat ->
        let u := uint32 (float_bits (array (i + j)%nat)) in
        let p := cp + 4 * Z.of_nat j in
        let m' := fst (put_vector float_bits n i array m cp) in
        load m' p = u / 2 ^ 24 /\ load m' (p + 1) = u mod 256
        /\ load m' (p + 2) = 0 /\ load m' (p + 3) = 0).
Proof.
  induction n as [|n IH]; intros i m cp.
  - cbn [put_vector fst snd]. split; [lia|]. split; [reflexivity|]. intros j Hj. lia.
  - cbn [put_vector].
    pose proof (uint_range 32 (float_bits (array i)) ltac:(lia)) as Hu.
    fold (uint32 (float_bits (array i))) in Hu.
    destruct (put_float_spec (uint32 (float_bits (array i))) m cp Hu)
      as (Hcp & H0 & H1 & H2 & H3 & Hf).
    destruct (put_float 4 (uint32 (float_bits (array i))) m cp) as [m1 cp1].
    cbn [fst snd] in *. subst cp1.
    destruct (IH (S i) m1 (cp + 4)) as (Hcp' & Hf' & Hb').
    split; [lia|]. split.
    + intros a Ha. rewrite Hf' by lia. apply Hf. lia.
    + intros j Hj.
      destruct j as [|j].
      * rewrite Nat.add_0_r. change (Z.of_nat 0) with 0. rewrite Z.mul_0_r, Z.add_0_r.
        unfold load in *. rewrite !Hf' by lia. tauto.
      * specialize (Hb' j ltac:(lia)). cbv zeta in Hb'.
        replace (S i + j)%nat with (i + S j)%nat in Hb' by lia.
        replace (cp + 4 + 4 * Z.of_nat j) with (cp + 4 * Z.of_nat (S j)) in Hb' by lia.
        exact Hb'.
Qed.

Lemma decode_int_4 (m : memory) (cp : Z) :
  decode_int m cp 4
  = load m cp * 2 ^ 24 + load m (cp + 1) * 2 ^ 16
    + load m (cp + 2) * 2 ^ 8 + load m (cp + 3).
Proof.
  unfold decode_int. change (Z.to_nat 4) with 4%nat.
  pose proof (load_range m cp). pose proof (load_range m (cp + 1)).
  pose proof (load_range m (cp + 1 + 1)). pose proof (load_range m (cp + 1 + 1 + 1)).
  rewrite decode_loop_spec; cbn [be_value]; unfold pow256;
    change (256 ^ Z.of_nat 3) with 16777216; change (256 ^ Z.of_nat 2) with 65536;
    change (256 ^ Z.of_nat 1) with 256; change (256 ^ Z.of_nat 0) with 1;
    change (256 ^ Z.of_nat 4) with 4294967296;
    change (2 ^ 64) with 18446744073709551616;
    change (2 ^ 24) with 16777216; change (2 ^ 16) with 65536;
    change (2 ^ 8) with 256;
    replace (cp + 1 + 1) with (cp + 2) in * by lia;
    replace (cp + 2 + 1) with (cp + 3) in * by lia; lia.
Qed.

(** X6.  [encode_vector] writes the type, the length byte 252 and 63
    groups of four bytes, returns 254 and advances the pointer by 254.
    Because the inner loop shifts the bit pattern of the float by 24
    and not by 8, each group holds the top byte of the pattern, then its
    lowest byte, then two zero bytes: read back as a 32-bit integer the
    group is the float's pattern exactly when the low 24 bits of the
    pattern are zero. *)
Theorem encode_vector_layout (float_bits : cfloat -> Z) (m : memory)
    (bp type : Z) (array : nat -> cfloat) :
  let e := encode_vector float_bits m bp type array in
  load (mem e) bp = uint8 type
  /\ load (mem e) (bp + 1) = 252
  /\ ret e = 254
  /\ buf e = bp + 254
  /\ (forall a, a < bp \/ bp + 254 <= a -> mem e a = m a)
  /\ (forall i : nat, (i < 63)%nat ->
        let u := uint32 (float_bits (array i)) in
        let p := bp + 2 + 4 * Z.of_nat i in
        load (mem e) p = u / 2 ^ 24
        /\ load (mem e) (p + 1) = u mod 256
        /\ load (mem e) (p + 2) = 0
        /\ load (mem e) (p + 3) = 0
        /\ decode_int (mem e) p 4 = u / 2 ^ 24 * 2 ^ 24 + u mod 256 * 2 ^ 16
        /\ (decode_int (mem e) p 4 = u <-> u mod 2 ^ 24 = 0)).
Proof.
  intros e. subst e. unfold encode_vector.
  destruct (put_vector_spec float_bits array 63 0%nat
              (store (store m bp type) (bp + 1) 252) (bp + 1 + 1))
    as (Hcp & Hf & Hb).
  destruct (put_vector float_bits 63 0 array
              (store (store m bp type) (bp + 1) 252) (bp + 1 + 1)) as [m1 cp1].
  cbn [fst snd mem buf ret] in *.
  split; [unfold load; rewrite Hf by lia; fold (load (store (store m bp type) (bp + 1) 252) bp);
          rewrite load_store_other by lia; apply load_store_same|].
  split; [unfold load; rewrite Hf by lia;
          fold (load (store (store m bp type) (bp + 1) 252) (bp + 1));
          rewrite load_store_same; reflexivity|].
  split; [reflexivity|]. split; [lia|].
  split; [intros a Ha; rewrite Hf by lia; rewrite !store_other by lia; reflexivity|].
  intros i Hi.
  set (u := uint32 (float_bits (array i))). set (p := bp + 2 + 4 * Z.of_nat i).
  specialize (Hb i Hi). cbv zeta in Hb. rewrite Nat.add_0_l in Hb. fold u in Hb.
  replace (bp + 1 + 1 + 4 * Z.of_nat i) with p in Hb by (subst p; lia).
  destruct Hb as (H0 & H1 & H2 & H3).
  assert (Hd : decode_int m1 p 4 = u / 2 ^ 24 * 2 ^ 24 + u mod 256 * 2 ^ 16).
  { rewrite decode_int_4, H0, H1, H2, H3. lia. }
  split; [exact H0|]. split; [exact H1|]. split; [exact H2|]. split; [exact H3|].
  split; [exact Hd|].
  rewrite Hd.
  pose proof (uint_range 32 (float_bits (array i)) ltac:(lia)) as Hu.
  fold (uint32 (float_bits (array i))) in Hu. fold u in Hu.
  change (2 ^ 24) with 16777216. change (2 ^ 16) with 65536.
  change (2 ^ 32) with 4294967296 in Hu.
  clear - Hu. Z.to_euclidean_division_equations. lia.
Qed.

Section UnionFacts.
Variable float_bits : cfloat -> Z.
Variable double_bits : cfloat -> Z.
Variable float_of_ll : Z -> cfloat.
Variable double_of_ll : Z -> cfloat.
Variable to_float : cfloat -> cfloat.

(** X7.  A float that is not a NaN survives [encode_float] followed by
    [decode_float] on the payload, whatever number of leading zero
    bytes was suppressed (assuming that reading back the stored bit
    pattern gives the float, and that the all-zero pattern is 0.0).
    The option has at most 4 payload bytes. *)
Theorem float_roundtrip (m : memory) (bp type : Z) (x : cfloat) :
  isnan x = false ->
  float_of_ll 0 = fzero ->
  float_of_ll (uint32 (float_bits x)) = x ->
  let e := encode_float float_bits m bp type x in
  let len := load (mem e) (bp + 1) in
  0 <= len <= 4
  /\ ret e = 2 + len
  /\ decode_float float_of_ll double_of_ll to_float (mem e) (bp + 2) len = Some x.
Proof.
  intros Hnan Hzero Hpun e len. subst e len. unfold encode_float. rewrite Hnan.
  unfold encode_int32.
  assert (H : 0 <= uint32 (float_bits x) < pow256 4) by (apply (uint_range 32); lia).
  rewrite uint64_small by (change (pow256 4) with (2 ^ 32) in H; lia).
  destruct (encode_int64_fits 4 m bp type (uint32 (float_bits x)) ltac:(lia) H)
    as (Hlen & _ & Hret & _ & Hdec & _).
  change (Z.of_nat 4) with 4 in Hlen.
  split; [exact Hlen|]. split; [exact Hret|].
  unfold decode_float. cbn [decode_float_n].
  destruct (Z.eqb_spec (load (mem (encode_int64 m bp type (uint32 (float_bits x))))
                          (bp + 1)) 0) as [E0 | Hnz].
  - rewrite E0 in Hdec. unfold decode_int in Hdec. cbn in Hdec.
    rewrite <- Hdec in Hpun. rewrite <- Hpun. rewrite Hzero. reflexivity.
  - replace (_ =? 8) with false by (symmetry; apply Z.eqb_neq; lia).
    rewrite Hdec, Hpun. reflexivity.
Qed.

(** X8.  A double that is not a NaN survives [encode_double] followed by
    [decode_double], except when its bit pattern needs exactly four
    bytes (patterns from 2^24 to 2^32 - 1, which are subnormal
    doubles): [decode_double] hands a four-byte payload to
    [decode_float], so such a value comes back as the float with that
    bit pattern. *)
Theorem double_roundtrip (m : memory) (bp type : Z) (x : cfloat) :
  isnan x = false ->
  double_of_ll 0 = fzero ->
  double_of_ll (uint64 (double_bits x)) = x ->
  let b := uint64 (double_bits x) in
  let e := encode_double double_bits m bp type x in
  let len := load (mem e) (bp + 1) in
  0 <= len <= 8
  /\ ret e = 2 + len
  /\ (len = 4 <-> 2 ^ 24 <= b < 2 ^ 32)
  /\ decode_double float_of_ll double_of_ll to_float (mem e) (bp + 2) len
     = Some (if len =? 4 then float_of_ll b else x).
Proof.
  intros Hnan Hzero Hpun b e len. subst e len. unfold encode_double. rewrite Hnan.
  assert (H64 : 0 <= b < 2 ^ 64) by (apply (uint_range 64); lia).
  fold b.
  destruct (encode_int64_layout m bp type b H64)
    as (l & Hle & Hlt & Hmin & _ & Hl & _ & Hr & Hd & _).
  rewrite Hl, Hr.
  split; [lia|]. split; [reflexivity|]. split.
  - split.
    + intros E. assert (l = 4%nat) as -> by lia.
      destruct Hmin as [? | Hmin]; [discriminate|].
      change (pow256 (4 - 1)) with (2 ^ 24) in Hmin.
      change (pow256 4) with (2 ^ 32) in Hlt. lia.
    + intros [Hlo Hhi].
      destruct (Nat.lt_trichotomy l 4) as [Hl4 | [-> | Hl4]]; [|reflexivity|].
      * pose proof (pow256_mono l 3 ltac:(lia)) as Hm.
        change (pow256 3) with (2 ^ 24) in Hm. lia.
      * destruct Hmin as [-> | Hmin]; [lia|].
        pose proof (pow256_mono 4 (l - 1) ltac:(lia)) as Hm.
        change (pow256 4) with (2 ^ 32) in Hm. lia.
  - unfold decode_double. cbn [decode_double_n decode_float_n].
    destruct (Z.eqb_spec (Z.of_nat l) 0) as [E0 | Hnz].
    + replace (Z.of_nat l =? 4) with false by (symmetry; apply Z.eqb_neq; lia).
      rewrite E0 in Hd. unfold decode_int in Hd. cbn in Hd.
      fold b in Hpun. rewrite <- Hd in Hpun. rewrite <- Hpun, Hzero. reflexivity.
    + destruct (Z.eqb_spec (Z.of_nat l) 4) as [E4 | Hn4].
      * rewrite E4. cbn [Z.eqb Pos.eqb]. rewrite <- E4, Hd. reflexivity.
      * rewrite Hd. fold b in Hpun. rewrite Hpun. reflexivity.
Qed.

(** X9.  The two decoders accept each other's wire format.  A float sent
    with [encode_float] in four bytes is read by [decode_double] as
    that float, exactly.  A double sent with [encode_double] in eight
    bytes is read by [decode_float] as that double narrowed by the cast
    to [float]: rounded, so it is the double itself only when a [float]
    can hold it.  The mutual calls end after one hop. *)
Theorem cross_decoding (m : memory) (bp type : Z) (x : cfloat) :
  isnan x = false ->
  (float_of_ll (uint32 (float_bits x)) = x ->
   2 ^ 24 <= uint32 (float_bits x) ->
   let e := encode_float float_bits m bp type x in
   load (mem e) (bp + 1) = 4
   /\ decode_double float_of_ll double_of_ll to_float (mem e) (bp + 2) 4 = Some x)
  /\
  (double_of_ll (uint64 (double_bits x)) = x ->
   2 ^ 56 <= uint64 (double_bits x) ->
   let e := encode_double double_bits m bp type x in
   load (mem e) (bp + 1) = 8
   /\ decode_float float_of_ll double_of_ll to_float (mem e) (bp + 2) 8
      = Some (to_float x)
   /\ (to_float x = x ->
       decode_float float_of_ll double_of_ll to_float (mem e) (bp + 2) 8 = Some x)).
Proof.
  intros Hnan. split.
  - intros Hpun Hbig e. subst e. unfold encode_float. rewrite Hnan.
    unfold encode_int32.
    assert (H : 0 <= uint32 (float_bits x) < 2 ^ 32) by (apply (uint_range 32); lia).
    rewrite uint64_small by lia.
    destruct (encode_int64_layout m bp type (uint32 (float_bits x)) ltac:(lia))
      as (l & Hle & Hlt & Hmin & _ & Hl & _ & _ & Hd & _).
    assert (l = 4%nat) as ->.
    { destruct (Nat.lt_trichotomy l 4) as [Hl4 | [-> | Hl4]]; [|reflexivity|].
      - pose proof (pow256_mono l 3 ltac:(lia)) as Hm.
        change (pow256 3) with (2 ^ 24) in Hm. lia.
      - destruct Hmin as [-> | Hmin]; [lia|].
        pose proof (pow256_mono 4 (l - 1) ltac:(lia)) as Hm.
        change (pow256 4) with (2 ^ 32) in Hm. lia. }
    change (Z.of_nat 4) with 4 in *.
    split; [exact Hl|].
    unfold decode_double. cbn [decode_double_n decode_float_n Z.eqb Pos.eqb].
    rewrite Hd, Hpun. reflexivity.
  - intros Hpun Hbig e. subst e. unfold encode_double. rewrite Hnan.
    assert (H : 0 <= uint64 (double_bits x) < 2 ^ 64) by (apply (uint_range 64); lia).
    destruct (encode_int64_layout m bp type (uint64 (double_bits x)) H)
      as (l & Hle & Hlt & Hmin & _ & Hl & _ & _ & Hd & _).
    assert (l = 8%nat) as ->.
    { destruct (Nat.eq_dec l 8) as [-> | Hne]; [reflexivity|].
      pose proof (pow256_mono l 7 ltac:(lia)) as Hm.
      change (pow256 7) with (2 ^ 56) in Hm. lia. }
    change (Z.of_nat 8) with 8 in *.
    split; [exact Hl|].
    assert (E : decode_float float_of_ll double_of_ll to_float
                  (mem (encode_int64 m bp type (uint64 (double_bits x)))) (bp + 2) 8
                = Some (to_float x)).
    { unfold decode_float.
      cbn [decode_double_n decode_float_n Z.eqb Pos.eqb option_map].
      rewrite Hd, Hpun. reflexivity. }
    split; [exact E|]. intros Hexact. rewrite E, Hexact. reflexivity.
Qed.

End UnionFacts.


Lemma float_roundtrip_witness :
  decode_float toy_of_ll toy_of_ll (fun x => x)
    (mem (encode_float toy_float_bits (fun _ => 0) 100 33 fone)) 102
    (load (mem (encode_float toy_float_bits (fun _ => 0) 100 33 fone)) 101)
  = Some fone.
Proof.
  exact (proj2 (proj2 (float_roundtrip toy_float_bits toy_of_ll toy_of_ll
                         (fun x => x)
                         (fun _ => 0) 100 33 fone eq_refl eq_refl eq_refl))).
Defined.

Lemma double_roundtrip_witness :
  decode_double toy_of_ll toy_of_ll (fun x => x)
    (mem (encode_double toy_double_bits (fun _ => 0) 100 33 fone)) 102
    (load (mem (encode_double toy_double_bits (fun _ => 0) 100 33 fone)) 101)
  = Some fone.
Proof.
  exact (proj2 (proj2 (proj2 (double_roundtrip toy_double_bits toy_of_ll toy_of_ll
                         (fun x => x)
                         (fun _ => 0) 100 33 fone eq_refl eq_refl eq_refl)))).
Defined.

Lemma cross_decoding_witness :
  decode_double toy_of_ll toy_of_ll (fun x => x)
    (mem (encode_float toy_float_bits (fun _ => 0) 100 33 fone)) 102 4 = Some fone
  /\ decode_float toy_of_ll toy_of_ll (fun x => x)
       (mem (encode_double toy_double_bits (fun _ => 0) 100 33 fone)) 102 8 = Some fone.
Proof.
  destruct (cross_decoding toy_float_bits toy_double_bits toy_of_ll toy_of_ll
              (fun x => x) (fun _ => 0) 100 33 fone eq_refl) as [Hf Hd].
  split.
  - exact (proj2 (Hf eq_refl ltac:(vm_compute; discriminate))).
  - exact (proj1 (proj2 (Hd eq_refl ltac:(vm_compute; discriminate)))).
Defined.


Lemma store_bytes_frame (l : list Z) : forall m p a,
  a < p \/ p + Z.of_nat (length l) <= a -> store_bytes m p l a = m a.
Proof.
  induction l as [|b l IH]; intros m p a Ha; cbn [store_bytes]; [reflexivity|].
  cbn [length] in Ha. rewrite IH by lia. apply store_other. lia.
Qed.

Lemma load_bytes_ext (n : nat) : forall m m' p,
  (forall a, p <= a < p + Z.of_nat n -> load m a = load m' a) ->
  load_bytes n m p = load_bytes n m' p.
Proof.
  induction n as [|n IH]; intros m m' p H; cbn [load_bytes]; [reflexivity|].
  rewrite (H p) by lia. f_equal. apply IH. intros a Ha. apply H. lia.
Qed.

Lemma load_bytes_store_bytes (l : list Z) : bytes l -> forall m p,
  load_bytes (length l) (store_bytes m p l) p = l.
Proof.
  induction 1 as [|b l Hb Hl IH]; intros m p; cbn [length load_bytes store_bytes];
    [reflexivity|].
  f_equal.
  - unfold load. rewrite store_bytes_frame by lia.
    fold (load (store m p b) p). rewrite load_store_same. apply uint8_small. exact Hb.
  - apply IH.
Qed.

Lemma firstn_bytes (n : nat) : forall l : list Z, bytes l -> bytes (firstn n l).
Proof.
  induction n as [|n IH]; intros l H; [constructor|].
  destruct H as [|b l Hb Hl]; cbn [firstn]; constructor; [exact Hb | apply IH, Hl].
Qed.

Lemma firstn_short (n : nat) (l : list Z) : length l = n -> firstn n l = l.
Proof. intros <-. apply firstn_all. Qed.

Section SocketFacts.
Variable AF_INET : Z.
Variable AF_INET6 : Z.

(** X10.  An IPv4 socket address sent with [encode_socket] and read back
    with [decode_socket], using the return value as the option length,
    keeps its address and port, and the destination's IPv6 field is
    left alone.  The return value is 6, the length byte, although the
    pointer has moved by 8: unlike the other encoders, [encode_socket]
    does not count the two header bytes. *)
Theorem socket_roundtrip_ipv4 (m : memory) (bp type : Z) (sock dest : sockaddr) :
  sa_family sock = AF_INET ->
  length (sin_addr sock) = 4%nat -> length (sa_port sock) = 2%nat ->
  bytes (sin_addr sock) -> bytes (sa_port sock) ->
  let e := encode_socket AF_INET AF_INET6 m bp type sock in
  ret e = 6
  /\ buf e = bp + 8
  /\ load (mem e) bp = uint8 type
  /\ load (mem e) (bp + 1) = 6
  /\ (forall a, a < bp \/ bp + 8 <= a -> mem e a = m a)
  /\ decode_socket AF_INET AF_INET6 dest (mem e) (bp + 2) (ret e)
     = Some (Sockaddr AF_INET (sa_port sock) (sin_addr sock) (sin6_addr dest)).
Proof.
  intros Hfam Ha Hp Hba Hbp e. subst e. unfold encode_socket.
  rewrite Hfam, Z.eqb_refl. cbn [ret buf mem].
  rewrite (firstn_short 4) by exact Ha. rewrite (firstn_short 2) by exact Hp.
  set (m1 := store (store m bp type) (bp + 1) 6).
  set (m2 := store_bytes m1 (bp + 1 + 1) (sin_addr sock)).
  set (m3 := store_bytes m2 (bp + 1 + 1 + 4) (sa_port sock)).
  assert (Hout : forall a, a < bp + 2 -> m3 a = m1 a).
  { intros a Hlt. unfold m3, m2. rewrite !store_bytes_frame by lia. reflexivity. }
  split; [reflexivity|]. split; [lia|].
  split; [unfold load; rewrite Hout by lia; fold (load m1 bp); unfold m1;
          rewrite load_store_other by lia; apply load_store_same|].
  split; [unfold load; rewrite Hout by lia; fold (load m1 (bp + 1)); unfold m1;
          rewrite load_store_same; reflexivity|].
  split.
  - intros a Hr. unfold m3, m2. rewrite !store_bytes_frame by lia.
    unfold m1. rewrite !store_other by lia. reflexivity.
  - unfold decode_socket. cbn [Z.eqb Pos.eqb]. f_equal. f_equal.
    + replace (bp + 2 + 4) with (bp + 1 + 1 + 4) by lia. unfold m3.
      rewrite <- Hp at 1. apply load_bytes_store_bytes. exact Hbp.
    + rewrite (load_bytes_ext 4 m3 m2).
      * replace (bp + 2) with (bp + 1 + 1) by lia. unfold m2.
        rewrite <- Ha at 1. apply load_bytes_store_bytes. exact Hba.
      * intros a Hr. unfold load, m3. rewrite store_bytes_frame by lia. reflexivity.
Qed.

(** X11.  For an IPv6 socket address [encode_socket] sends only the first
    8 of the 16 address bytes (and the port), and [decode_socket]
    overwrites only the first 8 bytes of the destination's address: the
    low half of the address is not transmitted and whatever the
    destination held there stays.  The return value is 10 and the
    pointer moves by 12. *)
Theorem socket_ipv6_truncated (m : memory) (bp type : Z) (sock dest : sockaddr) :
  AF_INET <> AF_INET6 ->
  sa_family sock = AF_INET6 ->
  length (sin6_addr sock) = 16%nat -> length (sa_port sock) = 2%nat ->
  bytes (sin6_addr sock) -> bytes (sa_port sock) ->
  let e := encode_socket AF_INET AF_INET6 m bp type sock in
  ret e = 10
  /\ buf e = bp + 12
  /\ load (mem e) (bp + 1) = 10
  /\ (forall a, a < bp \/ bp + 12 <= a -> mem e a = m a)
  /\ decode_socket AF_INET AF_INET6 dest (mem e) (bp + 2) (ret e)
     = Some (Sockaddr AF_INET6 (sa_port sock) (sin_addr dest)
               (firstn 8 (sin6_addr sock) ++ skipn 8 (sin6_addr dest))).
Proof.
  intros Hne Hfam Ha Hp Hba Hbp e. subst e. unfold encode_socket.
  rewrite Hfam, Z.eqb_refl.
  replace (AF_INET6 =? AF_INET) with false by (symmetry; apply Z.eqb_neq; congruence).
  cbn [ret buf mem].
  rewrite (firstn_short 2) by exact Hp.
  assert (H8 : length (firstn 8 (sin6_addr sock)) = 8%nat)
    by (rewrite length_firstn, Ha; reflexivity).
  set (m1 := store (store m bp type) (bp + 1) 10).
  set (m2 := store_bytes m1 (bp + 1 + 1) (firstn 8 (sin6_addr sock))).
  set (m3 := store_bytes m2 (bp + 1 + 1 + 8) (sa_port sock)).
  split; [reflexivity|]. split; [lia|].
  split; [unfold load, m3, m2; rewrite !store_bytes_frame by lia;
          fold (load m1 (bp + 1)); unfold m1; rewrite load_store_same; reflexivity|].
  split.
  - intros a Hr. unfold m3, m2. rewrite !store_bytes_frame by lia.
    unfold m1. rewrite !store_other by lia. reflexivity.
  - unfold decode_socket. cbn [Z.eqb Pos.eqb]. f_equal. f_equal.
    + replace (bp + 2 + 8) with (bp + 1 + 1 + 8) by lia. unfold m3.
      rewrite <- Hp at 1. apply load_bytes_store_bytes. exact Hbp.
    + f_equal. rewrite (load_bytes_ext 8 m3 m2).
      * replace (bp + 2) with (bp + 1 + 1) by lia. unfold m2.
        rewrite <- H8 at 1. apply load_bytes_store_bytes.
        apply firstn_bytes. exact Hba.
      * intros a Hr. unfold load, m3. rewrite store_bytes_frame by lia. reflexivity.
Qed.

End SocketFacts.

Lemma socket_roundtrip_ipv4_witness :
  decode_socket 2 10 (Sockaddr 0 [] [] [])
    (mem (encode_socket 2 10 (fun _ => 0) 100 33
            (Sockaddr 2 [19; 136] [239; 1; 2; 3] []))) 102
    (ret (encode_socket 2 10 (fun _ => 0) 100 33
            (Sockaddr 2 [19; 136] [239; 1; 2; 3] [])))
  = Some (Sockaddr 2 [19; 136] [239; 1; 2; 3] []).
Proof.
  refine (proj2 (proj2 (proj2 (proj2 (proj2
    (socket_roundtrip_ipv4 2 10 (fun _ => 0) 100 33
       (Sockaddr 2 [19; 136] [239; 1; 2; 3] []) (Sockaddr 0 [] [] [])
       eq_refl eq_refl eq_refl _ _)))))).
  - repeat constructor; cbn; lia.
  - repeat constructor; cbn; lia.
Defined.

Lemma socket_ipv6_truncated_witness :
  decode_socket 2 10 (Sockaddr 0 [] [] [0; 0; 0; 0; 0; 0; 0; 0; 9; 9; 9; 9; 9; 9; 9; 9])
    (mem (encode_socket 2 10 (fun _ => 0) 100 33
            (Sockaddr 10 [19; 136] []
               [255; 2; 0; 0; 0; 0; 0; 0; 1; 2; 3; 4; 5; 6; 7; 8]))) 102
    (ret (encode_socket 2 10 (fun _ => 0) 100 33
            (Sockaddr 10 [19; 136] []
               [255; 2; 0; 0; 0; 0; 0; 0; 1; 2; 3; 4; 5; 6; 7; 8])))
  = Some (Sockaddr 10 [19; 136] []
            [255; 2; 0; 0; 0; 0; 0; 0; 9; 9; 9; 9; 9; 9; 9; 9]).
Proof.
  refine (proj2 (proj2 (proj2 (proj2
    (socket_ipv6_truncated 2 10 (fun _ => 0) 100 33
       (Sockaddr 10 [19; 136] []
          [255; 2; 0; 0; 0; 0; 0; 0; 1; 2; 3; 4; 5; 6; 7; 8])
       (Sockaddr 0 [] [] [0; 0; 0; 0; 0; 0; 0; 0; 9; 9; 9; 9; 9; 9; 9; 9])
       _ eq_refl eq_refl eq_refl _ _))))).
  - discriminate.
  - repeat constructor; cbn; lia.
  - repeat constructor; cbn; lia.
Defined.

Section PollFacts.
Variable OUTPUT_SSRC : Z.
Variable COMMAND_TAG : Z.

Lemma get_ssrc_loop_total (fuel : nat) : forall m buffer cp length,
  length - (cp - buffer) <= Z.of_nat fuel ->
  get_ssrc_loop OUTPUT_SSRC fuel m buffer cp length <> None.
Proof.
  induction fuel as [|k IH]; intros m buffer cp length Hf; cbn [get_ssrc_loop].
  - replace (cp - buffer <? length) with false by (symmetry; apply Z.ltb_ge; lia).
    discriminate.
  - destruct (cp - buffer <? length); [|discriminate].
    destruct (load m cp =? EOL); [discriminate|].
    destruct (cp + 1 + 1 - buffer + load m (cp + 1) >=? length); [discriminate|].
    destruct (load m cp =? OUTPUT_SSRC); [discriminate|].
    apply IH. pose proof (load_range m (cp + 1)). lia.
Qed.

(** More turns than needed change nothing. *)
Lemma get_ssrc_loop_fuel (f : nat) : forall f' m buffer cp length,
  length - (cp - buffer) <= Z.of_nat f ->
  length - (cp - buffer) <= Z.of_nat f' ->
  get_ssrc_loop OUTPUT_SSRC f m buffer cp length
  = get_ssrc_loop OUTPUT_SSRC f' m buffer cp length.
Proof.
  induction f as [|k IH]; intros f' m buffer cp length Hf Hf'.
  - cbn [get_ssrc_loop].
    replace (cp - buffer <? length) with false by (symmetry; apply Z.ltb_ge; lia).
    destruct f'; cbn [get_ssrc_loop];
      replace (cp - buffer <? length) with false by (symmetry; apply Z.ltb_ge; lia);
      reflexivity.
  - destruct f' as [|k'].
    + cbn [get_ssrc_loop].
      replace (cp - buffer <? length) with false by (symmetry; apply Z.ltb_ge; lia).
      reflexivity.
    + cbn [get_ssrc_loop].
      destruct (cp - buffer <? length); [|reflexivity].
      destruct (load m cp =? EOL); [reflexivity|].
      destruct (cp + 1 + 1 - buffer + load m (cp + 1) >=? length); [reflexivity|].
      destruct (load m cp =? OUTPUT_SSRC); [reflexivity|].
      pose proof (load_range m (cp + 1)).
      apply IH; lia.
Qed.

(** Only the offset into the buffer matters. *)
Lemma get_ssrc_loop_shift (f : nat) : forall m buffer cp length d,
  get_ssrc_loop OUTPUT_SSRC f m (buffer + d) cp (length - d)
  = get_ssrc_loop OUTPUT_SSRC f m buffer cp length.
Proof.
  assert (Hlt : forall buffer cp length d,
            (cp - (buffer + d) <? length - d) = (cp - buffer <? length)).
  { intros. destruct (Z.ltb_spec (cp - (buffer + d)) (length - d));
      destruct (Z.ltb_spec (cp - buffer) length); lia || reflexivity. }
  assert (Hge : forall buffer cp length d o,
            (cp - (buffer + d) + o >=? length - d) = (cp - buffer + o >=? length)).
  { intros. rewrite !Z.geb_leb.
    destruct (Z.leb_spec (length - d) (cp - (buffer + d) + o));
      destruct (Z.leb_spec length (cp - buffer + o)); lia || reflexivity. }
  induction f as [|k IH]; intros m buffer cp length d; cbn [get_ssrc_loop];
    rewrite Hlt; [reflexivity|].
  rewrite Hge, IH. reflexivity.
Qed.

Lemma decode_loop_ext (len : nat) : forall m m' cp r,
  (forall a, cp <= a < cp + Z.of_nat len -> load m a = load m' a) ->
  decode_loop len m cp r = decode_loop len m' cp r.
Proof.
  induction len as [|l IH]; intros m m' cp r H; cbn [decode_loop]; [reflexivity|].
  rewrite (H cp) by lia. apply IH. intros a Ha. apply H. lia.
Qed.

Lemma decode_int_ext m m' cp len :
  (forall a, cp <= a < cp + len -> load m a = load m' a) ->
  decode_int m cp len = decode_int m' cp len.
Proof.
  intros H. unfold decode_int. apply decode_loop_ext.
  intros a Ha. apply H. lia.
Qed.

Lemma get_ssrc_loop_ext (f : nat) : forall m m' buffer cp length,
  buffer <= cp ->
  (forall a, buffer <= a < buffer + length -> load m a = load m' a) ->
  get_ssrc_loop OUTPUT_SSRC f m buffer cp length
  = get_ssrc_loop OUTPUT_SSRC f m' buffer cp length.
Proof.
  induction f as [|k IH]; intros m m' buffer cp length Hcp H; cbn [get_ssrc_loop];
    [reflexivity|].
  destruct (Z.ltb_spec (cp - buffer) length) as [Hin | Hout]; [|reflexivity].
  rewrite <- (H cp) by lia.
  destruct (load m cp =? EOL); [reflexivity|].
  pose proof (load_range m (cp + 1)) as Hr. pose proof (load_range m' (cp + 1)) as Hr'.
  destruct (Z.ltb_spec (cp + 1 - buffer) length) as [Hin1 | Hout1].
  - rewrite <- (H (cp + 1)) by lia.
    rewrite Z.geb_leb.
    destruct (Z.leb_spec length (cp + 1 + 1 - buffer + load m (cp + 1)));
      [reflexivity|].
    destruct (load m cp =? OUTPUT_SSRC).
    + f_equal. f_equal. apply decode_int_ext. intros a Ha. apply H. lia.
    + apply IH; [lia | exact H].
  - replace (cp + 1 + 1 - buffer + load m (cp + 1) >=? length) with true
      by (symmetry; rewrite Z.geb_leb; apply Z.leb_le; lia).
    replace (cp + 1 + 1 - buffer + load m' (cp + 1) >=? length) with true
      by (symmetry; rewrite Z.geb_leb; apply Z.leb_le; lia).
    reflexivity.
Qed.

(** X12.  [get_ssrc] always returns (the loop ends within [length]
    turns), returns 0 for an empty buffer, and its result depends only
    on the [length] bytes of the buffer, although the loop reads the
    length byte of an option whose type byte is the last byte of the
    buffer, one byte past the end. *)
Theorem get_ssrc_reads_buffer_only (m m' : memory) (buffer length : Z) :
  (forall a, buffer <= a < buffer + length -> load m a = load m' a) ->
  get_ssrc OUTPUT_SSRC m buffer length = get_ssrc OUTPUT_SSRC m' buffer length
  /\ get_ssrc OUTPUT_SSRC m buffer length <> None
  /\ (length <= 0 -> get_ssrc OUTPUT_SSRC m buffer length = Some 0).
Proof.
  intros H. unfold get_ssrc. split; [|split].
  - apply get_ssrc_loop_ext; [lia | exact H].
  - apply get_ssrc_loop_total. lia.
  - intros Hl. replace (Z.to_nat length) with O by lia. cbn [get_ssrc_loop].
    replace (buffer - buffer <? length) with false by (symmetry; apply Z.ltb_ge; lia).
    reflexivity.
Qed.

(** One turn of [get_ssrc] on an option that is not the SSRC. *)
Lemma get_ssrc_skip (m : memory) (buffer length : Z) :
  load m buffer <> EOL -> load m buffer <> OUTPUT_SSRC ->
  2 + load m (buffer + 1) < length ->
  get_ssrc OUTPUT_SSRC m buffer length
  = get_ssrc OUTPUT_SSRC m (buffer + (2 + load m (buffer + 1)))
      (length - (2 + load m (buffer + 1))).
Proof.
  intros He Hs Hlen. unfold get_ssrc.
  pose proof (load_range m (buffer + 1)) as Hr.
  destruct (Z.to_nat length) as [|k] eqn:Ek; [lia|].
  cbn [get_ssrc_loop].
  replace (buffer - buffer <? length) with true by (symmetry; apply Z.ltb_lt; lia).
  apply Z.eqb_neq in He, Hs. rewrite He, Hs.
  replace (buffer + 1 + 1 - buffer + load m (buffer + 1) >=? length) with false
    by (symmetry; rewrite Z.geb_leb; apply Z.leb_gt; lia).
  rewrite get_ssrc_loop_shift.
  replace (buffer + 1 + 1 + load m (buffer + 1))
    with (buffer + (2 + load m (buffer + 1))) by lia.
  apply get_ssrc_loop_fuel; lia.
Qed.

(** One turn of [get_ssrc] on the SSRC option. *)
Lemma get_ssrc_found (m : memory) (buffer length : Z) :
  load m buffer <> EOL -> load m buffer = OUTPUT_SSRC ->
  0 < length ->
  get_ssrc OUTPUT_SSRC m buffer length
  = Some (if 2 + load m (buffer + 1) >=? length then 0
          else int32 (decode_int m (buffer + 2) (load m (buffer + 1)))).
Proof.
  intros He Hs Hlen. unfold get_ssrc.
  destruct (Z.to_nat length) as [|k] eqn:Ek; [lia|].
  cbn [get_ssrc_loop].
  replace (buffer - buffer <? length) with true by (symmetry; apply Z.ltb_lt; lia).
  apply Z.eqb_neq in He. rewrite He.
  replace (buffer + 1 + 1 - buffer + load m (buffer + 1))
    with (2 + load m (buffer + 1)) by lia.
  destruct (2 + load m (buffer + 1) >=? length); [reflexivity|].
  rewrite Hs, Z.eqb_refl. replace (buffer + 1 + 1) with (buffer + 2) by lia.
  reflexivity.
Qed.

Lemma skip_options_ge (k : nat) : forall m p, p <= skip_options k m p.
Proof.
  induction k as [|k IH]; intros m p; cbn [skip_options]; [lia|].
  pose proof (IH m (p + (2 + load m (p + 1)))).
  pose proof (load_range m (p + 1)). lia.
Qed.

(** X13.  [get_ssrc] steps over any number of options of other types:
    when the buffer starts with [k] options, none of them the end of
    the list or the SSRC, and the last of them ends before the last
    byte of the buffer, the result is that of [get_ssrc] on what
    follows them. *)
Theorem get_ssrc_skips_other_options (k : nat) : forall (m : memory) (buffer length : Z),
  other_options OUTPUT_SSRC k m buffer ->
  skip_options k m buffer - buffer < length ->
  get_ssrc OUTPUT_SSRC m buffer length
  = get_ssrc OUTPUT_SSRC m (skip_options k m buffer)
      (length - (skip_options k m buffer - buffer)).
Proof.
  induction k as [|k IH]; intros m buffer length Hother Hend;
    cbn [skip_options other_options] in *.
  - f_equal. lia.
  - destruct Hother as (He & Hs & Hrest).
    pose proof (skip_options_ge k m (buffer + (2 + load m (buffer + 1)))) as Hge.
    rewrite get_ssrc_skip by (try assumption; lia).
    rewrite (IH m _ _ Hrest) by lia.
    f_equal. lia.
Qed.

(** X14.  An SSRC written with [encode_int] is found by [get_ssrc] only
    if at least one more byte follows it in the buffer: over a buffer
    that ends with the option, [get_ssrc] returns 0 (the option "reaches
    the end" and is taken as invalid); with any further byte in the
    buffer it returns the SSRC, negative values included. *)
Theorem ssrc_needs_trailing_byte (m : memory) (bp ssrc : Z) :
  0 < OUTPUT_SSRC < 256 ->
  let e := encode_int m bp OUTPUT_SSRC ssrc in
  get_ssrc OUTPUT_SSRC (mem e) bp (ret e) = Some 0
  /\ (forall k, 0 < k ->
        get_ssrc OUTPUT_SSRC (mem e) bp (ret e + k) = Some (int32 ssrc)).
Proof.
  intros Ht e. subst e. unfold encode_int.
  pose proof (int32_range ssrc) as Hr.
  assert (H64 : 0 <= uint64 (int32 ssrc) < 2 ^ 64) by (apply (uint_range 64); lia).
  destruct (encode_int64_layout m bp OUTPUT_SSRC (uint64 (int32 ssrc)) H64)
    as (l & Hle & Hlt & Hmin & Hty & Hl & Hb & Hre & Hd & Hf).
  rewrite uint8_small in Hty by lia.
  assert (Hne : load (mem (encode_int64 m bp OUTPUT_SSRC (uint64 (int32 ssrc)))) bp
                <> EOL) by (rewrite Hty; unfold EOL; lia).
  split.
  - rewrite get_ssrc_found by (try assumption; lia).
    rewrite Hl, Hre.
    replace (2 + Z.of_nat l >=? 2 + Z.of_nat l) with true
      by (symmetry; rewrite Z.geb_leb; apply Z.leb_le; lia).
    reflexivity.
  - intros k Hk. rewrite get_ssrc_found by (try assumption; lia).
    rewrite Hl, Hre.
    replace (2 + Z.of_nat l >=? 2 + Z.of_nat l + k) with false
      by (symmetry; rewrite Z.geb_leb; apply Z.leb_gt; lia).
    rewrite Hd. f_equal. apply int32_uint64. exact Hr.
Qed.

(** What [encode_int] leaves in memory. *)
Lemma encode_int_layout (m : memory) (bp type x : Z) :
  0 <= type < 256 ->
  exists len : Z,
    0 <= len <= 8
    /\ load (mem (encode_int m bp type x)) bp = type
    /\ load (mem (encode_int m bp type x)) (bp + 1) = len
    /\ buf (encode_int m bp type x) = bp + 2 + len
    /\ int32 (decode_int (mem (encode_int m bp type x)) (bp + 2) len) = int32 x
    /\ (forall a, a < bp \/ bp + 2 + len <= a -> mem (encode_int m bp type x) a = m a).
Proof.
  intros Ht. unfold encode_int.
  pose proof (int32_range x) as Hr.
  assert (H64 : 0 <= uint64 (int32 x) < 2 ^ 64) by (apply (uint_range 64); lia).
  destruct (encode_int64_layout m bp type (uint64 (int32 x)) H64)
    as (l & Hle & Hlt & Hmin & Hty & Hl & Hb & Hre & Hd & Hf).
  exists (Z.of_nat l). rewrite uint8_small in Hty by lia.
  split; [lia|]. split; [exact Hty|]. split; [exact Hl|]. split; [exact Hb|].
  split; [|exact Hf].
  rewrite Hd. apply int32_uint64. exact Hr.
Qed.

(** X15.  The command [send_poll] builds is at most 22 bytes long (the
    buffer has 128), starts with the command byte 1 and ends with the
    end-of-list byte; nothing outside those bytes is written; and
    [get_ssrc], applied to the command after its first byte, returns
    the SSRC that was polled, 0 when no SSRC option was sent. *)
Theorem poll_roundtrip (m : memory) (cmdbuffer rnd ssrc : Z) :
  0 < OUTPUT_SSRC < 256 -> 0 < COMMAND_TAG < 256 -> COMMAND_TAG <> OUTPUT_SSRC ->
  let m' := fst (send_poll OUTPUT_SSRC COMMAND_TAG m cmdbuffer rnd ssrc) in
  let command_len := snd (send_poll OUTPUT_SSRC COMMAND_TAG m cmdbuffer rnd ssrc) in
  4 <= command_len <= 22
  /\ load m' cmdbuffer = 1
  /\ load m' (cmdbuffer + command_len - 1) = EOL
  /\ (forall a, a < cmdbuffer \/ cmdbuffer + command_len <= a -> m' a = m a)
  /\ get_ssrc OUTPUT_SSRC m' (cmdbuffer + 1) (command_len - 1) = Some (int32 ssrc).
Proof.
  intros Hs Ht Hne m' command_len. subst m' command_len. unfold send_poll.
  set (m0 := store m cmdbuffer 1). set (b0 := cmdbuffer + 1).
  destruct (Z.eqb_spec (int32 ssrc) 0) as [Ez | Hnz]; cbn [negb].
  - (* no SSRC option *)
    destruct (encode_int_layout m0 b0 COMMAND_TAG (uint32 rnd) ltac:(lia))
      as (l2 & Hl2 & Hty2 & Hlen2 & Hb2 & _ & Hf2).
    set (e2 := encode_int m0 b0 COMMAND_TAG (uint32 rnd)) in *.
    unfold encode_eol. cbn [mem buf fst snd]. rewrite Hb2.
    set (m3 := store (mem e2) (b0 + 2 + l2) EOL).
    assert (L0 : load m3 b0 = COMMAND_TAG)
      by (unfold m3; rewrite load_store_other by lia; exact Hty2).
    assert (L1 : load m3 (b0 + 1) = l2)
      by (unfold m3; rewrite load_store_other by lia; exact Hlen2).
    split; [unfold b0; lia|].
    split; [unfold m3; rewrite load_store_other by (unfold b0; lia);
            unfold load; rewrite Hf2 by (unfold b0; lia);
            fold (load m0 cmdbuffer); unfold m0; apply load_store_same|].
    split; [replace (cmdbuffer + (b0 + 2 + l2 + 1 - cmdbuffer) - 1)
              with (b0 + 2 + l2) by lia;
            unfold m3; apply load_store_same|].
    split.
    + intros a Ha. unfold m3. rewrite store_other by (unfold b0; lia).
      rewrite Hf2 by (unfold b0; lia). unfold m0. apply store_other. lia.
    + fold b0. rewrite get_ssrc_skip; rewrite ?L0, ?L1;
        try (unfold EOL; lia); try (unfold b0; lia).
      replace (b0 + 2 + l2 + 1 - cmdbuffer - 1 - (2 + l2)) with 1 by (unfold b0; lia).
      unfold get_ssrc. change (Z.to_nat 1) with 1%nat. cbn [get_ssrc_loop].
      replace (b0 + (2 + l2) - (b0 + (2 + l2)) <? 1) with true
        by (symmetry; apply Z.ltb_lt; lia).
      replace (b0 + (2 + l2)) with (b0 + 2 + l2) by lia.
      unfold m3 at 1. rewrite load_store_same. rewrite Ez. reflexivity.
  - (* the SSRC option first *)
    destruct (encode_int_layout m0 b0 OUTPUT_SSRC ssrc ltac:(lia))
      as (l1 & Hl1 & Hty1 & Hlen1 & Hb1 & Hd1 & Hf1).
    set (e1 := encode_int m0 b0 OUTPUT_SSRC ssrc) in *.
    cbv zeta. rewrite Hb1.
    destruct (encode_int_layout (mem e1) (b0 + 2 + l1) COMMAND_TAG (uint32 rnd)
                ltac:(lia))
      as (l2 & Hl2 & Hty2 & Hlen2 & Hb2 & _ & Hf2).
    set (e2 := encode_int (mem e1) (b0 + 2 + l1) COMMAND_TAG (uint32 rnd)) in *.
    unfold encode_eol. cbn [mem buf fst snd]. rewrite Hb2.
    set (b2 := b0 + 2 + l1 + 2 + l2).
    set (m3 := store (mem e2) b2 EOL).
    assert (Hlow : forall a, a < b0 + 2 + l1 -> load m3 a = load (mem e1) a).
    { intros a Ha. unfold m3. rewrite load_store_other by (unfold b2; lia).
      unfold load. rewrite Hf2 by lia. reflexivity. }
    split; [unfold b2, b0; lia|].
    split; [rewrite Hlow by (unfold b0; lia); unfold load;
            rewrite Hf1 by (unfold b0; lia);
            fold (load m0 cmdbuffer); unfold m0; apply load_store_same|].
    split; [replace (cmdbuffer + (b2 + 1 - cmdbuffer) - 1) with b2 by lia;
            unfold m3; apply load_store_same|].
    split.
    + intros a Ha. unfold m3. rewrite store_other by (unfold b2, b0; lia).
      rewrite Hf2 by (unfold b2, b0 in *; lia).
      rewrite Hf1 by (unfold b2, b0 in *; lia).
      unfold m0. apply store_other. lia.
    + fold b0. rewrite get_ssrc_found;
        rewrite ?Hlow by lia; rewrite ?Hty1, ?Hlen1;
        try reflexivity; try (unfold EOL; lia); try (unfold b2, b0; lia).
      replace (2 + l1 >=? b2 + 1 - cmdbuffer - 1) with false
        by (symmetry; rewrite Z.geb_leb; apply Z.leb_gt; unfold b2, b0; lia).
      rewrite (decode_int_ext m3 (mem e1)) by (intros a Ha; apply Hlow; lia).
      rewrite Hd1. reflexivity.
Qed.

End PollFacts.


Lemma get_ssrc_reads_buffer_only_witness :
  get_ssrc 18 (memory_of [18; 1; 7; 0]) 0 4
  = get_ssrc 18 (memory_of [18; 1; 7; 0; 99; 99]) 0 4.
Proof.
  refine (proj1 (get_ssrc_reads_buffer_only 18 (memory_of [18; 1; 7; 0])
                   (memory_of [18; 1; 7; 0; 99; 99]) 0 4 _)).
  intros a Ha.
  assert (a = 0 \/ a = 1 \/ a = 2 \/ a = 3) as [-> | [-> | [-> | ->]]] by lia;
    reflexivity.
Defined.

Lemma get_ssrc_skips_other_options_witness :
  get_ssrc 18 (memory_of [1; 1; 5; 2; 0; 18; 1; 7; 0]) 0 9
  = get_ssrc 18 (memory_of [1; 1; 5; 2; 0; 18; 1; 7; 0]) 5 4.
Proof.
  refine (get_ssrc_skips_other_options 18 2 (memory_of [1; 1; 5; 2; 0; 18; 1; 7; 0])
            0 9 _ _).
  - cbn [other_options]. repeat split; vm_compute; discriminate.
  - vm_compute. reflexivity.
Defined.

Lemma ssrc_needs_trailing_byte_witness :
  get_ssrc 18 (mem (encode_int (fun _ => 0) 100 18 1234)) 100
    (ret (encode_int (fun _ => 0) 100 18 1234)) = Some 0
  /\ get_ssrc 18 (mem (encode_int (fun _ => 0) 100 18 1234)) 100
       (ret (encode_int (fun _ => 0) 100 18 1234) + 1) = Some (int32 1234).
Proof.
  destruct (ssrc_needs_trailing_byte 18 (fun _ => 0) 100 1234 ltac:(lia)) as [H0 H1].
  split; [exact H0 | exact (H1 1 ltac:(lia))].
Defined.

Lemma poll_roundtrip_witness :
  get_ssrc 18 (fst (send_poll 18 1 (fun _ => 0) 100 99 (-5))) 101
    (snd (send_poll 18 1 (fun _ => 0) 100 99 (-5)) - 1)
  = Some (int32 (-5)).
Proof.
  refine (proj2 (proj2 (proj2 (proj2
    (poll_roundtrip 18 1 (fun _ => 0) 100 99 (-5) _ _ _))))); lia.
Defined.

(** X16.  [random_time] returns a time in the window that starts at
    [now + base] and is [|rrange|] nanoseconds long, whatever the sign
    of [rrange], as long as the window lies within the range of
    [int64_t]; a zero [rrange] divides by zero. *)
Theorem random_time_window (now rnd base rrange : Z) :
  0 <= rnd -> rrange <> 0 ->
  - 2 ^ 63 <= now + base -> now + base + Z.abs rrange <= 2 ^ 63 ->
  exists t, random_time now rnd base rrange = Some t
            /\ now + base <= t < now + base + Z.abs rrange.
Proof.
  intros Hr Hnz Hlo Hhi. unfold random_time.
  apply Z.eqb_neq in Hnz. rewrite Hnz. apply Z.eqb_neq in Hnz.
  assert (Hb : 0 <= Z.rem rnd rrange < Z.abs rrange).
  { destruct (Z.lt_trichotomy rrange 0) as [Hneg | [E | Hpos]]; [|contradiction|].
    - pose proof (Z.rem_bound_neg_pos rnd rrange Hneg Hr). lia.
    - pose proof (Z.rem_bound_pos rnd rrange Hr Hpos). lia. }
  eexists. split; [reflexivity|].
  unfold int64. rewrite Z.mod_small by lia. lia.
Qed.

Lemma random_time_window_witness :
  exists t, random_time 1000 7 500 5 = Some t /\ 1000 + 500 <= t < 1000 + 500 + Z.abs 5.
Proof.
  apply (random_time_window 1000 7 500 5); lia.
Defined.

End CodecFacts.

(** ** The demodulator over whole blocks and runs *)

Module DemodFacts.
Import Linear FloatFacts LinearFacts.

Section Blocks.
Context {O : Osc}.

(** The AGC writes nothing but the hang counter. *)
Lemma agc_stage_hangcount_only N c c' gc :
  agc_stage N c = Done (c', gc) -> exists h, c' = set_hangcount h c.
Proof.
  unfold agc_stage, assert. cbv zeta.
  repeat match goal with
         | |- context [if ?b then _ else _] => destruct b
         end; intros H; inversion H; subst;
    first [ eexists; reflexivity
          | match goal with
            | |- exists h, ?x = set_hangcount h ?y =>
                exists (hangcount y); symmetry; apply set_hangcount_same
            end ].
Qed.

(** The final pass and the bookkeeping after it write only the output
    group; the loop goes on unless [send_output] returned -1. *)
Lemma output_stage_keeps c buffer gc send :
  let r := output_stage c buffer gc send in
  filter (fst (fst r)) = filter c
  /\ linear (fst (fst r)) = linear c
  /\ chan_pll (fst (fst r)) = chan_pll c
  /\ sig (fst (fst r)) = sig c
  /\ fm (fst (fst r)) = fm c
  /\ tune (fst (fst r)) = tune c
  /\ hangcount (fst (fst r)) = hangcount c
  /\ snd r = negb (send =? -1)%Z.
Proof.
  unfold output_stage. cbv zeta.
  destruct (output_pass c buffer gc) as [[out g] p].
  destruct (send =? -1)%Z; cbn; repeat split; reflexivity.
Qed.

Lemma shift_stage_keeps c buffer :
  chan_pll (fst (shift_stage c buffer)) = chan_pll c
  /\ sig (fst (shift_stage c buffer)) = sig c.
Proof.
  unfold shift_stage. cbv zeta.
  destruct (fne _ _); [|cbn; split; reflexivity].
  destruct (shift_samples _ _) as [b o]. cbn. split; reflexivity.
Qed.

(** The PLL stage leaves the power estimates of the block alone. *)
Lemma pll_stage_power limit c buffer :
  sig_bb_power (sig (fst (pll_stage limit c buffer))) = sig_bb_power (sig c)
  /\ sig_n0 (sig (fst (pll_stage limit c buffer))) = sig_n0 (sig c).
Proof.
  destruct (linear_pll (linear c)) eqn:Hon.
  - rewrite (pll_stage_on _ _ _ Hon). cbv zeta.
    set (c0 := at_lock_detector c buffer).
    destruct (lock_detector_keeps limit (Z.of_nat (length buffer)) c0) as (Ls & _).
    destruct (track_rotations_keeps
                (lock_detector limit (Z.of_nat (length buffer)) c0)) as (Ts & _).
    cbn [sig set_sig_foffset set_sig sig_bb_power sig_n0].
    rewrite Ts, Ls. unfold c0, at_lock_detector. cbv zeta.
    destruct (pll_samples _ _ _ _ _) as [[[b p] sg] nz].
    cbn. unfold pll_cold_start. destruct (negb _); cbn; split; reflexivity.
  - unfold pll_stage. rewrite Hon. cbn. split; reflexivity.
Qed.

Lemma front_stages_power limit c blk :
  sig_bb_power (sig (fst (front_stages limit c blk))) = blk_bb_power blk
  /\ sig_n0 (sig (fst (front_stages limit c blk))) = blk_n0 blk.
Proof.
  unfold front_stages. cbv zeta.
  destruct (pll_stage_power limit (set_sig_power (blk_bb_power blk) (blk_n0 blk) c)
              (blk_buffer blk)) as (Hb & Hn).
  destruct (pll_stage limit _ (blk_buffer blk)) as [c1 b1]. cbn [fst] in *.
  destruct (shift_stage_keeps c1 b1) as (_ & Hs). rewrite Hs, Hb, Hn.
  cbn. split; reflexivity.
Qed.

(** The two tests of gain reduction read the power estimates, the gain,
    the headroom, the threshold and the filter edges, nothing else. *)
Lemma strong_signal_ext c c' :
  sig_bb_power (sig c') = sig_bb_power (sig c) ->
  output_gain (output c') = output_gain (output c) ->
  output_headroom (output c') = output_headroom (output c) ->
  strong_signal c' = strong_signal c.
Proof.
  intros H1 H2 H3. unfold strong_signal, signal_amplitude. rewrite H1, H2, H3.
  reflexivity.
Qed.

Lemma noise_above_threshold_ext c c' :
  sig_n0 (sig c') = sig_n0 (sig c) ->
  filter c' = filter c ->
  output_gain (output c') = output_gain (output c) ->
  output_headroom (output c') = output_headroom (output c) ->
  linear_threshold (linear c') = linear_threshold (linear c) ->
  noise_above_threshold c' = noise_above_threshold c.
Proof.
  intros H1 H2 H3 H4 H5. unfold noise_above_threshold, noise_amplitude.
  rewrite H1, H2, H3, H4, H5. reflexivity.
Qed.

Lemma quiet_at_ext c c' blk :
  same_config c c' ->
  output_gain (output c') = output_gain (output c) ->
  quiet_at c' blk = quiet_at c blk.
Proof.
  intros Hcfg Hg. unfold same_config in Hcfg. decompose [and] Hcfg.
  unfold quiet_at. cbv zeta. f_equal; f_equal.
  - apply strong_signal_ext; cbn; congruence.
  - apply noise_above_threshold_ext; cbn; congruence.
Qed.

Lemma quiet_at_front limit c blk :
  quiet_at c blk = true ->
  strong_signal (fst (front_stages limit c blk)) = false
  /\ noise_above_threshold (fst (front_stages limit c blk)) = false.
Proof.
  intros Hq. unfold quiet_at in Hq. cbv zeta in Hq.
  apply andb_true_iff in Hq. destruct Hq as [Hs Hn].
  apply negb_true_iff in Hs, Hn.
  destruct (front_stages_frame limit c blk) as (Hcfg & Hout & _ & _).
  destruct (front_stages_power limit c blk) as (Hb & Hz).
  unfold same_config in Hcfg. decompose [and] Hcfg.
  split.
  - rewrite <- Hs. apply strong_signal_ext; cbn; congruence.
  - rewrite <- Hn. apply noise_above_threshold_ext; cbn; congruence.
Qed.

Lemma feq_pos_zero r : (0 < r)%R -> feq (FFin r) fzero = false.
Proof. intros H. funfold. rdec; reflexivity. Qed.

Lemma branch_hanging c :
  strong_signal c = false -> noise_above_threshold c = false ->
  (0 < hangcount c)%Z -> agc_branch_of c = Hanging.
Proof.
  intros Hs Hn Hh. unfold agc_branch_of. rewrite Hs, Hn.
  replace (0 <? hangcount c)%Z with true by (symmetry; apply Z.ltb_lt; exact Hh).
  reflexivity.
Qed.

(** One block of the hang period. *)
Lemma hanging_block limit c blk :
  linear_agc (linear c) = true ->
  quiet_at c blk = true ->
  (0 < hangcount c <= INT_MAX)%Z ->
  exists c' s,
    demod_block limit c blk = Done (c', s, negb (blk_send blk =? -1)%Z)
    /\ same_config c c'
    /\ output_gain (output c') = output_gain (output c)
    /\ hangcount c' = (hangcount c - 1)%Z
    /\ sent_pcm s = constant_gain_pcm (fst (front_stages limit c blk))
                      (snd (front_stages limit c blk)).
Proof.
  intros Hagc Hq Hh. unfold demod_block. cbv zeta.
  destruct (front_stages_frame limit c blk) as (Hcfg & Hout & Hhc & Hlen).
  destruct (quiet_at_front limit c blk Hq) as (Hs & Hn).
  destruct (front_stages limit c blk) as [c0 buf0]. cbn [fst snd] in *.
  assert (Hagc0 : linear_agc (linear c0) = true).
  { unfold same_config in Hcfg. decompose [and] Hcfg. congruence. }
  assert (Hb : agc_branch_of c0 = Hanging)
    by (apply branch_hanging; try assumption; lia).
  rewrite agc_stage_by_branch
    by (try assumption; unfold INT_MIN, INT_MAX in *; lia).
  unfold agc_gain_change, agc_hangcount. rewrite Hb.
  replace (feq fone fzero) with false
    by (symmetry; apply (feq_pos_zero 1); lra).
  set (c1 := set_hangcount (hangcount c0 - 1) c0).
  destruct (output_stage_frame c1 buf0 fone (blk_send blk)) as (Hcfg2 & Hgain & Hpcm & Hhc2).
  destruct (output_stage_keeps c1 buf0 fone (blk_send blk)) as (_ & _ & _ & _ & _ & _ & _ & Hcont).
  destruct (output_pass_unit c1 buf0) as (Hu1 & Hu2).
  destruct (output_stage c1 buf0 fone (blk_send blk)) as [[c' s] cont].
  cbn [fst snd] in *. subst cont.
  exists c', s. split; [reflexivity|].
  split; [|split; [|split]].
  - apply (same_config_trans _ c0); [exact Hcfg|].
    apply (same_config_trans _ c1); [|exact Hcfg2].
    unfold c1, same_config. cbn. repeat split; reflexivity.
  - rewrite Hgain, Hu2. unfold c1. cbn. congruence.
  - rewrite Hhc2. unfold c1. cbn. lia.
  - rewrite Hpcm, Hu1. unfold c1, constant_gain_pcm. cbn. reflexivity.
Qed.

(** X17.  The hang period.  While the hang counter is positive and the
    blocks are quiet (at the present gain neither the signal amplitude
    exceeds the headroom nor the noise amplitude the threshold), the AGC
    holds the gain: over a run of at most [hangcount] such blocks no
    assertion fails, the gain field ends as it started, and the hang
    counter has gone down by one for every block that was processed,
    which is every block of the run unless [send_output] fails. *)
Theorem hang_holds_gain limit : forall (input : list block) (c : channel),
  linear_agc (linear c) = true ->
  Forall (fun blk => quiet_at c blk = true) input ->
  (Z.of_nat (length input) <= hangcount c <= INT_MAX)%Z ->
  exists c' outs,
    demod_loop limit c input = Done (c', outs)
    /\ output_gain (output c') = output_gain (output c)
    /\ hangcount c' = (hangcount c - Z.of_nat (length outs))%Z
    /\ (length outs <= length input)%nat
    /\ (Forall (fun blk => blk_send blk <> (-1)%Z) input ->
        length outs = length input).
Proof.
  induction input as [|blk rest IH]; intros c Hagc Hq Hh; cbn [demod_loop].
  - exists c, []. cbn. repeat split; try reflexivity; lia.
  - inversion Hq as [|? ? Hq1 Hq2]; subst. cbn [length] in Hh.
    destruct (hanging_block limit c blk Hagc Hq1 ltac:(lia))
      as (c1 & s & E & Hcfg & Hg & Hhc & _).
    rewrite E.
    destruct (Z.eqb_spec (blk_send blk) (-1)) as [Hfail | Hok]; cbn [negb].
    + exists c1, [s]. cbn [length].
      repeat split; try assumption; try lia.
      intros Hall. inversion Hall; subst. contradiction.
    + assert (Hagc1 : linear_agc (linear c1) = true).
      { unfold same_config in Hcfg. decompose [and] Hcfg. congruence. }
      assert (Hq' : Forall (fun b => quiet_at c1 b = true) rest).
      { rewrite Forall_forall in *. intros b Hb.
        rewrite (quiet_at_ext c c1 b Hcfg Hg). apply Hq2, Hb. }
      destruct (IH c1 Hagc1 Hq' ltac:(lia)) as (c2 & outs & E2 & Hg2 & Hhc2 & Hle & Hall2).
      rewrite E2. exists c2, (s :: outs). cbn [length].
      repeat split; try lia; try congruence.
      intros Hall. inversion Hall; subst. rewrite Hall2 by assumption. reflexivity.
Qed.

Lemma branch_recovering c :
  strong_signal c = false -> noise_above_threshold c = false ->
  (hangcount c <= 0)%Z -> agc_branch_of c = Recovering.
Proof.
  intros Hs Hn Hh. unfold agc_branch_of. rewrite Hs, Hn.
  replace (0 <? hangcount c)%Z with false by (symmetry; apply Z.ltb_ge; exact Hh).
  reflexivity.
Qed.

Lemma root_power (q : R) (n : nat) :
  (0 < q)%R -> (1 <= n)%nat -> (Rpower q (/ INR n) ^ n = q)%R.
Proof.
  intros Hq Hn.
  assert (Hpos : (0 < INR n)%R) by (apply lt_0_INR; lia).
  rewrite <- Rpower_pow by apply Rpower_pos.
  rewrite Rpower_mult, Rinv_l by lra.
  apply Rpower_1. exact Hq.
Qed.

(** X18.  A recovery block.  When the AGC is on, the block is quiet and
    the hang counter has run out, a block of [N >= 1] samples multiplies
    the gain by the recovery rate, whatever [N] is: the per-sample
    factor is the N-th root of the rate and the final pass applies it
    [N] times (in exact arithmetic).  The hang counter stays. *)
Theorem recovery_block_gain limit c blk g q :
  (1 <= length (blk_buffer blk))%nat ->
  linear_agc (linear c) = true ->
  quiet_at c blk = true ->
  (INT_MIN <= hangcount c <= 0)%Z ->
  output_gain (output c) = FFin g ->
  linear_recovery_rate (linear c) = FFin q -> (0 < q)%R ->
  exists c' s,
    demod_block limit c blk = Done (c', s, negb (blk_send blk =? -1)%Z)
    /\ output_gain (output c') = FFin (g * q)
    /\ hangcount c' = hangcount c.
Proof.
  intros Hn Hagc Hq Hh Hg Hr Hrpos. unfold demod_block. cbv zeta.
  destruct (front_stages_frame limit c blk) as (Hcfg & Hout & Hhc & Hlen).
  destruct (quiet_at_front limit c blk Hq) as (Hs & Hnz).
  destruct (front_stages limit c blk) as [c0 buf0]. cbn [fst snd] in *.
  assert (Hcfg' := Hcfg). unfold same_config in Hcfg'. decompose [and] Hcfg'.
  assert (Hb : agc_branch_of c0 = Recovering)
    by (apply branch_recovering; try assumption; lia).
  rewrite agc_stage_by_branch
    by (try congruence; unfold INT_MIN, INT_MAX in *; lia).
  unfold agc_gain_change, agc_hangcount. rewrite Hb.
  replace (linear_recovery_rate (linear c0)) with (FFin q) by congruence.
  rewrite powf_root by assumption.
  rewrite feq_pos_zero by apply Rpower_pos.
  rewrite set_hangcount_same.
  destruct (output_stage_frame c0 buf0 (FFin (Rpower q (/ INR (length (blk_buffer blk)))))
              (blk_send blk)) as (_ & Hgain & _ & Hhc2).
  destruct (output_stage_keeps c0 buf0 (FFin (Rpower q (/ INR (length (blk_buffer blk)))))
              (blk_send blk)) as (_ & _ & _ & _ & _ & _ & _ & Hcont).
  destruct (output_stage c0 buf0 _ (blk_send blk)) as [[c' s] cont].
  cbn [fst snd] in *. subst cont.
  exists c', s. split; [reflexivity|]. split; [|congruence].
  rewrite Hgain. rewrite (output_pass_gain _ _ g) by congruence.
  rewrite Hlen, root_power by assumption. reflexivity.
Qed.




(** X20.  The assertion of the AGC catches an infinite gain.  When the
    gain field is +infinity and a gain-reducing rule fires with a
    positive target in a block of [N >= 1] samples, the ratio
    target/gain is 0, so is its N-th root, and [assert(gain_change != 0)]
    ends the process. *)
Theorem infinite_gain_fails_assertion limit c blk target :
  (1 <= length (blk_buffer blk))%nat ->
  linear_agc (linear c) = true ->
  output_gain (output c) = FInf false ->
  reducing_target (fst (front_stages limit c blk)) = Some target ->
  fgt target fzero = true ->
  demod_block limit c blk = Aborted.
Proof.
  intros Hn Hagc Hg0 Ht Hpos. unfold demod_block. cbv zeta.
  destruct (front_stages_frame limit c blk) as (Hcfg & Hout & _ & Hlen).
  destruct (front_stages limit c blk) as [c0 buf0]. cbn [fst snd] in *.
  assert (Hagc0 : linear_agc (linear c0) = true).
  { unfold same_config in Hcfg. decompose [and] Hcfg. congruence. }
  rewrite (agc_stage_reducing _ _ _ Hagc0 Ht).
  destruct (reducing_target_ramp _ _ _ Hn Ht Hpos)
    as [(Hinf & Hz) | (g' & t & Hg & _)].
  - rewrite Hz. unfold assert, fne.
    replace (feq (FFin 0) fzero) with true by (symmetry; now apply feq_fin).
    reflexivity.
  - rewrite Hout, Hg0 in Hg. discriminate.
Qed.

(** What one turn of the loop does to the lock counter. *)
Lemma pll_stage_lock_count limit c buffer :
  (0 <= limit)%Z ->
  (limit + Z.of_nat (length buffer) <= INT_MAX)%Z ->
  (- limit <= pll_lock_count (chan_pll c) <= limit)%Z ->
  (- limit <= pll_lock_count (chan_pll (fst (pll_stage limit c buffer))) <= limit)%Z.
Proof.
  intros Hlim Hroom Hc.
  destruct (linear_pll (linear c)) eqn:Hon.
  - rewrite (pll_stage_on _ _ _ Hon). cbv zeta.
    destruct (at_lock_detector_fields c buffer) as (_ & Hcnt & _).
    set (c0 := at_lock_detector c buffer) in *.
    destruct (lock_detector_spec limit (Z.of_nat (length buffer)) c0)
      as (Hdown & Hup & Hstay & _); unfold INT_MIN, INT_MAX in *; try lia.
    destruct (track_rotations_keeps
                (lock_detector limit (Z.of_nat (length buffer)) c0)) as (_ & Tp & _).
    cbn [chan_pll set_sig_foffset set_sig]. rewrite Tp.
    cbv zeta in Hdown, Hup, Hstay.
    destruct (flt (sig_snr (sig c0)) (fm_squelch_close (fm c0))).
    + rewrite Hdown by reflexivity. lia.
    + destruct (fgt (sig_snr (sig c0)) (fm_squelch_open (fm c0))).
      * rewrite Hup by reflexivity. lia.
      * rewrite Hstay by reflexivity. lia.
  - unfold pll_stage. rewrite Hon. cbn. exact Hc.
Qed.

Lemma demod_block_lock_count limit c blk c' s cont :
  (0 <= limit)%Z ->
  (limit + Z.of_nat (length (blk_buffer blk)) <= INT_MAX)%Z ->
  (- limit <= pll_lock_count (chan_pll c) <= limit)%Z ->
  demod_block limit c blk = Done (c', s, cont) ->
  (- limit <= pll_lock_count (chan_pll c') <= limit)%Z.
Proof.
  intros Hlim Hroom Hc. unfold demod_block, front_stages. cbv zeta.
  pose proof (pll_stage_lock_count limit
                (set_sig_power (blk_bb_power blk) (blk_n0 blk) c) (blk_buffer blk)
                Hlim Hroom Hc) as H1.
  destruct (pll_stage limit _ (blk_buffer blk)) as [c1 b1]. cbn [fst] in H1.
  destruct (shift_stage_keeps c1 b1) as (Hp & _).
  destruct (shift_stage c1 b1) as [c2 b2]. cbn [fst] in Hp.
  destruct (agc_stage _ c2) as [[c3 gc]|] eqn:E; [|discriminate].
  destruct (agc_stage_hangcount_only _ _ _ _ E) as (h & ->).
  destruct (output_stage_keeps (set_hangcount h c2) b2 gc (blk_send blk))
    as (_ & _ & Hp4 & _).
  intros H. inversion H as [H']. rewrite H' in Hp4. cbn [fst] in Hp4.
  rewrite Hp4. cbn. rewrite Hp. exact H1.
Qed.

(** X21.  The lock counter never leaves the band from [-limit] to
    [+limit].  If it starts inside the band (it starts at 0) and no
    block is so long that [limit + N] overflows an [int], it is inside
    the band after every run of the loop, so the additions and
    subtractions of the lock detector never overflow. *)
Theorem lock_count_stays_bounded limit : forall (input : list block) c c' outs,
  (0 <= limit)%Z ->
  Forall (fun blk => (limit + Z.of_nat (length (blk_buffer blk)) <= INT_MAX)%Z) input ->
  (- limit <= pll_lock_count (chan_pll c) <= limit)%Z ->
  demod_loop limit c input = Done (c', outs) ->
  (- limit <= pll_lock_count (chan_pll c') <= limit)%Z.
Proof.
  induction input as [|blk rest IH]; intros c c' outs Hlim Hall Hc; cbn [demod_loop].
  - intros H. inversion H; subst. exact Hc.
  - inversion Hall as [|? ? Hblk Hrest]; subst.
    destruct (demod_block limit c blk) as [[[c1 s] cont]|] eqn:E; [|discriminate].
    pose proof (demod_block_lock_count _ _ _ _ _ _ Hlim Hblk Hc E) as H1.
    destruct cont.
    + destruct (demod_loop limit c1 rest) as [[c2 ss]|] eqn:E2; [|discriminate].
      intros H. inversion H; subst. exact (IH c1 c' ss Hlim Hrest H1 E2).
    + intros H. inversion H; subst. exact H1.
Qed.

Lemma demod_block_cont limit c blk c' s cont :
  demod_block limit c blk = Done (c', s, cont) ->
  cont = negb (blk_send blk =? -1)%Z
  /\ sent_count s = Z.of_nat (length (blk_buffer blk))
  /\ pcm_frames (sent_pcm s) = length (blk_buffer blk).
Proof.
  unfold demod_block. cbv zeta.
  destruct (front_stages_frame limit c blk) as (_ & _ & _ & Hlen).
  destruct (front_stages limit c blk) as [c0 buf0]. cbn [fst snd] in *.
  destruct (agc_stage _ c0) as [[c1 gc]|]; [|discriminate].
  destruct (output_stage_keeps c1 buf0 gc (blk_send blk)) as (_ & _ & _ & _ & _ & _ & _ & Hcont).
  destruct (output_stage_mute c1 buf0 gc (blk_send blk)) as (_ & _ & _ & _ & Hcount).
  destruct (output_stage_frame c1 buf0 gc (blk_send blk)) as (_ & _ & Hpcm & _).
  intros H. inversion H as [H']. rewrite H' in *. cbn [fst snd] in *.
  split; [exact Hcont|]. split; [rewrite Hcount, Hlen; reflexivity|].
  rewrite Hpcm, <- Hlen. unfold output_pass.
  destruct (_ =? 1)%Z; destruct (linear_env _);
    match goal with |- context [final_pass ?f ?p buf0 ?g gc ?z] =>
      pose proof (final_pass_length f p gc buf0 g z) as HL;
      destruct (final_pass f p buf0 g gc z) as [[out g'] p']
    end; exact HL.
Qed.

(** X22.  One frame out per sample in.  Whatever the output format (mono
    or stereo, envelope or not), a block that runs to its end hands
    [send_output] as many frames as the filter delivered samples, and
    the sample count passed along is that number. *)
Theorem one_frame_per_sample limit c blk c' s cont :
  demod_block limit c blk = Done (c', s, cont) ->
  pcm_frames (sent_pcm s) = length (blk_buffer blk)
  /\ sent_count s = Z.of_nat (length (blk_buffer blk)).
Proof.
  intros H. destruct (demod_block_cont _ _ _ _ _ _ H) as (_ & Hc & Hp).
  split; assumption.
Qed.

(** X23.  A failed [send_output] ends the demodulator.  The blocks after
    one for which [send_output] returns -1 are never processed: the
    loop gives the same result as if the input ended there, and never
    sends more blocks than it was given. *)
Theorem failed_send_ends_loop limit : forall (pre : list block) c blk rest,
  blk_send blk = (-1)%Z ->
  demod_loop limit c (pre ++ blk :: rest) = demod_loop limit c (pre ++ [blk])
  /\ (forall c' outs, demod_loop limit c (pre ++ blk :: rest) = Done (c', outs) ->
        (length outs <= length pre + 1)%nat).
Proof.
  induction pre as [|b pre IH]; intros c blk rest Hfail; cbn [app demod_loop length].
  - destruct (demod_block limit c blk) as [[[c1 s] cont]|] eqn:E.
    + destruct (demod_block_cont _ _ _ _ _ _ E) as (Hc & _).
      rewrite Hfail in Hc. cbn in Hc. subst cont.
      split; [reflexivity|]. intros c' outs H. inversion H; subst. cbn. lia.
    + split; [reflexivity|]. discriminate.
  - destruct (demod_block limit c b) as [[[c1 s] cont]|]; [|split; [reflexivity|discriminate]].
    destruct cont.
    + destruct (IH c1 blk rest Hfail) as (Heq & Hlen). rewrite Heq. split; [reflexivity|].
      rewrite <- Heq.
      destruct (demod_loop limit c1 (pre ++ blk :: rest)) as [[c2 ss]|] eqn:E2;
        [|discriminate].
      specialize (Hlen c2 ss eq_refl).
      intros c' outs H. inversion H; subst. cbn [length]. lia.
    + split; [reflexivity|]. intros c' outs H. inversion H; subst. cbn. lia.
Qed.

(** *** The power of a block *)










End Blocks.

#[local] Existing Instance still_osc.

(** On the standing oscillator, with the PLL off, the stages before the
    AGC only store the power estimates. *)
Lemma front_stages_still limit (c : @channel still_osc) blk :
  linear_pll (linear c) = false ->
  front_stages limit c blk
  = (set_shift (shift c)
       (set_pll_was_on false (set_sig_power (blk_bb_power blk) (blk_n0 blk) c)),
     blk_buffer blk).
Proof.
  intros Hoff. unfold front_stages, pll_stage, shift_stage. cbv zeta.
  cbn [set_sig_power set_sig linear]. rewrite Hoff.
  cbn. rewrite fne_zero_zero. reflexivity.
Qed.

Lemma quiet_block_is_quiet agc rate h :
  quiet_at (set_hangcount h (test_channel_with agc false rate)) quiet_block = true.
Proof.
  unfold quiet_at, strong_signal, noise_above_threshold,
    signal_amplitude, noise_amplitude.
  cbn [test_channel_with set_hangcount set_sig_power set_sig sig sig_bb_power
       sig_n0 output output_gain output_headroom filter filter_min_IF
       filter_max_IF linear linear_threshold quiet_block blk_bb_power blk_n0].
  rewrite sqrtf_zero.
  replace (fgt (fmul fzero (FFin 4)) (FFin (1 / 2))) with false
    by (symmetry; apply flt_fin_false; lra).
  replace (fmul (fabsf (fsub (FFin (-5000)) (FFin 5000))) fzero) with fzero
    by (funfold; f_equal; ring).
  rewrite sqrtf_zero.
  replace (fgt (fmul fzero (FFin 4)) (fmul (FFin (1 / 4)) (FFin (1 / 2))))
    with false by (symmetry; apply flt_fin_false; lra).
  reflexivity.
Qed.

Lemma hang_holds_gain_witness :
  exists c' outs,
    demod_loop 1200 (set_hangcount 3 (test_channel true false))
      [quiet_block; quiet_block] = Done (c', outs)
    /\ output_gain (output c') = FFin 4
    /\ hangcount c' = (3 - Z.of_nat (length outs))%Z.
Proof.
  destruct (hang_holds_gain 1200 [quiet_block; quiet_block]
              (set_hangcount 3 (test_channel true false)) eq_refl)
    as (c' & outs & E & Hg & Hh & _).
  - repeat constructor; apply quiet_block_is_quiet.
  - cbn. unfold INT_MAX. lia.
  - exists c', outs. split; [exact E|]. split; [exact Hg | exact Hh].
Defined.

Lemma recovery_block_gain_witness :
  exists c' s,
    demod_block 1200 (test_channel true false) quiet_block
    = Done (c', s, negb (blk_send quiet_block =? -1)%Z)
    /\ output_gain (output c') = FFin (4 * 2).
Proof.
  destruct (recovery_block_gain 1200 (test_channel true false) quiet_block 4 2)
    as (c' & s & E & Hg & _).
  - cbn. lia.
  - reflexivity.
  - exact (quiet_block_is_quiet true 2 0).
  - cbn. unfold INT_MIN. lia.
  - reflexivity.
  - reflexivity.
  - lra.
  - exists c', s. split; [exact E | exact Hg].
Defined.


(** The test channel with an infinite gain. *)
Lemma infinite_gain_is_strong limit :
  reducing_target
    (fst (front_stages limit (set_output_gain (FInf false) (test_channel true false))
            test_block))
  = Some (FFin (1 / 2 / 1)).
Proof.
  rewrite front_stages_still by reflexivity. cbn [fst].
  unfold reducing_target, strong_signal, strong_target, signal_amplitude.
  cbn [set_shift set_pll_was_on set_chan_pll set_sig_power set_sig set_output_gain
       set_output sig sig_bb_power output output_gain output_headroom
       test_channel test_channel_with test_block blk_bb_power].
  rewrite sqrtf_one.
  replace (fgt (fmul fone (FInf false)) (FFin (1 / 2))) with true
    by (symmetry; funfold; rdec; reflexivity).
  f_equal. funfold. rdec. reflexivity.
Qed.

Lemma infinite_gain_fails_assertion_witness :
  demod_block 1200 (set_output_gain (FInf false) (test_channel true false)) test_block
  = Aborted.
Proof.
  apply (infinite_gain_fails_assertion 1200
           (set_output_gain (FInf false) (test_channel true false)) test_block
           (FFin (1 / 2 / 1))).
  - cbn. lia.
  - reflexivity.
  - reflexivity.
  - exact (infinite_gain_is_strong 1200).
  - apply fgt_fin. lra.
Defined.

(** C7.  Where the AGC computes a [gain_change] of 0.  With the gain
    field at +infinity (a strictly positive float), a block of unit
    amplitude is a strong signal whose target gain, 1/2, is positive, so
    the guard lets the ramp through: target/gain is 0, so is its root,
    [gain_change] is 0 and [assert(gain_change != 0)] ends the process.
    The block started from a strictly positive gain and there is no
    gain after it. *)
Theorem gain_change_zero_at_infinite_gain :
  let c := set_output_gain (FInf false) (test_channel true false) in
  let c0 := fst (front_stages 1200 c test_block) in
  fgt (output_gain (output c)) fzero = true
  /\ agc_branch_of c0 = StrongSignal
  /\ fgt (strong_target c0) fzero = true
  /\ agc_gain_change 1 c0 = FFin 0
  /\ agc_stage 1 c0 = Aborted
  /\ demod_block 1200 c test_block = Aborted.
Proof.
  cbv zeta.
  set (c := set_output_gain (FInf false) (test_channel true false)).
  assert (Hfront : front_stages 1200 c test_block
                   = (set_shift (shift c)
                        (set_pll_was_on false (set_sig_power fone fzero c)),
                      [Cplx fone fzero]))
    by (apply front_stages_still; reflexivity).
  rewrite Hfront. cbn [fst].
  set (c0 := set_shift (shift c) (set_pll_was_on false (set_sig_power fone fzero c))).
  assert (Hs : strong_signal c0 = true).
  { unfold strong_signal, signal_amplitude, c0, c.
    cbn [set_shift set_pll_was_on set_chan_pll set_sig_power set_sig set_output_gain
         set_output sig sig_bb_power output output_gain output_headroom
         test_channel test_channel_with].
    rewrite sqrtf_one. funfold. rdec; reflexivity. }
  assert (Ht : strong_target c0 = FFin (1 / 2 / 1)).
  { unfold strong_target, signal_amplitude, c0, c.
    cbn [set_shift set_pll_was_on set_chan_pll set_sig_power set_sig set_output_gain
         set_output sig sig_bb_power output output_gain output_headroom
         test_channel test_channel_with].
    rewrite sqrtf_one. funfold. rdec. reflexivity. }
  assert (Hb : agc_branch_of c0 = StrongSignal)
    by (unfold agc_branch_of; rewrite Hs; reflexivity).
  assert (Hpos : fgt (strong_target c0) fzero = true)
    by (rewrite Ht; apply fgt_fin; lra).
  assert (Hgc : agc_gain_change 1 c0 = FFin 0).
  { unfold agc_gain_change. rewrite Hb. unfold ramp_to. rewrite Hpos, Ht.
    replace (output_gain (output c0)) with (FInf false) by reflexivity.
    cbn [fdiv]. apply powf_zero_first. }
  assert (Hstage : agc_stage 1 c0 = Aborted).
  { rewrite agc_stage_by_branch
      by (try reflexivity; unfold INT_MIN, INT_MAX; cbn; lia).
    rewrite Hgc.
    replace (feq (FFin 0) fzero) with true by (symmetry; now apply feq_fin).
    reflexivity. }
  split; [reflexivity|]. split; [exact Hb|]. split; [exact Hpos|].
  split; [exact Hgc|]. split; [exact Hstage|].
  unfold demod_block. cbv zeta. rewrite Hfront.
  change (Z.of_nat (length (blk_buffer test_block))) with 1%Z.
  fold c0. rewrite Hstage. reflexivity.
Qed.

(** With the AGC off a single block always runs to its end. *)
Lemma one_block_loop limit (c : @channel still_osc) blk :
  linear_agc (linear c) = false ->
  exists c' s cont,
    demod_block limit c blk = Done (c', s, cont)
    /\ demod_loop limit c [blk] = Done (c', [s]).
Proof.
  intros Hoff.
  destruct (demod_block_agc_off limit c blk Hoff) as (c' & s & cont & E & _).
  exists c', s, cont. split; [exact E|].
  cbn [demod_loop]. rewrite E. destruct cont; reflexivity.
Qed.

Lemma lock_count_stays_bounded_witness :
  exists c' outs,
    demod_loop 1200 (test_channel false true) [test_block] = Done (c', outs)
    /\ (- 1200 <= pll_lock_count (chan_pll c') <= 1200)%Z.
Proof.
  destruct (one_block_loop 1200 (test_channel false true) test_block eq_refl)
    as (c' & s & cont & _ & E).
  exists c', [s]. split; [exact E|].
  apply (lock_count_stays_bounded 1200 [test_block] (test_channel false true) c' [s]).
  - lia.
  - repeat constructor. cbn. unfold INT_MAX. lia.
  - cbn. lia.
  - exact E.
Defined.

Lemma one_frame_per_sample_witness :
  exists c' s cont,
    demod_block 1200 (test_channel false false) test_block = Done (c', s, cont)
    /\ pcm_frames (sent_pcm s) = 1%nat.
Proof.
  destruct (one_block_loop 1200 (test_channel false false) test_block eq_refl)
    as (c' & s & cont & E & _).
  exists c', s, cont. split; [exact E|].
  exact (proj1 (one_frame_per_sample 1200 (test_channel false false) test_block
                  c' s cont E)).
Defined.

Lemma failed_send_ends_loop_witness :
  demod_loop 1200 (test_channel false false) ([test_block] ++ unsent_block :: [test_block])
  = demod_loop 1200 (test_channel false false) ([test_block] ++ [unsent_block]).
Proof.
  exact (proj1 (failed_send_ends_loop 1200 [test_block] (test_channel false false)
                  unsent_block [test_block] eq_refl)).
Defined.




End DemodFacts.

(** ** Configuration: what [loadconfig] hands to the demodulator *)

Module ConfigFacts.
Import Linear FloatFacts LinearFacts.

Local Open Scope R_scope.

Lemma dB2voltage_fin (x : R) :
  Config.dB2voltage (FFin x) = FFin (Rpower 10 (x / 20)).
Proof.
  unfold Config.dB2voltage.
  replace (fdiv (FFin x) (FFin 20)) with (FFin (x / 20))
    by (funfold; rdec; reflexivity).
  unfold powf.
  destruct (feq (FFin (x / 20)) fzero) eqn:E0.
  - apply feq_fin in E0. rewrite E0. rewrite Rpower_O by lra. reflexivity.
  - replace (feq (FFin 10) fone) with false by (symmetry; funfold; rdec; reflexivity).
    destruct (Rlt_dec 0 10); [reflexivity | lra].
Qed.

Lemma dB2power_fin (x : R) :
  Config.dB2power (FFin x) = FFin (Rpower 10 (x / 10)).
Proof.
  unfold Config.dB2power.
  replace (fdiv (FFin x) (FFin 10)) with (FFin (x / 10))
    by (funfold; rdec; reflexivity).
  unfold powf.
  destruct (feq (FFin (x / 10)) fzero) eqn:E0.
  - apply feq_fin in E0. rewrite E0. rewrite Rpower_O by lra. reflexivity.
  - replace (feq (FFin 10) fone) with false by (symmetry; funfold; rdec; reflexivity).
    destruct (Rlt_dec 0 10); [reflexivity | lra].
Qed.

(** Ten to a non-positive power is at most 1, to a non-negative power
    at least 1. *)
Lemma ten_to_nonpos (y : R) : y <= 0 -> 0 < Rpower 10 y <= 1.
Proof.
  intros Hy. split; [apply Rpower_pos|].
  rewrite <- (Rpower_O 10) by lra. apply Rle_Rpower; lra.
Qed.

Lemma ten_to_nonneg (y : R) : 0 <= y -> 1 <= Rpower 10 y.
Proof.
  intros Hy. rewrite <- (Rpower_O 10) by lra. apply Rle_Rpower; lra.
Qed.

Lemma fle_fin a b : fle (FFin a) (FFin b) = true <-> a <= b.
Proof. funfold. split; intros H; rdec; try discriminate; reflexivity. Qed.

Lemma abs_positive (x : Z) :
  (x <> 0)%Z -> (INT_MIN < x <= INT_MAX)%Z -> (0 < Config.abs x <= INT_MAX)%Z.
Proof.
  intros Hnz Hr. unfold Config.abs.
  rewrite int32_id by (unfold INT_MIN, INT_MAX in *; lia).
  unfold INT_MIN, INT_MAX in *. lia.
Qed.

(** X26.  What [loadconfig] guarantees about a section.  Whatever finite
    numbers the configuration holds (and a positive block time), a
    section with a non-zero sample rate is accepted, none of its
    parameters is a NaN, and each lies in its closed range: the sample
    rate is positive; headroom and threshold are between 0 and 1; the
    recovery rate is at least 1; hang time and gain are not negative;
    the filter edges are ordered; the squelch thresholds are not
    negative, with close <= open; there are 1 or 2 channels; and
    "square" implies "pll".  The ranges are closed, and open-ended
    above, because a power of ten computed in a [float] can underflow
    to 0 or overflow to +infinity. *)
Theorem loaded_parameters_in_range (Blocktime : cfloat) (bt : R)
    (s : Config.settings) :
  Blocktime = FFin bt -> 0 < bt ->
  Config.finite_settings s ->
  (Config.key_samprate s <> 0)%Z ->
  (INT_MIN < Config.key_samprate s <= INT_MAX)%Z ->
  exists d,
    Config.loadconfig_section Blocktime s = Some d
    /\ (0 < Config.output_samprate d <= INT_MAX)%Z
    /\ fle fzero (Config.output_headroom d) = true
    /\ fle (Config.output_headroom d) fone = true
    /\ fle fzero (Config.linear_threshold d) = true
    /\ fle (Config.linear_threshold d) fone = true
    /\ fle fone (Config.linear_recovery_rate d) = true
    /\ fle fzero (Config.linear_hangtime d) = true
    /\ fle fzero (Config.output_gain d) = true
    /\ fle (Config.filter_min_IF d) (Config.filter_max_IF d) = true
    /\ fle fzero (Config.squelch_close d) = true
    /\ fle (Config.squelch_close d) (Config.squelch_open d) = true
    /\ (Config.output_channels d = 1 \/ Config.output_channels d = 2)%Z
    /\ (Config.linear_square d = true -> Config.linear_pll d = true).
Proof.
  intros -> Hbt Hfin Hnz Hr.
  destruct Hfin as ((lo & Hlo) & (hi & Hhi) & (so & Hso) & (sc & Hsc) & (hr & Hhr)
                    & (rr & Hrr) & (ht & Hht) & (th & Hth) & (gn & Hgn)).
  pose proof (abs_positive _ Hnz Hr) as Habs.
  unfold Config.loadconfig_section.
  replace (Config.abs (Config.key_samprate s) =? 0)%Z with false
    by (symmetry; apply Z.eqb_neq; lia).
  rewrite Hlo, Hhi, Hso, Hsc, Hhr, Hrr, Hht, Hth, Hgn.
  cbn [fabsf fneg].
  set (lowhigh := if fgt (FFin lo) (FFin hi) then (FFin hi, FFin lo)
                  else (FFin lo, FFin hi)).
  assert (Hlh : fle (fst lowhigh) (snd lowhigh) = true).
  { unfold lowhigh. destruct (fgt (FFin lo) (FFin hi)) eqn:E; cbn [fst snd].
    - apply fgt_fin in E. apply fle_fin. lra.
    - apply flt_fin_false in E. apply fle_fin. lra. }
  destruct lowhigh as [low high]. cbn [fst snd] in Hlh.
  eexists. split; [reflexivity|]. cbn [Config.output_samprate Config.output_headroom
    Config.linear_threshold Config.linear_recovery_rate Config.linear_hangtime
    Config.output_gain Config.filter_min_IF Config.filter_max_IF Config.squelch_open
    Config.squelch_close Config.output_channels Config.linear_square Config.linear_pll].
  pose proof (Rabs_pos hr) as Hahr. pose proof (Rabs_pos th) as Hath.
  pose proof (Rabs_pos rr) as Harr. pose proof (Rabs_pos ht) as Haht.
  pose proof (ten_to_nonpos (- Rabs hr / 20) ltac:(lra)) as Hh.
  pose proof (ten_to_nonpos (- Rabs th / 20) ltac:(lra)) as Ht.
  split; [exact Habs|].
  split; [rewrite dB2voltage_fin; apply fle_fin; lra|].
  split; [rewrite dB2voltage_fin; apply fle_fin; lra|].
  split; [rewrite dB2voltage_fin; apply fle_fin; lra|].
  split; [rewrite dB2voltage_fin; apply fle_fin; lra|].
  split.
  { cbn [fmul]. rewrite dB2voltage_fin. apply fle_fin.
    apply ten_to_nonneg. nra. }
  split.
  { cbn [fmul]. unfold fdiv. destruct (Req_dec_T (1 / 1000 * bt) 0); [lra|].
    apply fle_fin. apply Rmult_le_pos; [assumption|].
    left. apply Rinv_0_lt_compat. lra. }
  split.
  { rewrite dB2voltage_fin. apply fle_fin. left. apply Rpower_pos. }
  split; [exact Hlh|].
  assert (Hclose : forall x, fle fzero (Config.dB2power (FFin x)) = true).
  { intros x. rewrite dB2power_fin. apply fle_fin. left. apply Rpower_pos. }
  split.
  { destruct (fgt (FFin sc) (FFin so)); apply Hclose. }
  split.
  { destruct (fgt (FFin sc) (FFin so)) eqn:E.
    - rewrite dB2power_fin. apply fle_fin. lra.
    - apply flt_fin_false in E. rewrite !dB2power_fin. apply fle_fin.
      apply Rle_Rpower; lra. }
  split.
  { destruct (Config.key_stereo s), (Config.key_mono s); cbn; auto.
    destruct (Z.eqb_spec (Config.key_channels s) 1) as [-> | H1]; cbn; auto.
    destruct (Z.eqb_spec (Config.key_channels s) 2) as [-> | H2]; cbn; auto. }
  intros ->. reflexivity.
Qed.

Lemma default_settings_finite : Config.finite_settings Config.default_settings.
Proof. unfold Config.finite_settings, Config.finite. cbn. repeat split; eexists; reflexivity. Qed.

Lemma loaded_parameters_in_range_witness :
  exists d,
    Config.loadconfig_section (FFin 20) Config.default_settings = Some d
    /\ fle fone (Config.linear_recovery_rate d) = true
    /\ fle fzero (Config.linear_hangtime d) = true
    /\ fle (Config.squelch_close d) (Config.squelch_open d) = true.
Proof.
  destruct (loaded_parameters_in_range (FFin 20) 20 Config.default_settings
              eq_refl ltac:(lra) default_settings_finite
              ltac:(cbn; lia) ltac:(cbn; unfold INT_MIN, INT_MAX; lia))
    as (d & E & _ & _ & _ & _ & _ & Hq & Hht & _ & _ & _ & Hsq & _).
  exists d. split; [exact E|]. split; [exact Hq|]. split; [exact Hht | exact Hsq].
Defined.

Local Open Scope Z_scope.

Lemma isdigit_range c :
  Config.isdigit c = true -> 0 <= Z.of_N (Ascii.N_of_ascii c) - 48 <= 9.
Proof.
  unfold Config.isdigit. intros H. apply andb_true_iff in H. destruct H as [H1 H2].
  apply Z.leb_le in H1, H2. lia.
Qed.

Lemma decimal_of_digits_nonneg tok : forall acc,
  0 <= acc -> 0 <= Config.decimal_of_digits tok acc.
Proof.
  induction tok as [|c rest IH]; intros acc Hacc; cbn [Config.decimal_of_digits];
    [exact Hacc|].
  destruct (Config.isdigit c) eqn:Hd; [|apply IH; exact Hacc].
  apply IH. pose proof (isdigit_range c Hd). lia.
Qed.

Lemma ssrc_of_token_mod tok : forall ssrc acc,
  ssrc = acc mod 2 ^ 32 ->
  Config.ssrc_of_token tok ssrc = Config.decimal_of_digits tok acc mod 2 ^ 32.
Proof.
  induction tok as [|c rest IH]; intros ssrc acc Hs;
    cbn [Config.ssrc_of_token Config.decimal_of_digits]; [exact Hs|].
  destruct (Config.isdigit c); [|apply IH; exact Hs].
  apply IH. subst ssrc. unfold Status.uint32.
  rewrite Z.add_mod_idemp_l by lia.
  rewrite <- Z.add_mod_idemp_l by lia.
  rewrite Z.mul_mod_idemp_l by lia.
  rewrite Z.add_mod_idemp_l by lia. reflexivity.
Qed.

(** X28.  The SSRC generated from a frequency token is the number its
    decimal digits spell, every other character skipped, reduced modulo
    2^32: 147m435 gives 147435; a token with more digits than fit in
    32 bits wraps around. *)
Theorem ssrc_spells_the_digits (tok : String.string) :
  Config.ssrc_of_token tok 0 = Config.decimal_of_digits tok 0 mod 2 ^ 32
  /\ (Config.decimal_of_digits tok 0 < 2 ^ 32 ->
      Config.ssrc_of_token tok 0 = Config.decimal_of_digits tok 0).
Proof.
  assert (H : Config.ssrc_of_token tok 0 = Config.decimal_of_digits tok 0 mod 2 ^ 32)
    by (apply ssrc_of_token_mod; reflexivity).
  split; [exact H|].
  intros Hlt. rewrite H. apply Z.mod_small.
  split; [apply decimal_of_digits_nonneg; lia | exact Hlt].
Qed.

Lemma ssrc_spells_the_digits_witness :
  Config.ssrc_of_token Config.test_token 0 = 147435.
Proof.
  exact (proj2 (ssrc_spells_the_digits Config.test_token) ltac:(vm_compute; reflexivity)).
Defined.

Lemma uint64_int64 x : Status.uint64 (Status.int64 x) = x mod 2 ^ 64.
Proof.
  unfold Status.uint64, Status.int64.
  change (2 ^ 64) with 18446744073709551616.
  change (2 ^ 63) with 9223372036854775808.
  Z.to_euclidean_division_equations. lia.
Qed.

Lemma int64_small x : - 2 ^ 63 <= x < 2 ^ 63 -> Status.int64 x = x.
Proof.
  intros H. unfold Status.int64. rewrite Z.mod_small by lia. lia.
Qed.

Lemma int64_range x : - 2 ^ 63 <= Status.int64 x < 2 ^ 63.
Proof.
  unfold Status.int64.
  pose proof (Z.mod_pos_bound (x + 2 ^ 63) (2 ^ 64) ltac:(lia)). lia.
Qed.

(** X29.  The NTP timestamp of the RTCP sender report.  For a clock
    reading with [0 <= tv_nsec < 10^9] whose seconds since 1900 fit in
    32 bits, the 64-bit pattern stored has the seconds since 1900 in its
    upper 32 bits and the binary fraction of the second, rounded down,
    in its lower 32 bits; the fraction never carries into the seconds.
    (The [long long] that holds the pattern is negative for every date
    after 1968.) *)
Theorem ntp_timestamp_fields (NTP_EPOCH tv_sec tv_nsec : Z) :
  0 <= tv_nsec < 1000000000 ->
  0 <= tv_sec + NTP_EPOCH < 2 ^ 32 ->
  let t := Status.uint64 (Config.ntp_timestamp NTP_EPOCH tv_sec tv_nsec) in
  t / 2 ^ 32 = tv_sec + NTP_EPOCH
  /\ t mod 2 ^ 32 = tv_nsec * 2 ^ 32 / 1000000000
  /\ (t mod 2 ^ 32) * 1000000000 <= tv_nsec * 2 ^ 32
     < (t mod 2 ^ 32 + 1) * 1000000000
  /\ (2 ^ 31 <= tv_sec + NTP_EPOCH ->
      Config.ntp_timestamp NTP_EPOCH tv_sec tv_nsec < 0).
Proof.
  intros Hns Hsec t.
  set (A := tv_sec + NTP_EPOCH) in *.
  set (f := tv_nsec * 2 ^ 32 / 1000000000).
  assert (Hf : 0 <= f < 2 ^ 32).
  { unfold f. split; [apply Z.div_pos; lia|].
    apply Z.div_lt_upper_bound; lia. }
  assert (Hfrac : f * 1000000000 <= tv_nsec * 2 ^ 32 < (f + 1) * 1000000000).
  { unfold f. pose proof (Z.mul_div_le (tv_nsec * 2 ^ 32) 1000000000 ltac:(lia)).
    pose proof (Z.mul_succ_div_gt (tv_nsec * 2 ^ 32) 1000000000 ltac:(lia)).
    lia. }
  assert (Eq : Z.quot (Status.int64 (Z.shiftl (Status.int64 tv_nsec) 32)) 1000000000 = f).
  { rewrite (int64_small tv_nsec) by lia.
    rewrite Z.shiftl_mul_pow2 by lia. rewrite int64_small by lia.
    rewrite Z.quot_div_nonneg by lia. reflexivity. }
  assert (Et : t = A * 2 ^ 32 + f).
  { unfold t, Config.ntp_timestamp. cbv zeta. fold A. rewrite Eq.
    rewrite (int64_small A) by lia. rewrite Z.shiftl_mul_pow2 by lia.
    rewrite uint64_int64.
    rewrite <- (Z.add_mod_idemp_l (Status.int64 (A * 2 ^ 32))) by lia.
    pose proof (uint64_int64 (A * 2 ^ 32)) as Hw. unfold Status.uint64 in Hw.
    rewrite Hw. rewrite Z.add_mod_idemp_l by lia.
    apply Z.mod_small. change (2 ^ 64) with (2 ^ 32 * 2 ^ 32). nia. }
  split; [|split; [|split]].
  - rewrite Et. rewrite Z.div_add_l by lia. rewrite Z.div_small by lia. lia.
  - rewrite Et. rewrite Z.add_comm, Z.mod_add by lia. apply Z.mod_small. exact Hf.
  - replace (t mod 2 ^ 32) with f; [exact Hfrac|].
    rewrite Et. rewrite Z.add_comm, Z.mod_add by lia. symmetry.
    apply Z.mod_small. exact Hf.
  - intros Hbig.
    assert (Hu : Status.uint64 (Config.ntp_timestamp NTP_EPOCH tv_sec tv_nsec)
                 = A * 2 ^ 32 + f) by exact Et.
    assert (Hr : - 2 ^ 63 <= Config.ntp_timestamp NTP_EPOCH tv_sec tv_nsec < 2 ^ 63).
    { unfold Config.ntp_timestamp. cbv zeta. apply int64_range. }
    unfold Status.uint64 in Hu.
    destruct (Z.neg_nonneg_cases (Config.ntp_timestamp NTP_EPOCH tv_sec tv_nsec))
      as [Hneg | Hpos]; [exact Hneg|].
    rewrite Z.mod_small in Hu by lia. nia.
Qed.

Lemma ntp_timestamp_fields_witness :
  Status.uint64 (Config.ntp_timestamp 2208988800 1700000000 500000000) / 2 ^ 32
  = 1700000000 + 2208988800
  /\ Status.uint64 (Config.ntp_timestamp 2208988800 1700000000 500000000) mod 2 ^ 32
     = 2 ^ 31.
Proof.
  destruct (ntp_timestamp_fields 2208988800 1700000000 500000000
              ltac:(lia) ltac:(lia)) as (Hs & Hf & _).
  split; [exact Hs | exact Hf].
Defined.

End ConfigFacts.
